(** * Accera GPU lowering: a shallow embedding of AcceraToGPUPass.cpp, of
    GpuDialectCppPrinter.cpp and of the launch parameters of
    ExecutionOptions.h.

    The IR is an operation tree: an operation has a name and the blocks of
    its regions, a block is a list of operations.  An [Operation*] of the
    C++ code is the position of the operation in the tree, a symbol table is
    the list of its symbols, and what a conversion pattern does to the IR is
    the list of its rewriter calls, in program order. *)

From Stdlib Require Import ZArith Lia.
From stdpp Require Import base option list relations strings pretty gmap.

Local Set Warnings "-register-all".
Local Open Scope Z_scope.
Local Open Scope nat_scope.

(** ** Results of a pattern *)

Inductive LogicalResult := success | failure.

(** ** Enumerations *)

(** Modelled from the spec: the declaration of [vir::BarrierScope]
    (ValueEnums.h) is not among the sources; the three scopes are the ones
    the data model lists and the switch statements name. *)
Module BarrierScope.
Inductive t := Block | Warp | Threadfence.
End BarrierScope.

(** ** The operation tree *)

Inductive OpName :=
  | BarrierOp (scope : BarrierScope.t)
  | AffineIfOp
  | SCFIfOp
  | OtherOp (name : string).

Inductive Operation :=
  mkOp { opName : OpName; opBlocks : list (list Operation) }.

Abbreviation OpBlock := (list Operation).

Definition isBarrierOp (n : OpName) : bool :=
  match n with BarrierOp _ => true | _ => false end.
Definition isAffineIfOp (n : OpName) : bool :=
  match n with AffineIfOp => true | _ => false end.
Definition isSCFIfOp (n : OpName) : bool :=
  match n with SCFIfOp => true | _ => false end.

(** A conditional construct: one of the two control-flow representations. *)
Definition isConditional (n : OpName) : bool := isAffineIfOp n || isSCFIfOp n.

(** A step [(i, b)] of a path enters block [b] of operation [i] of the
    current block; a location is the path to the block that holds the
    operation and the index of the operation in it. *)
Record Loc := mkLoc { path : list (nat * nat); idx : nat }.

Definition child (B : OpBlock) (s : nat * nat) : option OpBlock :=
  o ← B !! s.1; opBlocks o !! s.2.

Fixpoint getBlock (B : OpBlock) (p : list (nat * nat)) : option OpBlock :=
  match p with
  | [] => Some B
  | s :: p' => B' ← child B s; getBlock B' p'
  end.

Definition getOp (B : OpBlock) (l : Loc) : option Operation :=
  B' ← getBlock B (path l); B' !! idx l.

(** The operations entered along a path, outermost first: the ancestors of
    whatever the path leads to. *)
Fixpoint ancestors (B : OpBlock) (p : list (nat * nat)) : list Operation :=
  match p with
  | [] => []
  | s :: p' =>
      match B !! s.1 with
      | Some o =>
          o :: match opBlocks o !! s.2 with
               | Some B' => ancestors B' p'
               | None => []
               end
      | None => []
      end
  end.

(** In-place update of the block a path leads to; the tree is unchanged
    when the path leaves it. *)
Fixpoint updBlock (f : OpBlock → OpBlock) (B : OpBlock) (p : list (nat * nat))
  : OpBlock :=
  match p with
  | [] => f B
  | s :: p' =>
      match B !! s.1 with
      | Some o =>
          match opBlocks o !! s.2 with
          | Some B' =>
              <[s.1 := mkOp (opName o) (<[s.2 := updBlock f B' p']> (opBlocks o))]> B
          | None => B
          end
      | None => B
      end
  end.

(** [rewriter.setInsertionPoint] at index [i] followed by a creation: the
    new operation takes index [i], what was there moves one place on. *)
Definition insertAt {A} (i : nat) (x : A) (l : list A) : list A :=
  take i l ++ x :: drop i l.

(** Number of barrier operations in a subtree. *)
Fixpoint countBarriers (o : Operation) : nat :=
  match o with
  | mkOp n bs =>
      (if isBarrierOp n then 1 else 0)
      + list_sum (List.map (λ B, list_sum (List.map countBarriers B)) bs)
  end.

Definition countBlock (B : OpBlock) : nat := list_sum (List.map countBarriers B).

(** Induction on the operation tree. *)
Fixpoint Operation_tree_ind (P : Operation → Prop)
    (H : ∀ n bs, Forall (Forall P) bs → P (mkOp n bs)) (o : Operation) : P o :=
  match o with
  | mkOp n bs =>
      H n bs
        ((fix blocks (bs : list (list Operation)) : Forall (Forall P) bs :=
            match bs with
            | [] => @List.Forall_nil _ _
            | B :: bs' =>
                @List.Forall_cons _ _ _ _
                  ((fix ops (B : list Operation) : Forall P B :=
                      match B with
                      | [] => @List.Forall_nil _ _
                      | o' :: B' =>
                          @List.Forall_cons _ _ _ _ (Operation_tree_ind P H o') (ops B')
                      end) B)
                  (blocks bs')
            end) bs)
  end.

(** ** ConditionalBarrierHoistingPattern *)

Module ConditionalBarrierHoistingPattern.

(** Modelled from the spec: [utilir::GetHighestAncestorOfType<T>]
    (IRUtil.h) is not among the sources.  It returns the highest, that is
    the outermost, ancestor of the operation that is a [T], or null.  The
    ancestor is given by its depth in the chain of ancestors. *)
Definition GetHighestAncestorOfType (isT : OpName → bool)
    (B : OpBlock) (loc : Loc) : option nat :=
  fst <$> list_find (λ o, isT (opName o) = true) (ancestors B (path loc)).

(** [a->isAncestor(s)] for two ancestors of one operation: they lie on one
    chain, and [a] contains [s] when it is not deeper. *)
Definition isAncestor (a s : nat) : bool := a <=? s.

Definition GetAncestorIfOp (B : OpBlock) (loc : Loc) : option nat :=
  let parentAffineIfOp := GetHighestAncestorOfType isAffineIfOp B loc in
  let parentSCFIfOp := GetHighestAncestorOfType isSCFIfOp B loc in
  match parentAffineIfOp, parentSCFIfOp with
  | Some a, Some s => if isAncestor a s then Some a else Some s
  | _, _ =>
      match parentAffineIfOp with
      | None => parentSCFIfOp
      | Some _ => parentAffineIfOp
      end
  end.

(** The pattern matches barrier operations only: [None] when [loc] does
    not hold one.  After the first clone the conditional sits at [i + 1],
    so the second clone goes to [i + 2] and the original is found through
    [i + 1]. *)
Definition matchAndRewrite (B : OpBlock) (loc : Loc)
  : option (LogicalResult * OpBlock) :=
  match getOp B loc with
  | Some op =>
      if isBarrierOp (opName op) then
        match GetAncestorIfOp B loc with
        | Some k =>
            match path loc !! k with
            | Some (i, b) =>
                let P := take k (path loc) in
                let B1 := updBlock (insertAt i op) B P in
                let B2 := updBlock (insertAt (i + 2) op) B1 P in
                let B3 := updBlock (delete (idx loc)) B2
                            (P ++ (i + 1, b) :: drop (S k) (path loc)) in
                Some (success, B3)
            | None => Some (success, B)
            end
        | None => Some (success, B)
        end
      else None
  | None => None
  end.

End ConditionalBarrierHoistingPattern.

(** The conditional [A] once the operation at index [j] of the block
    reached from block [b] of [A] along [p] is erased. *)
Definition eraseOpIn (A : Operation) (b : nat) (p : list (nat * nat)) (j : nat)
  : Operation :=
  match opBlocks A !! b with
  | Some B' => mkOp (opName A) (<[b := updBlock (delete j) B' p]> (opBlocks A))
  | None => A
  end.

(** Number of barrier operations that lie inside a conditional: under a
    conditional every barrier counts, elsewhere those of the conditionals
    further down. *)
Fixpoint barriersInConditionals (o : Operation) : nat :=
  match o with
  | mkOp n bs =>
      if isConditional n then list_sum (List.map countBlock bs)
      else list_sum
             (List.map (λ B, list_sum (List.map barriersInConditionals B)) bs)
  end.

Definition barriersInConditionalsOfBlock (B : OpBlock) : nat :=
  list_sum (List.map barriersInConditionals B).

(** A barrier operation has no regions. *)
Fixpoint regionFreeBarriers (o : Operation) : bool :=
  match o with
  | mkOp n bs =>
      (if isBarrierOp n then bool_decide (bs = []) else true)
      && forallb (forallb regionFreeBarriers) bs
  end.

Definition regionFreeBlock (B : OpBlock) : bool := forallb regionFreeBarriers B.

(** One application of the hoisting pattern to a barrier that has a
    conditional ancestor. *)
Definition hoistStep (B B' : OpBlock) : Prop :=
  ∃ loc op,
    getOp B loc = Some op ∧ isBarrierOp (opName op) = true ∧
    (∃ o, o ∈ ancestors B (path loc) ∧ isConditional (opName o) = true) ∧
    ConditionalBarrierHoistingPattern.matchAndRewrite B loc = Some (success, B').

(** No barrier of the module lies inside a conditional. *)
Definition noBarrierInConditional (B : OpBlock) : Prop :=
  ∀ loc op, getOp B loc = Some op → isBarrierOp (opName op) = true →
            ∀ o, o ∈ ancestors B (path loc) → isConditional (opName o) = false.

(** ** Types, values and the operations a pattern emits *)

Inductive MlirType :=
  | F16
  | F32
  | I32
  | IndexType
  | VectorType (size : Z) (elementType : MlirType)
  | OtherType (name : string).

Definition isF16 (t : MlirType) : bool := match t with F16 => true | _ => false end.
Definition isF32 (t : MlirType) : bool := match t with F32 => true | _ => false end.
Definition isaVectorType (t : MlirType) : bool :=
  match t with VectorType _ _ => true | _ => false end.

(** An SSA value, named after the C++ variable that holds it. *)
Abbreviation Value := string.

(** Affine expressions and maps.  Expressions are kept as they are built;
    MLIR's constructors may simplify them, which does not change what they
    compute. *)
Inductive AffineExpr :=
  | AffineDimExpr (position : nat)
  | AffineSymbolExpr (position : nat)
  | AffineConstantExpr (value : Z)
  | AffineAdd (lhs rhs : AffineExpr)
  | AffineMul (lhs rhs : AffineExpr)
  | AffineMod (lhs rhs : AffineExpr)
  | AffineFloorDiv (lhs rhs : AffineExpr).

Record AffineMap := mkAffineMap {
  getNumDims : nat;
  getNumSymbols : nat;
  getResults : list AffineExpr
}.

Definition getNumInputs (m : AffineMap) : nat := getNumDims m + getNumSymbols m.

Module spirv.
Inductive Scope := CrossDevice | Device | Workgroup | Subgroup | Invocation.
(** Memory semantics are a bit mask (SPIR-V 3.25). *)
Module MemorySemantics.
Definition None : Z := 0x0.
Definition Acquire : Z := 0x2.
Definition Release : Z := 0x4.
Definition AcquireRelease : Z := 0x8.
Definition SequentiallyConsistent : Z := 0x10.
Definition UniformMemory : Z := 0x40.
Definition SubgroupMemory : Z := 0x80.
Definition WorkgroupMemory : Z := 0x100.
End MemorySemantics.
End spirv.

Module LLVM.
Inductive AtomicOrdering :=
  not_atomic | unordered | monotonic | acquire | release | acq_rel | seq_cst.
End LLVM.

(** The four ROCDL intrinsics of each precision. *)
Inductive MfmaIntrinsic :=
  | mfma_f32_16x16x4f16 | mfma_f32_32x32x4f16
  | mfma_f32_32x32x8f16 | mfma_f32_16x16x16f16
  | mfma_f32_16x16x1f32 | mfma_f32_32x32x1f32
  | mfma_f32_32x32x2f32 | mfma_f32_16x16x4f32.

Inductive GenOp :=
  | spirv_ControlBarrierOp (execution_scope memory_scope : spirv.Scope)
      (memory_semantics : Z)
  | gpu_BarrierOp
  | LLVM_FenceOp (ordering : LLVM.AtomicOrdering) (syncscope : string)
  | gpu_SubgroupMmaComputeOp (resultType : MlirType) (operands : list Value)
      (attrs : list Value)
  | gpu_ThreadIdOp (dimension : string)
  | gpu_BlockDimOp (dimension : string)
  | ConstantIndexOp (value : Z)
  | ConstantOp (type : MlirType) (value : Value)
  | vector_BroadcastOp (vectorType : MlirType) (source : Value)
  | AffineForOp (lb ub step : Z) (iterArgs : list Value)
  | IndexCastOp (input : Value) (type : MlirType)
  | MultiDimAffineApply (map : AffineMap) (operands : list Value)
  | memref_LoadOp (memref : Value) (indices : Value)
  | memref_StoreOp (value memref : Value) (indices : Value)
  | FPExtOp (input : Value) (type : MlirType)
  | FPTruncOp (input : Value) (type : MlirType)
  | vector_InsertElementOp (source dest position : Value)
  | vector_ExtractElementOp (vector position : Value)
  | AddIOp (lhs rhs : Value)
  | AffineYieldOp (operands : list Value)
  | ROCDL_mfma (intrinsic : MfmaIntrinsic) (resultType : MlirType)
      (operands : list Value).

(** The builders of a pattern: [rewriter] inserts at the operation being
    rewritten, [loopBuilder] into the body of the loop that replaces it,
    [loadABbuilder] into the body of the inner loop of the compute
    lowering. *)
Inductive Builder := rewriter | loopBuilder | loadABbuilder.

(** What a pattern does to the IR, in program order.  [Create b v o]:
    builder [b] creates [o], whose result the code binds to [v]. *)
Inductive RewriteAction :=
  | Create (b : Builder) (v : Value) (o : GenOp)
  | ReplaceOpWithNewOp (v : Value) (o : GenOp)
  | EraseOp
  | NotifyMatchFailure (msg : string).

(** A pattern returns a result, or the process dies on the way (a failed
    assertion or cast, an empty optional, a null map, a division by
    zero). *)
Inductive Exec (A : Type) :=
  | Normal (a : A)
  | Undefined.
Arguments Normal {A} a.
Arguments Undefined {A}.

Definition PatternResult : Type := Exec (LogicalResult * list RewriteAction).

(** The IR is mutated by every action but the failure notice. *)
Definition mutatesIR (a : RewriteAction) : bool :=
  match a with NotifyMatchFailure _ => false | _ => true end.

Definition isAddressComputation (a : RewriteAction) : bool :=
  match a with
  | Create _ _ (MultiDimAffineApply _ _) => true
  | Create _ _ (gpu_ThreadIdOp _) => true
  | Create _ _ (gpu_BlockDimOp _) => true
  | _ => false
  end.

(** ** Barrier op selection *)

Module ValueBarrierToSPIRVBarrierConversion.
Definition matchAndRewrite (scope : BarrierScope.t) : PatternResult :=
  match scope with
  | BarrierScope.Block =>
      Normal (success,
        [ReplaceOpWithNewOp "" (spirv_ControlBarrierOp spirv.Workgroup spirv.Workgroup
           spirv.MemorySemantics.AcquireRelease)])
  | BarrierScope.Warp =>
      Normal (success,
        [ReplaceOpWithNewOp "" (spirv_ControlBarrierOp spirv.Subgroup spirv.Subgroup
           (Z.lor spirv.MemorySemantics.AcquireRelease
                  spirv.MemorySemantics.SubgroupMemory))])
  | _ => Normal (failure, [NotifyMatchFailure "Unhandled barrier scope."])
  end.
End ValueBarrierToSPIRVBarrierConversion.

Module ValueBarrierToGPUBarrierConversion.
Definition matchAndRewrite (scope : BarrierScope.t) : PatternResult :=
  match scope with
  | BarrierScope.Block =>
      Normal (success, [ReplaceOpWithNewOp "" gpu_BarrierOp])
  | BarrierScope.Threadfence =>
      Normal (success, [ReplaceOpWithNewOp "" (LLVM_FenceOp LLVM.seq_cst "agent")])
  | _ => Normal (failure, [NotifyMatchFailure "Unhandled barrier scope."])
  end.
End ValueBarrierToGPUBarrierConversion.

(** ** Pass selection *)

(** [enum class Runtime : int] of ExecutionOptions.h, which the pass names
    [ExecutionRuntime]: its six enumerators in their order, the ones
    [createAcceraToGPUPass] switches on.  [UnrecognizedRuntime] stands for
    any other value of the underlying [int], which the [default] label
    receives. *)
Module ExecutionRuntime.
Inductive t :=
  | NONE | CUDA | ROCM | VULKAN | OPENMP | DEFAULT
  | UnrecognizedRuntime (raw : Z).
End ExecutionRuntime.

Inductive Pass := AcceraToSPIRVPass | AcceraToNVVMPass | AcceraToROCDLPass.

Definition createAcceraToSPIRVPass : option Pass := Some AcceraToSPIRVPass.
Definition createAcceraToNVVMPass : option Pass := Some AcceraToNVVMPass.
Definition createAcceraToROCDLPass : option Pass := Some AcceraToROCDLPass.

(** A null [unique_ptr] is [None]. *)
Definition createAcceraToGPUPass (runtime : ExecutionRuntime.t) : option Pass :=
  match runtime with
  | ExecutionRuntime.DEFAULT => createAcceraToROCDLPass
  | ExecutionRuntime.ROCM => createAcceraToROCDLPass
  | ExecutionRuntime.CUDA => createAcceraToNVVMPass
  | ExecutionRuntime.VULKAN => createAcceraToSPIRVPass
  | ExecutionRuntime.NONE => None
  | ExecutionRuntime.OPENMP => None
  | _ => None
  end.

(** ** Matrix fragments *)

(** Modelled from the spec: the declaration of [MFMAMatrixType::Shape]
    (ValueMFMAOp.h) is not among the sources; the four shapes are the ones
    the compute lowering names, and [UnrecognizedShape] stands for any other
    value, which the [default] labels receive. *)
Module Shape.
Inductive t :=
  | T4x16x64 | T2x32x64 | T4x4x32 | T2x2x16
  | UnrecognizedShape (raw : Z).
End Shape.

(** The fragment descriptor, as the lowering observes it: one field for each
    accessor of [MFMAMatrixType] that the patterns call. *)
Record MFMAMatrixType := mkMFMAMatrixType {
  getOperand : string;
  getElementType : MlirType;
  isValidShape : bool;
  getShapeType : Shape.t;
  getLeadingDim : Z;
  getThreadTileSize : Z;
  getNumBlocks : Z
}.

Record MFMALoadOp := mkMFMALoadOp {
  loadMatrixType : MFMAMatrixType;
  loadMap : AffineMap;
  loadIndices : list Value;
  loadWarpSize : option (Z * Z)
}.

Record MFMAStoreOp := mkMFMAStoreOp {
  storeMatrixType : MFMAMatrixType;
  storeValueType : MlirType;
  storeMap : AffineMap;
  storeIndices : list Value;
  storeWarpSize : option (Z * Z)
}.

Record MFMAConstantOp := mkMFMAConstantOp {
  constantMatrixType : MFMAMatrixType
}.

Record MFMAComputeOp := mkMFMAComputeOp {
  computeMatrixType : MFMAMatrixType;
  opAType : MlirType;
  opBType : MlirType;
  opCType : MlirType
}.

(** Sequencing of steps that may die. *)
Global Instance Exec_bind : MBind Exec := λ A C k x,
  match x with Normal a => k a | Undefined => Undefined end.

(** [a / b] on [int64_t]: truncation towards zero, undefined for [b = 0]. *)
Definition idiv (a b : Z) : Exec Z :=
  if (b =? 0)%Z then Undefined else Normal (Z.quot a b).

(** [std::optional::value()]. *)
Definition value {A} (o : option A) : Exec A :=
  match o with Some a => Normal a | None => Undefined end.

(** [expr.compose(map)]: the dimensions of [expr] become the results of
    [map]; a dimension [map] has no result for stays. *)
Fixpoint composeExpr (results : list AffineExpr) (e : AffineExpr) : AffineExpr :=
  match e with
  | AffineDimExpr i => default (AffineDimExpr i) (results !! i)
  | AffineSymbolExpr _ | AffineConstantExpr _ => e
  | AffineAdd a b => AffineAdd (composeExpr results a) (composeExpr results b)
  | AffineMul a b => AffineMul (composeExpr results a) (composeExpr results b)
  | AffineMod a b => AffineMod (composeExpr results a) (composeExpr results b)
  | AffineFloorDiv a b =>
      AffineFloorDiv (composeExpr results a) (composeExpr results b)
  end.

Fixpoint shiftSymbols (n : nat) (e : AffineExpr) : AffineExpr :=
  match e with
  | AffineSymbolExpr i => AffineSymbolExpr (n + i)
  | AffineDimExpr _ | AffineConstantExpr _ => e
  | AffineAdd a b => AffineAdd (shiftSymbols n a) (shiftSymbols n b)
  | AffineMul a b => AffineMul (shiftSymbols n a) (shiftSymbols n b)
  | AffineMod a b => AffineMod (shiftSymbols n a) (shiftSymbols n b)
  | AffineFloorDiv a b => AffineFloorDiv (shiftSymbols n a) (shiftSymbols n b)
  end.

(** [this.compose(map)] of MLIR: as many dimensions as [map], the symbols
    of [this] followed by those of [map]; it asserts that [this] has as many
    dimensions as [map] has results.  A null map is [None]. *)
Definition compose (this : option AffineMap) (map : AffineMap) : Exec AffineMap :=
  match this with
  | None => Undefined
  | Some this =>
      if bool_decide (getNumDims this = length (getResults map)) then
        let newResults := shiftSymbols (getNumSymbols this) <$> getResults map in
        Normal (mkAffineMap (getNumDims map)
                  (getNumSymbols this + getNumSymbols map)
                  (composeExpr newResults <$> getResults this))
      else Undefined
  end.

Definition GetRowColOffsetForCLoadStore (warpSize leadingDim : Z)
  : Exec (AffineExpr * AffineExpr) :=
  let subGroupSize := 4%Z in
  let iElem := AffineSymbolExpr 0 in
  let threadIdxX := AffineSymbolExpr 1 in
  let threadIdxY := AffineSymbolExpr 2 in
  let blockDimX := AffineSymbolExpr 3 in
  let blockTid := AffineAdd (AffineMul threadIdxY blockDimX) threadIdxX in
  let warpTid := AffineMod blockTid (AffineConstantExpr warpSize) in
  let m := AffineMod warpTid (AffineConstantExpr leadingDim) in
  let ks := AffineFloorDiv warpTid (AffineConstantExpr leadingDim) in
  warpStride ← idiv warpSize leadingDim;
  let rowsPerSet := (warpStride * subGroupSize)%Z in
  setsPerCol ← idiv leadingDim rowsPerSet;
  let itemGroup := AffineFloorDiv iElem (AffineConstantExpr subGroupSize) in
  let itemOffset := AffineMod iElem (AffineConstantExpr subGroupSize) in
  let itemGroupRowOffset :=
    AffineMul (AffineMod itemGroup (AffineConstantExpr setsPerCol))
      (AffineConstantExpr rowsPerSet) in
  let itemGroupColOffset :=
    AffineMul (AffineFloorDiv itemGroup (AffineConstantExpr setsPerCol))
      (AffineConstantExpr leadingDim) in
  Normal (AffineAdd
            (AffineAdd (AffineMul ks (AffineConstantExpr subGroupSize))
               itemGroupRowOffset)
            itemOffset,
          AffineAdd m itemGroupColOffset).

(** The operands of the composed map: the dimension operands of the op, the
    element index (a constant 0, overridden by the induction variable in the
    loop), thread ids and block dimension, then the symbol operands of the
    op.  The op verifier makes [indices] as long as the map has inputs. *)
Definition mapOperands (map : AffineMap) (indices : list Value)
    (iElem : Value) : list Value :=
  take (getNumDims map) indices
  ++ [iElem; "threadIdx.x"; "threadIdx.y"; "blockDim.x"]
  ++ drop (getNumDims map) (take (getNumInputs map) indices).

Definition createMapOperands : list RewriteAction :=
  [ Create rewriter "c0" (ConstantIndexOp 0);
    Create rewriter "threadIdx.x" (gpu_ThreadIdOp "x");
    Create rewriter "threadIdx.y" (gpu_ThreadIdOp "y");
    Create rewriter "blockDim.x" (gpu_BlockDimOp "x") ].

Module ValueMFMALoadOpToRocDLConversion.

(** The layout map, the vector size and the element type of the vector
    that the role of the operand selects. *)
Definition selectLayout (mfmaMatrixType : MFMAMatrixType) (warpSize : Z)
  : Exec (option AffineMap * Z * MlirType) :=
  let leadingDim := getLeadingDim mfmaMatrixType in
  let vecSize := getThreadTileSize mfmaMatrixType in
  let elementType := getElementType mfmaMatrixType in
  let d0 := AffineDimExpr 0 in
  let d1 := AffineDimExpr 1 in
  if String.eqb (getOperand mfmaMatrixType) "COp" then
    ld ← idiv leadingDim (getNumBlocks mfmaMatrixType);
    off ← GetRowColOffsetForCLoadStore warpSize ld;
    let matrixLayoutMap :=
      mkAffineMap 2 4 [AffineAdd d0 off.1; AffineAdd d1 off.2] in
    vecSize ← idiv vecSize (getNumBlocks mfmaMatrixType);
    let elementType := if isF16 elementType then F32 else elementType in
    Normal (Some matrixLayoutMap, vecSize, elementType)
  else
    let iElem := AffineSymbolExpr 0 in
    let threadIdxX := AffineSymbolExpr 0 in
    let threadIdxY := AffineSymbolExpr 1 in
    let blockDimX := AffineSymbolExpr 2 in
    let blockTid := AffineAdd threadIdxX (AffineMul threadIdxY blockDimX) in
    let warpTid := AffineMod blockTid (AffineConstantExpr warpSize) in
    let m := AffineMod warpTid (AffineConstantExpr leadingDim) in
    let ks := AffineFloorDiv warpTid (AffineConstantExpr leadingDim) in
    warpStride ← idiv warpSize leadingDim;
    let offsetAOpMap := mkAffineMap 2 3 [AffineAdd d0 m; AffineAdd d1 ks] in
    let strideAOpMap :=
      mkAffineMap 2 1
        [d0; AffineAdd d1 (AffineMul iElem (AffineConstantExpr warpStride))] in
    let offsetBOpMap := mkAffineMap 2 3 [AffineAdd d0 ks; AffineAdd d1 m] in
    let strideBOpMap :=
      mkAffineMap 2 1
        [AffineAdd d0 (AffineMul iElem (AffineConstantExpr warpStride)); d1] in
    aMap ← compose (Some strideAOpMap) offsetAOpMap;
    bMap ← compose (Some strideBOpMap) offsetBOpMap;
    let matrixLayoutMap :=
      if String.eqb (getOperand mfmaMatrixType) "AOp" then Some aMap
      else if String.eqb (getOperand mfmaMatrixType) "BOp" then Some bMap
      else (* this is really an error *) None in
    Normal (matrixLayoutMap, vecSize, elementType).

Definition matchAndRewrite (op : MFMALoadOp) : PatternResult :=
  let mfmaMatrixType := loadMatrixType op in
  let loadAffineMap := loadMap op in
  if negb (isValidShape mfmaMatrixType) then
    Normal (failure, [NotifyMatchFailure "unhandled matrix shape"])
  else
    ws ← value (loadWarpSize op);
    let warpSize := (ws.1 * ws.2)%Z in
    sel ← selectLayout mfmaMatrixType warpSize;
    let '(matrixLayoutMap, vecSize, elementType) := sel in
    composedMap ← compose matrixLayoutMap loadAffineMap;
    let vecTy := VectorType vecSize elementType in
    Normal (success,
      createMapOperands
      ++ [ Create rewriter "zero" (ConstantOp elementType "0");
           Create rewriter "vec" (vector_BroadcastOp vecTy "zero");
           ReplaceOpWithNewOp "loop" (AffineForOp 0 vecSize 1 ["vec"]);
           Create loopBuilder "laneIndex" (IndexCastOp "inductionVar" I32);
           Create loopBuilder "mappedOperands"
             (MultiDimAffineApply composedMap
                (mapOperands loadAffineMap (loadIndices op) "inductionVar"));
           Create loopBuilder "load" (memref_LoadOp "memref" "mappedOperands") ]
      ++ (if isF32 elementType && isF16 (getElementType mfmaMatrixType) then
            [ Create loopBuilder "castedElem" (FPExtOp "load" F32);
              Create loopBuilder "vec"
                (vector_InsertElementOp "castedElem" "destVec" "laneIndex") ]
          else
            [ Create loopBuilder "vec"
                (vector_InsertElementOp "load" "destVec" "laneIndex") ])
      ++ [ Create loopBuilder "" (AffineYieldOp ["vec"]) ]).

End ValueMFMALoadOpToRocDLConversion.

Module ValueMFMAStoreOpToRocDLConversion.

Definition matchAndRewrite (op : MFMAStoreOp) : PatternResult :=
  let mfmaMatrixType := storeMatrixType op in
  if negb (isValidShape mfmaMatrixType) then
    Normal (failure, [NotifyMatchFailure "unhandled matrix shape"])
  else
    ws ← value (storeWarpSize op);
    let d0 := AffineDimExpr 0 in
    let d1 := AffineDimExpr 1 in
    let leadingDim := getLeadingDim mfmaMatrixType in
    vecSize ← idiv (getThreadTileSize mfmaMatrixType)
                   (getNumBlocks mfmaMatrixType);
    ld ← idiv leadingDim (getNumBlocks mfmaMatrixType);
    off ← GetRowColOffsetForCLoadStore (ws.1 * ws.2)%Z ld;
    let offsetMap := mkAffineMap 2 4 [AffineAdd d0 off.1; AffineAdd d1 off.2] in
    let storeAffineMap := storeMap op in
    composedMap ← compose (Some offsetMap) storeAffineMap;
    match storeValueType op with
    | VectorType _ valueElementType =>
        Normal (success,
          createMapOperands
          ++ [ ReplaceOpWithNewOp "loop" (AffineForOp 0 vecSize 1 []);
               Create loopBuilder "laneIndex" (IndexCastOp "inductionVar" I32);
               Create loopBuilder "mappedOperands"
                 (MultiDimAffineApply composedMap
                    (mapOperands storeAffineMap (storeIndices op) "inductionVar"));
               Create loopBuilder "elem"
                 (vector_ExtractElementOp "value" "laneIndex") ]
          ++ (if isF32 valueElementType && isF16 (getElementType mfmaMatrixType)
              then
                [ Create loopBuilder "castedElem"
                    (FPTruncOp "elem" (getElementType mfmaMatrixType));
                  Create loopBuilder ""
                    (memref_StoreOp "castedElem" "memref" "mappedOperands") ]
              else
                [ Create loopBuilder ""
                    (memref_StoreOp "elem" "memref" "mappedOperands") ]))
    | _ => Undefined
    end.

End ValueMFMAStoreOpToRocDLConversion.

Module ValueMFMAConstantOpToRocDLConversion.

Definition matchAndRewrite (op : MFMAConstantOp) : PatternResult :=
  let mfmaMatrixType := constantMatrixType op in
  if negb (isValidShape mfmaMatrixType) then
    Normal (failure, [NotifyMatchFailure "unhandled matrix shape"])
  else
    let vecSize := getThreadTileSize mfmaMatrixType in
    let vecTy := VectorType vecSize (getElementType mfmaMatrixType) in
    Normal (success, [ReplaceOpWithNewOp "" (vector_BroadcastOp vecTy "value")]).

End ValueMFMAConstantOpToRocDLConversion.

Module ValueMFMAComputeToRocDLConversion.

(** The constants created before the operand types are looked at. *)
Definition createConstants : list RewriteAction :=
  [ Create rewriter "cbsz" (ConstantOp I32 "cbsz");
    Create rewriter "abid" (ConstantOp I32 "abid");
    Create rewriter "blgp" (ConstantOp I32 "blgp") ].

(** For 16-bit inputs: gather [passIncrements] elements of each input
    into a small vector with an inner loop. *)
Definition gatherAB (inputType : MlirType) (passIncrements : Z)
  : list RewriteAction :=
  let vecTy := VectorType passIncrements inputType in
  [ Create loopBuilder "zero" (ConstantOp inputType "0");
    Create loopBuilder "vecA" (vector_BroadcastOp vecTy "zero");
    Create loopBuilder "vecB" (vector_BroadcastOp vecTy "zero");
    Create loopBuilder "loadAB"
      (AffineForOp 0 passIncrements 1 ["opA"; "opB"; "vecA"; "vecB"]);
    Create loadABbuilder "iElem" (IndexCastOp "loadAB.inductionVar" I32);
    Create loadABbuilder "pos" (AddIOp "iElem" "laneIndex");
    Create loadABbuilder "elemA" (vector_ExtractElementOp "loadAB.iterArgs[0]" "pos");
    Create loadABbuilder "vecA"
      (vector_InsertElementOp "elemA" "loadAB.iterArgs[2]" "iElem");
    Create loadABbuilder "elemB" (vector_ExtractElementOp "loadAB.iterArgs[1]" "pos");
    Create loadABbuilder "vecB"
      (vector_InsertElementOp "elemB" "loadAB.iterArgs[3]" "iElem");
    Create loadABbuilder "" (AffineYieldOp ["opA"; "opB"; "vecA"; "vecB"]) ].

(** One intrinsic, whose result the loop yields. *)
Definition yieldMfma (i : MfmaIntrinsic) (resultType : MlirType)
    (a b : Value) : list RewriteAction :=
  [ Create loopBuilder "mfma"
      (ROCDL_mfma i resultType [a; b; "matD"; "cbsz"; "abid"; "blgp"]);
    Create loopBuilder "" (AffineYieldOp ["mfma"]) ].

Definition matchAndRewrite (op : MFMAComputeOp) : PatternResult :=
  match opAType op with
  | VectorType _ inputType =>
      if negb (isaVectorType (opAType op)) then
        Normal (failure, createConstants
                  ++ [NotifyMatchFailure "expecting a vector type for OpA"])
      else if negb (isaVectorType (opBType op)) then
        Normal (failure, createConstants
                  ++ [NotifyMatchFailure "expecting a vector type for OpB"])
      else if negb (isaVectorType (opCType op)) then
        Normal (failure, createConstants
                  ++ [NotifyMatchFailure "expecting a vector type for OpC"])
      else
        let threadTileSize := getThreadTileSize (computeMatrixType op) in
        let passIncrements := (if isF16 inputType then 4 else 1)%Z in
        let resultType := opCType op in
        let loop :=
          createConstants
          ++ [ ReplaceOpWithNewOp "loop"
                 (AffineForOp 0 threadTileSize passIncrements ["result"]);
               Create loopBuilder "laneIndex" (IndexCastOp "inductionVar" I32) ] in
        if isF16 inputType then
          let loop := loop ++ gatherAB inputType passIncrements in
          match getShapeType (computeMatrixType op) with
          | Shape.T4x16x64 =>
              Normal (success,
                loop ++ yieldMfma mfma_f32_16x16x4f16 resultType "vecA" "vecB")
          | Shape.T2x32x64 =>
              Normal (success,
                loop ++ yieldMfma mfma_f32_32x32x4f16 resultType "vecA" "vecB")
          | Shape.T4x4x32 =>
              Normal (success,
                loop ++ yieldMfma mfma_f32_32x32x8f16 resultType "vecA" "vecB")
          | Shape.T2x2x16 =>
              Normal (success,
                loop ++ yieldMfma mfma_f32_16x16x16f16 resultType "vecA" "vecB")
          | _ => Normal (failure, loop)
          end
        else if isF32 inputType then
          let loop :=
            loop ++ [ Create loopBuilder "elemA"
                        (vector_ExtractElementOp "opA" "laneIndex");
                      Create loopBuilder "elemB"
                        (vector_ExtractElementOp "opB" "laneIndex") ] in
          match getShapeType (computeMatrixType op) with
          | Shape.T4x16x64 =>
              Normal (success,
                loop ++ yieldMfma mfma_f32_16x16x1f32 resultType "elemA" "elemB")
          | Shape.T2x32x64 =>
              Normal (success,
                loop ++ yieldMfma mfma_f32_32x32x1f32 resultType "elemA" "elemB")
          | Shape.T4x4x32 =>
              Normal (success,
                loop ++ yieldMfma mfma_f32_32x32x2f32 resultType "elemA" "elemB")
          | Shape.T2x2x16 =>
              Normal (success,
                loop ++ yieldMfma mfma_f32_16x16x4f32 resultType "elemA" "elemB")
          | _ => Normal (failure, loop)
          end
        else Normal (failure, loop)
  | _ => Undefined
  end.

End ValueMFMAComputeToRocDLConversion.

(** The induction values of [affine.for %i = lb to ub step s]. *)
Fixpoint forRange (fuel : nat) (i ub step : Z) : list Z :=
  match fuel with
  | O => []
  | S fuel => if (i <? ub)%Z then i :: forRange fuel (i + step) ub step else []
  end.

Definition inductionValues (lb ub step : Z) : list Z :=
  forRange (Z.to_nat (ub - lb)) lb ub step.

Definition tripCount (lb ub step : Z) : nat := length (inductionValues lb ub step).

(** The loop a lowering replaces the operation with. *)
Definition replacementLoop (t : list RewriteAction) : list (Z * Z * Z) :=
  omap (λ a, match a with
             | ReplaceOpWithNewOp _ (AffineForOp lb ub step _) => Some (lb, ub, step)
             | _ => None
             end) t.

(** The intrinsics in the body of that loop. *)
Definition intrinsicsInLoopBody (t : list RewriteAction) : list MfmaIntrinsic :=
  omap (λ a, match a with
             | Create loopBuilder _ (ROCDL_mfma i _ _) => Some i
             | _ => None
             end) t.

(** The four CUDA-class patterns for fragments. *)
Module ValueMFMAStoreOpToGPUConversion.
Definition matchAndRewrite (op : MFMAStoreOp) : PatternResult :=
  Normal (success, []).
End ValueMFMAStoreOpToGPUConversion.

Module ValueMFMALoadOpToGPUConversion.
Definition matchAndRewrite (op : MFMALoadOp) : PatternResult :=
  Normal (success, [EraseOp]).
End ValueMFMALoadOpToGPUConversion.

Module ValueMFMAConstantOpToGPUConversion.
Definition matchAndRewrite (op : MFMAConstantOp) : PatternResult :=
  Normal (success, [EraseOp]).
End ValueMFMAConstantOpToGPUConversion.

Module ValueMFMAComputeToGPUConversion.
Definition matchAndRewrite (op : MFMAComputeOp) : PatternResult :=
  Normal (success,
    [ReplaceOpWithNewOp ""
       (gpu_SubgroupMmaComputeOp (opCType op) ["opA"; "opB"; "opC"]
          ["cbsz"; "abid"; "blgp"])]).
End ValueMFMAComputeToGPUConversion.

(** ** Attributes and enclosing operations *)

Inductive Attribute :=
  | UnitAttr
  | IntegerAttr (value : Z)
  | ArrayAttr (elements : list Attribute)
  | ExecutionRuntimeAttr (runtime : ExecutionRuntime.t)
  | ExecutionTargetGPUAttr
  | OtherAttr (text : string).

Inductive ParentKind :=
  | FuncOpKind | GPUFuncOpKind | GPUModuleOpKind | ModuleOpKind
  | OtherParentKind (name : string).

Global Instance ParentKind_eq_dec : EqDecision ParentKind.
Proof. solve_decision. Defined.

(** An operation that encloses the one at hand, with its attributes. *)
Record ParentOp := mkParentOp {
  parentKind : ParentKind;
  parentAttrs : gmap string Attribute
}.

(** [op->getParentOfType<T>()]: the nearest enclosing operation that is a
    [T]; [parents] lists the enclosing operations, nearest first. *)
Definition getParentOfType (T : ParentKind) (parents : list ParentOp)
  : option ParentOp :=
  snd <$> list_find (λ p, parentKind p = T) parents.

(** [getAttrOfType<ArrayAttr>(name)]. *)
Definition getArrayAttr (attrs : gmap string Attribute) (name : string)
  : option (list Attribute) :=
  match attrs !! name with
  | Some (ArrayAttr l) => Some l
  | _ => None
  end.

Definition dimIndexToInteger (dim : string) : Z :=
  if String.eqb dim "x" then 0
  else if String.eqb dim "y" then 1
  else if String.eqb dim "z" then 2
  else -1.

(** [attr.cast<IntegerAttr>().getInt()]. *)
Definition getInt (a : Attribute) : Exec Z :=
  match a with IntegerAttr v => Normal v | _ => Undefined end.

Module ResolveBlockDimPattern.

Definition matchAndRewrite (parents : list ParentOp) (dimension : string)
  : PatternResult :=
  match getParentOfType GPUFuncOpKind parents with
  | None => Normal (failure, [])
  | Some gpuFunc =>
      let blockSizeAttr := getArrayAttr (parentAttrs gpuFunc) "blockSize" in
      let blockDimIdx := dimIndexToInteger dimension in
      match blockSizeAttr with
      | Some elements =>
          if (blockDimIdx =? -1)%Z then Normal (failure, [])
          else
            a ← value (elements !! Z.to_nat blockDimIdx);
            val ← getInt a;
            Normal (success, [ReplaceOpWithNewOp "" (ConstantIndexOp val)])
      | None => Normal (failure, [])
      end
  end.

End ResolveBlockDimPattern.

(** ** The conversion pipelines *)

Module Pattern.
Inductive t :=
  | EarlyReturnToSPIRVReturnPattern
  | ValueBarrierToSPIRVBarrierConversion
  | PrivateAllocToSPIRVConversion
  | PrivateDeallocToSPIRVConversion
  | ResolveBlockDimPattern
  | EarlyReturnToGPUReturnPattern
  | ValueBarrierToGPUBarrierConversion
  | ValueMFMALoadOpToRocDLConversion
  | ValueMFMAComputeToRocDLConversion
  | ValueMFMAStoreOpToRocDLConversion
  | ValueMFMAConstantOpToRocDLConversion
  | ValueMFMALoadOpToGPUConversion
  | ValueMFMAComputeToGPUConversion
  | ValueMFMAStoreOpToGPUConversion
  | ValueMFMAConstantOpToGPUConversion.
End Pattern.

Definition populateAcceraToSPIRVPatterns : list Pattern.t :=
  [ Pattern.EarlyReturnToSPIRVReturnPattern;
    Pattern.ValueBarrierToSPIRVBarrierConversion;
    Pattern.PrivateAllocToSPIRVConversion;
    Pattern.PrivateDeallocToSPIRVConversion ].

Definition populateAcceraToROCDLPatterns : list Pattern.t :=
  [ Pattern.ResolveBlockDimPattern;
    Pattern.EarlyReturnToGPUReturnPattern;
    Pattern.ValueBarrierToGPUBarrierConversion;
    Pattern.ValueMFMALoadOpToRocDLConversion;
    Pattern.ValueMFMAComputeToRocDLConversion;
    Pattern.ValueMFMAStoreOpToRocDLConversion;
    Pattern.ValueMFMAConstantOpToRocDLConversion ].

Definition populateAcceraToNVVMPatterns : list Pattern.t :=
  [ Pattern.ResolveBlockDimPattern;
    Pattern.EarlyReturnToGPUReturnPattern;
    Pattern.ValueBarrierToGPUBarrierConversion;
    Pattern.ValueMFMALoadOpToGPUConversion;
    Pattern.ValueMFMAComputeToGPUConversion;
    Pattern.ValueMFMAStoreOpToGPUConversion;
    Pattern.ValueMFMAConstantOpToGPUConversion ].

(** The patterns a pass converts with. *)
Definition patternsOf (p : Pass) : list Pattern.t :=
  match p with
  | AcceraToSPIRVPass => populateAcceraToSPIRVPatterns
  | AcceraToROCDLPass => populateAcceraToROCDLPatterns
  | AcceraToNVVMPass => populateAcceraToNVVMPatterns
  end.

(** The operations of the source dialects that the patterns above root at. *)
Inductive SourceOp :=
  | src_BarrierOp (scope : BarrierScope.t)
  | src_MFMALoadOp (op : MFMALoadOp)
  | src_MFMAStoreOp (op : MFMAStoreOp)
  | src_MFMAConstantOp (op : MFMAConstantOp)
  | src_MFMAComputeOp (op : MFMAComputeOp)
  | src_BlockDimOp (parents : list ParentOp) (dimension : string).

(** A pattern applies to the operations of the type it is declared for;
    [None] for the others. *)
Definition applyPattern (p : Pattern.t) (op : SourceOp) : option PatternResult :=
  match p, op with
  | Pattern.ValueBarrierToSPIRVBarrierConversion, src_BarrierOp scope =>
      Some (ValueBarrierToSPIRVBarrierConversion.matchAndRewrite scope)
  | Pattern.ValueBarrierToGPUBarrierConversion, src_BarrierOp scope =>
      Some (ValueBarrierToGPUBarrierConversion.matchAndRewrite scope)
  | Pattern.ResolveBlockDimPattern, src_BlockDimOp parents dimension =>
      Some (ResolveBlockDimPattern.matchAndRewrite parents dimension)
  | Pattern.ValueMFMALoadOpToRocDLConversion, src_MFMALoadOp o =>
      Some (ValueMFMALoadOpToRocDLConversion.matchAndRewrite o)
  | Pattern.ValueMFMAComputeToRocDLConversion, src_MFMAComputeOp o =>
      Some (ValueMFMAComputeToRocDLConversion.matchAndRewrite o)
  | Pattern.ValueMFMAStoreOpToRocDLConversion, src_MFMAStoreOp o =>
      Some (ValueMFMAStoreOpToRocDLConversion.matchAndRewrite o)
  | Pattern.ValueMFMAConstantOpToRocDLConversion, src_MFMAConstantOp o =>
      Some (ValueMFMAConstantOpToRocDLConversion.matchAndRewrite o)
  | Pattern.ValueMFMALoadOpToGPUConversion, src_MFMALoadOp o =>
      Some (ValueMFMALoadOpToGPUConversion.matchAndRewrite o)
  | Pattern.ValueMFMAComputeToGPUConversion, src_MFMAComputeOp o =>
      Some (ValueMFMAComputeToGPUConversion.matchAndRewrite o)
  | Pattern.ValueMFMAStoreOpToGPUConversion, src_MFMAStoreOp o =>
      Some (ValueMFMAStoreOpToGPUConversion.matchAndRewrite o)
  | Pattern.ValueMFMAConstantOpToGPUConversion, src_MFMAConstantOp o =>
      Some (ValueMFMAConstantOpToGPUConversion.matchAndRewrite o)
  | _, _ => None
  end.

(** What the patterns of a pass do to an operation, one entry for each
    pattern that applies to it. *)
Definition lower (p : Pass) (op : SourceOp) : list PatternResult :=
  omap (λ pat, applyPattern pat op) (patternsOf p).

(** ** Thread and block queries of the C++ printer *)

Module GpuDialectCppPrinter.

(** What the printer has around it: whether the CUDA runtime is set in its
    state, the name the name state gives to a result for a prefix, and what
    printing the index type yields. *)
Record Printer := mkPrinter {
  hasRuntimeCUDA : bool;
  getOrCreateName : string → string;
  printIndexType : LogicalResult * string
}.

(** Modelled from the spec: [utilir::ArrayAttrToVector<IntegerAttr>]
    (IRUtil.h) is not among the sources; it casts every element of the
    array to an integer attribute. *)
Fixpoint ArrayAttrToVector (l : list Attribute) : Exec (list Z) :=
  match l with
  | [] => Normal []
  | a :: l => v ← getInt a; vs ← ArrayAttrToVector l; Normal (v :: vs)
  end.

(** [int64_t] to [uint64_t]. *)
Definition toUInt64 (v : Z) : Z := (v mod 2 ^ 64)%Z.

Definition getSizeAttr (name : string) (parents : list ParentOp)
    (dim : string) : Exec (option Z) :=
  match getParentOfType FuncOpKind parents with
  | Some fn =>
      match getArrayAttr (parentAttrs fn) name with
      | None => Normal None
      | Some elements =>
          arrayAttr ← ArrayAttrToVector elements;
          let idx := dimIndexToInteger dim in
          if (idx =? -1)%Z then Normal None
          else
            v ← value (arrayAttr !! Z.to_nat idx);
            Normal (Some (toUInt64 v))
      end
  | None => Normal None
  end.

Definition getGridDim := getSizeAttr "gridSize".
Definition getBlockDim := getSizeAttr "blockSize".

Definition printGPUIndexType (P : Printer) (os : string)
  : LogicalResult * string :=
  ((printIndexType P).1, os +:+ "const " +:+ (printIndexType P).2).

(** The four queries differ in the register they read, in the size
    attribute they consult and in whether they wrap the register in a
    modulo ([printOp(ThreadIdOp)], [printOp(BlockIdOp)]) or print the size
    itself ([printOp(BlockDimOp)], [printOp(GridDimOp)]). *)
Definition printQuery (register varPrefix : string) (wrap : bool)
    (getDim : list ParentOp → string → Exec (option Z))
    (P : Printer) (parents : list ParentOp) (dimension : string) (os : string)
  : Exec (LogicalResult * string) :=
  if negb (hasRuntimeCUDA P) then Normal (failure, os)
  else
    let idx := getOrCreateName P (varPrefix +:+ dimension +:+ "_") in
    let '(r, os) := printGPUIndexType P os in
    match r with
    | failure => Normal (failure, os)
    | success =>
        let os := os +:+ " " +:+ idx +:+ " = " in
        c ← getDim parents dimension;
        match c with
        | Some c =>
            if wrap then
              Normal (success,
                os +:+ "(" +:+ register +:+ "." +:+ dimension +:+ "%"
                   +:+ pretty c +:+ ")")
            else Normal (success, os +:+ pretty c)
        | None => Normal (success, os +:+ register +:+ "." +:+ dimension)
        end
    end.

Definition printOp_GridDimOp := printQuery "gridDim" "gridDim_" false getGridDim.
Definition printOp_BlockDimOp := printQuery "blockDim" "blockDim_" false getBlockDim.
Definition printOp_BlockIdOp := printQuery "blockIdx" "blockIdx_" true getGridDim.
Definition printOp_ThreadIdOp := printQuery "threadIdx" "threadIdx_" true getBlockDim.

End GpuDialectCppPrinter.

(** ** CreateDeviceFuncLauncherPairPattern *)

Record SymbolRefAttr := mkSymbolRefAttr {
  getRootReference : string;
  getNestedReferences : list string
}.

Inductive BodyOp :=
  | CallOp (callee : string)
  | LaunchFuncOp (kernel : SymbolRefAttr)
  | TerminatorOp (name : string)
  | OtherBodyOp (name : string).

Definition isTerminator (o : BodyOp) : bool :=
  match o with TerminatorOp _ => true | _ => false end.

Record FuncOp := mkFuncOp {
  funcName : string;
  funcAttrs : gmap string Attribute;
  funcBlocks : list (list BodyOp)
}.

Record GPUFuncOp := mkGPUFuncOp {
  gpuFuncName : string;
  gpuFuncAttrs : gmap string Attribute
}.

(** The symbols of a [gpu.module] and of the top-level module. *)
Inductive GPUModuleItem :=
  | GPUFunc (f : GPUFuncOp)
  | OtherGPUSymbol (name : string).

Inductive ModuleItem :=
  | Func (f : FuncOp)
  | GPUModule (name : string) (items : list GPUModuleItem)
  | OtherSymbol (name : string).

Definition gpuItemName (it : GPUModuleItem) : string :=
  match it with GPUFunc f => gpuFuncName f | OtherGPUSymbol n => n end.

Definition itemName (it : ModuleItem) : string :=
  match it with Func f => funcName f | GPUModule n _ => n | OtherSymbol n => n end.

(** [SymbolTable::lookupSymbolIn]: the position and the operation of the
    symbol of that name. *)
Definition lookupSymbolIn {A} (name : A → string) (table : list A) (sym : string)
  : option (nat * A) :=
  list_find (λ it, name it = sym) table.

(** [dyn_cast_or_null<gpu::GPUFuncOp>(lookupNearestSymbolFrom(fn, kernel))]
    from a function of the top-level module: the root names a symbol of the
    module, the nested reference a symbol of that [gpu.module]. *)
Definition lookupKernel (m : list ModuleItem) (kernel : SymbolRefAttr)
  : option (nat * nat * GPUFuncOp) :=
  match lookupSymbolIn itemName m (getRootReference kernel),
        getNestedReferences kernel with
  | Some (g, GPUModule _ items), [leaf] =>
      match lookupSymbolIn gpuItemName items leaf with
      | Some (k, GPUFunc f) => Some (g, k, f)
      | _ => None
      end
  | _, _ => None
  end.

(** In-place updates through the pointers the pattern holds. *)
Definition updateGPUFunc (f : GPUFuncOp → GPUFuncOp) (g k : nat)
    (m : list ModuleItem) : list ModuleItem :=
  match m !! g with
  | Some (GPUModule n items) =>
      match items !! k with
      | Some (GPUFunc fn) => <[g := GPUModule n (<[k := GPUFunc (f fn)]> items)]> m
      | _ => m
      end
  | _ => m
  end.

Definition updateFunc (f : FuncOp → FuncOp) (i : nat) (m : list ModuleItem)
  : list ModuleItem :=
  match m !! i with
  | Some (Func fn) => <[i := Func (f fn)]> m
  | _ => m
  end.

Definition setFrontOp (j : nat) (o : BodyOp) (fn : FuncOp) : FuncOp :=
  match funcBlocks fn with
  | front :: rest => mkFuncOp (funcName fn) (funcAttrs fn) (<[j := o]> front :: rest)
  | [] => fn
  end.

Definition setFuncAttr (name : string) (a : Attribute) (fn : FuncOp) : FuncOp :=
  mkFuncOp (funcName fn) (<[name := a]> (funcAttrs fn)) (funcBlocks fn).

Definition setGPUFuncAttr (name : string) (a : Attribute) (fn : GPUFuncOp)
  : GPUFuncOp :=
  mkGPUFuncOp (gpuFuncName fn) (<[name := a]> (gpuFuncAttrs fn)).

Definition setGPUFuncName (name : string) (fn : GPUFuncOp) : GPUFuncOp :=
  mkGPUFuncOp name (gpuFuncAttrs fn).

Module CreateDeviceFuncLauncherPairPattern.
Section AttrNames.

(** The attribute names [ir::HeaderDeclAttrName],
  [ir::RawPointerAPIAttrName], [ValueModuleOp::getExecRuntimeAttrName()]
  and [ValueFuncOp::getExecTargetAttrName()] are declared outside the
  sources at hand. *)
Variables HeaderDeclAttrName RawPointerAPIAttrName : string.
Variables ExecRuntimeAttrName ExecTargetAttrName : string.

(** The pattern matches functions only: [None] when position [h] of the
  module holds none. *)
Definition matchAndRewrite (_target : ExecutionRuntime.t)
  (m : list ModuleItem) (h : nat)
: option (Exec (LogicalResult * list ModuleItem)) :=
match m !! h with
| Some (Func op) => Some (
    if negb (bool_decide (is_Some (funcAttrs op !! HeaderDeclAttrName)))
       || negb (bool_decide (is_Some (funcAttrs op !! RawPointerAPIAttrName)))
    then Normal (failure, m)
    else
      front ← value (head (funcBlocks op));
      _ ← value (last front);
      match removelast front with
      | [CallOp callee] =>
          match lookupSymbolIn itemName m callee with
          | Some (c, Func calleeFnOp) =>
              calleeFront ← value (head (funcBlocks calleeFnOp));
              back ← value (last calleeFront);
              if negb (isTerminator back) then Undefined
              else
                launch ← value (last (removelast calleeFront));
                match launch with
                | LaunchFuncOp kernel =>
                    match lookupKernel m kernel with
                    | Some (g, k, launchedGPUFnOp) =>
                        let gpuTargetFuncName := funcName op +:+ "__gpu__" in
                        match m !! g with
                        | Some (GPUModule _ items) =>
                            if bool_decide (is_Some
                                 (lookupSymbolIn gpuItemName items gpuTargetFuncName))
                            then Normal (failure, m)
                            else
                              let execRuntimeAttr := ExecutionRuntimeAttr _target in
                              let execTargetAttr := ExecutionTargetGPUAttr in
                              let m :=
                                updateGPUFunc
                                  (setGPUFuncName gpuTargetFuncName
                                   ∘ setGPUFuncAttr RawPointerAPIAttrName UnitAttr
                                   ∘ setGPUFuncAttr HeaderDeclAttrName UnitAttr
                                   ∘ setGPUFuncAttr ExecTargetAttrName execTargetAttr
                                   ∘ setGPUFuncAttr ExecRuntimeAttrName execRuntimeAttr)
                                  g k m in
                              let root := getRootReference kernel in
                              let m :=
                                updateFunc
                                  (setFrontOp (length calleeFront - 2)
                                     (LaunchFuncOp
                                        (mkSymbolRefAttr root [gpuTargetFuncName])))
                                  c m in
                              let m :=
                                updateFunc
                                  (setFuncAttr ExecRuntimeAttrName execRuntimeAttr)
                                  h m in
                              Normal (success, m)
                        | _ => Normal (failure, m)
                        end
                    | None => Normal (failure, m)
                    end
                | _ => Normal (failure, m)
                end
          | _ => Normal (failure, m)
          end
      | _ => Normal (failure, m)
      end)
| _ => None
end.

End AttrNames.
End CreateDeviceFuncLauncherPairPattern.

(** ** The value of an affine map *)

(** The value that MLIR gives an affine expression at the dimension values
    [dims] and the symbol values [syms]: [mod] and [floordiv] have a value
    for a positive right-hand side, where the remainder is not negative and
    the quotient is rounded towards minus infinity.  A position past the
    operands has no value. *)
Fixpoint evalExpr (dims syms : list Z) (e : AffineExpr) : option Z :=
  match e with
  | AffineDimExpr i => dims !! i
  | AffineSymbolExpr i => syms !! i
  | AffineConstantExpr v => Some v
  | AffineAdd a b =>
      x ← evalExpr dims syms a; y ← evalExpr dims syms b; Some (x + y)%Z
  | AffineMul a b =>
      x ← evalExpr dims syms a; y ← evalExpr dims syms b; Some (x * y)%Z
  | AffineMod a b =>
      x ← evalExpr dims syms a; y ← evalExpr dims syms b;
      if (0 <? y)%Z then Some (x mod y)%Z else None
  | AffineFloorDiv a b =>
      x ← evalExpr dims syms a; y ← evalExpr dims syms b;
      if (0 <? y)%Z then Some (x / y)%Z else None
  end.

(** The values of the results of a map at its operands: the dimension
    operands come first, the symbol operands after them. *)
Definition evalMap (m : AffineMap) (operands : list Z) : option (list Z) :=
  mapM (evalExpr (take (getNumDims m) operands) (drop (getNumDims m) operands))
       (getResults m).

(** Every dimension that [e] names is below [nd], every symbol below
    [ns], as the verifier of an affine map has it. *)
Fixpoint wfExpr (nd ns : nat) (e : AffineExpr) : bool :=
  match e with
  | AffineDimExpr i => bool_decide (i < nd)
  | AffineSymbolExpr i => bool_decide (i < ns)
  | AffineConstantExpr _ => true
  | AffineAdd a b | AffineMul a b | AffineMod a b | AffineFloorDiv a b =>
      wfExpr nd ns a && wfExpr nd ns b
  end.

(** The maps that a rewrite applies, each with its operands, in program
    order. *)
Definition appliedMaps (t : list RewriteAction) : list (AffineMap * list Value) :=
  omap (λ a, match a with
             | Create _ _ (MultiDimAffineApply m ops) => Some (m, ops)
             | _ => None
             end) t.


(** ** The module without its barriers *)

(** An operation without the barrier operations in its regions, and a
    block without its barrier operations, at any depth: what hoisting is
    compared on. *)
Fixpoint stripBarriers (o : Operation) : Operation :=
  match o with
  | mkOp n bs =>
      mkOp n (List.map
                (λ B, filter (λ o', isBarrierOp (opName o') = false)
                        (List.map stripBarriers B)) bs)
  end.

Definition stripBlock (B : OpBlock) : OpBlock :=
  filter (λ o, isBarrierOp (opName o) = false) (List.map stripBarriers B).


(** ** The three passes *)

Global Instance ExecutionRuntime_eq_dec : EqDecision ExecutionRuntime.t.
Proof. solve_decision. Defined.

(** [getGPURuntimeTarget(op)] is [utilir::ResolveExecutionRuntime(op)],
    which is not among the sources: [resolved] is what it returns for the
    module. *)
Definition hasRuntimeTarget (Runtime : ExecutionRuntime.t)
    (resolved : option ExecutionRuntime.t) : bool :=
  let runtime := default ExecutionRuntime.NONE resolved in
  bool_decide (runtime = Runtime).

(** The patterns of the greedy pre-passes. *)
Module RewritePattern.
Inductive t :=
  | ConditionalBarrierHoistingPattern
  | CreateDeviceFuncLauncherPairPattern (targetRuntime : ExecutionRuntime.t).
End RewritePattern.

(** [populateGPUSimplificationPatterns]. *)
Definition populateGPUSimplificationPatterns : list RewritePattern.t :=
  [ RewritePattern.ConditionalBarrierHoistingPattern ].

(** The operation types and dialects that the conversion targets name. *)
Module OpKind.
Inductive t :=
  | ModuleOp | EarlyReturnOp | MFMAComputeOp | MFMAConstantOp | MFMALoadOp
  | MFMAStoreOp | BarrierOp | BlockDimOp | AllocOp | DeallocOp.
End OpKind.

Global Instance OpKind_eq_dec : EqDecision OpKind.t.
Proof. solve_decision. Defined.

Module Dialect.
Inductive t :=
  | AffineDialect | BuiltinDialect | GPUDialect | MemRefDialect | ROCDLDialect
  | NVVMDialect | SCFDialect | StandardOpsDialect | VectorDialect
  | OpenMPDialect | ValueDialect.
End Dialect.

Record ConversionTarget := mkConversionTarget {
  legalOps : list OpKind.t;
  illegalOps : list OpKind.t;
  legalDialects : list Dialect.t
}.

(** The operation types that the ROCDL and the NVVM targets declare
    illegal. *)
Definition illegalFragmentAndQueryOps : list OpKind.t :=
  [ OpKind.EarlyReturnOp; OpKind.MFMAComputeOp; OpKind.MFMAConstantOp;
    OpKind.MFMALoadOp; OpKind.MFMAStoreOp; OpKind.BarrierOp; OpKind.BlockDimOp ].

(** The target that [AcceraToROCDLPass::runOnOperation] builds. *)
Definition rocdlTarget : ConversionTarget :=
  mkConversionTarget [OpKind.ModuleOp] illegalFragmentAndQueryOps
    [ Dialect.AffineDialect; Dialect.BuiltinDialect; Dialect.GPUDialect;
      Dialect.MemRefDialect; Dialect.ROCDLDialect; Dialect.SCFDialect;
      Dialect.StandardOpsDialect; Dialect.VectorDialect; Dialect.OpenMPDialect;
      Dialect.ValueDialect ].

(** The target that [AcceraToNVVMPass::runOnOperation] builds. *)
Definition nvvmTarget : ConversionTarget :=
  mkConversionTarget [OpKind.ModuleOp] illegalFragmentAndQueryOps
    [ Dialect.AffineDialect; Dialect.BuiltinDialect; Dialect.GPUDialect;
      Dialect.MemRefDialect; Dialect.NVVMDialect; Dialect.SCFDialect;
      Dialect.StandardOpsDialect; Dialect.VectorDialect; Dialect.OpenMPDialect;
      Dialect.ValueDialect ].

(** The operation type a conversion pattern is declared for. *)
Definition rootOp (p : Pattern.t) : OpKind.t :=
  match p with
  | Pattern.EarlyReturnToSPIRVReturnPattern => OpKind.EarlyReturnOp
  | Pattern.ValueBarrierToSPIRVBarrierConversion => OpKind.BarrierOp
  | Pattern.PrivateAllocToSPIRVConversion => OpKind.AllocOp
  | Pattern.PrivateDeallocToSPIRVConversion => OpKind.DeallocOp
  | Pattern.ResolveBlockDimPattern => OpKind.BlockDimOp
  | Pattern.EarlyReturnToGPUReturnPattern => OpKind.EarlyReturnOp
  | Pattern.ValueBarrierToGPUBarrierConversion => OpKind.BarrierOp
  | Pattern.ValueMFMALoadOpToRocDLConversion => OpKind.MFMALoadOp
  | Pattern.ValueMFMAComputeToRocDLConversion => OpKind.MFMAComputeOp
  | Pattern.ValueMFMAStoreOpToRocDLConversion => OpKind.MFMAStoreOp
  | Pattern.ValueMFMAConstantOpToRocDLConversion => OpKind.MFMAConstantOp
  | Pattern.ValueMFMALoadOpToGPUConversion => OpKind.MFMALoadOp
  | Pattern.ValueMFMAComputeToGPUConversion => OpKind.MFMAComputeOp
  | Pattern.ValueMFMAStoreOpToGPUConversion => OpKind.MFMAStoreOp
  | Pattern.ValueMFMAConstantOpToGPUConversion => OpKind.MFMAConstantOp
  end.

(** The operation type of a source operation. *)
Definition kindOf (op : SourceOp) : OpKind.t :=
  match op with
  | src_BarrierOp _ => OpKind.BarrierOp
  | src_MFMALoadOp _ => OpKind.MFMALoadOp
  | src_MFMAStoreOp _ => OpKind.MFMAStoreOp
  | src_MFMAConstantOp _ => OpKind.MFMAConstantOp
  | src_MFMAComputeOp _ => OpKind.MFMAComputeOp
  | src_BlockDimOp _ _ => OpKind.BlockDimOp
  end.

(** What [runOnOperation] does to the module, in program order.  A
    conversion target is [None] when it comes from the SPIR-V library;
    [libraryPatterns] names the pattern sets of MLIR that are added. *)
Inductive PassStep :=
  | applyPatternsAndFoldGreedily (patterns : list RewritePattern.t)
  | cloneKernelModules
  | applyFullConversion (target : option ConversionTarget)
      (patterns : list Pattern.t) (libraryPatterns : list string).

(** [failed(r)]. *)
Definition failed (r : LogicalResult) : bool :=
  match r with failure => true | success => false end.

(** [resolved] is the runtime of the module, [conversion] the result of
    [applyFullConversion]; the second component tells whether the pass
    signals failure. *)
Definition runOnOperation (p : Pass) (resolved : option ExecutionRuntime.t)
    (conversion : LogicalResult) : list PassStep * bool :=
  match p with
  | AcceraToSPIRVPass =>
      if negb (hasRuntimeTarget ExecutionRuntime.VULKAN resolved) then ([], false)
      else
        ([ applyPatternsAndFoldGreedily populateGPUSimplificationPatterns;
           cloneKernelModules;
           applyFullConversion None populateAcceraToSPIRVPatterns
             ["GPUToSPIRV"; "SCFToSPIRV"; "StandardToSPIRV"] ],
         failed conversion)
  | AcceraToROCDLPass =>
      if negb (hasRuntimeTarget ExecutionRuntime.ROCM resolved) then ([], false)
      else
        ([ applyPatternsAndFoldGreedily populateGPUSimplificationPatterns;
           applyPatternsAndFoldGreedily
             [RewritePattern.CreateDeviceFuncLauncherPairPattern ExecutionRuntime.ROCM];
           applyFullConversion (Some rocdlTarget) populateAcceraToROCDLPatterns [] ],
         failed conversion)
  | AcceraToNVVMPass =>
      if negb (hasRuntimeTarget ExecutionRuntime.CUDA resolved) then ([], false)
      else
        ([ applyPatternsAndFoldGreedily populateGPUSimplificationPatterns;
           applyPatternsAndFoldGreedily
             [RewritePattern.CreateDeviceFuncLauncherPairPattern ExecutionRuntime.CUDA];
           applyFullConversion (Some nvvmTarget) populateAcceraToNVVMPatterns [] ],
         failed conversion)
  end.

(** The conversion target of a pass, where the pass builds it itself. *)
Definition targetOf (p : Pass) : option ConversionTarget :=
  match p with
  | AcceraToSPIRVPass => None
  | AcceraToROCDLPass => Some rocdlTarget
  | AcceraToNVVMPass => Some nvvmTarget
  end.

(** ** The rest of the GPU dialect printer *)

(** The line feed and the double quote, as strings. *)
Definition newline : string := String (Ascii.ascii_of_nat 10) EmptyString.
Definition dquote : string := String (Ascii.ascii_of_nat 34) EmptyString.

(** The two runtimes of the printer's state that this file names
    ([Runtime] of CppPrinter.h). *)
Module PrinterRuntime.
Inductive t := CUDA | ROCM.
End PrinterRuntime.

(** The loop of [runPrePrintingPasses] over the detected [gpu.module]s,
    each given by what [ResolveExecutionRuntime] finds for it; [calls] are
    the calls of [state.setRuntime] made so far, in order. *)
Fixpoint detectRuntimes (_gpuModuleOps : list (option ExecutionRuntime.t))
    (calls : list PrinterRuntime.t) : LogicalResult * list PrinterRuntime.t :=
  match _gpuModuleOps with
  | [] => (success, calls)
  | execRuntime :: rest =>
      match execRuntime with
      | None => (failure, calls)
      | Some ExecutionRuntime.ROCM =>
          detectRuntimes rest (calls ++ [PrinterRuntime.ROCM; PrinterRuntime.CUDA])
      | Some ExecutionRuntime.CUDA =>
          detectRuntimes rest (calls ++ [PrinterRuntime.CUDA])
      | Some _ => (failure, calls)
      end
  end.

(** [op] is [Some potentialGpuOps] for a [ModuleOp], with the [gpu.module]s
    of its region, and [None] for any other operation.  The result, the
    calls of [state.setRuntime] and the new value of [_gpuModuleOps]. *)
Definition runPrePrintingPasses (op : option (list (option ExecutionRuntime.t)))
    (_gpuModuleOps : list (option ExecutionRuntime.t))
  : LogicalResult * list PrinterRuntime.t * list (option ExecutionRuntime.t) :=
  let _gpuModuleOps :=
    match op with
    | Some potentialGpuOps =>
        if bool_decide (potentialGpuOps = []) then _gpuModuleOps
        else potentialGpuOps
    | None => _gpuModuleOps
    end in
  (detectRuntimes _gpuModuleOps [], _gpuModuleOps).

(** [printOp(BarrierOp)]. *)
Definition printOp_BarrierOp (P : GpuDialectCppPrinter.Printer) (os : string)
  : Exec (LogicalResult * string) :=
  if negb (GpuDialectCppPrinter.hasRuntimeCUDA P) then Normal (failure, os)
  else Normal (success, os +:+ "__syncthreads()").

(** A vector type: its shape and its element type; a dynamic dimension is
    -1. *)
Record VectorShape := mkVectorShape {
  getShape : list Z;
  vectorElementType : MlirType
}.

(** [getNumDynamicDims()] and [getRank()] of a shaped type. *)
Definition getNumDynamicDims (v : VectorShape) : nat :=
  length (filter (λ d, d = (-1)%Z) (getShape v)).

Definition getRank (v : VectorShape) : nat := length (getShape v).

(** The members of [CppPrinter] that the two vector printers call:
    [printType], by its result and the text it writes, and
    [floatVecT<32>]. *)
Record TypePrinter := mkTypePrinter {
  printType : MlirType → LogicalResult * string;
  floatVecT32 : Z → string
}.

(** [printGpuFPVectorType]: the last dimension becomes the vector type, the
    dimensions before it an array of it. *)
Definition printGpuFPVectorType (printer : TypePrinter) (vecType : VectorShape)
    (vecVar : string) (os : string) : Exec (LogicalResult * string) :=
  if negb (getNumDynamicDims vecType =? 0) then
    Normal (failure,
            os +:+ "<<VectorType with dynamic dims is not supported yet>>")
  else
    let rank := getRank vecType in
    if rank =? 0 then
      Normal (failure, os +:+ "<<zero-ranked Vectortype is not supported yet>>")
    else
      let shape := getShape vecType in
      lastDim ← value (shape !! (rank - 1));
      if negb (Z.rem lastDim 2 =? 0)%Z then
        Normal (failure,
                os +:+ "<<can't be represented by "
                   +:+ floatVecT32 printer lastDim
                   +:+ " as it is not a multiple of 2>>")
      else
        let '(r, text) :=
          printType printer (VectorType lastDim (vectorElementType vecType)) in
        let os := os +:+ text in
        if failed r then Normal (failure, os)
        else
          let os := os +:+ " " +:+ vecVar in
          Normal (success,
                  fold_left (λ os d, os +:+ "[" +:+ pretty d +:+ "]")
                    (take (rank - 1) shape) os).

(** [printVectorTypeArrayDecl] asserts that the CUDA runtime is set. *)
Definition printVectorTypeArrayDecl (P : GpuDialectCppPrinter.Printer)
    (printer : TypePrinter) (vecType : VectorShape) (vecVar : string)
    (os : string) : Exec (LogicalResult * string) :=
  if negb (GpuDialectCppPrinter.hasRuntimeCUDA P) then Undefined
  else
    let elemType := vectorElementType vecType in
    if isF32 elemType || isF16 elemType then
      printGpuFPVectorType printer vecType vecVar os
    else Normal (failure, os +:+ "<<only support fp32 and fp16 vec type>>").

(** [a * b] on [int64_t]: undefined when it overflows. *)
Definition mulInt64 (a b : Z) : Exec Z :=
  let p := (a * b)%Z in
  if ((- 2 ^ 63 <=? p) && (p <? 2 ^ 63))%Z then Normal p else Undefined.

(** A [gpu.func] as its printer sees it: name and attributes; what
    [ResolveExecutionRuntime(funcOp, false)] finds; whether it has results,
    and what [printer->printTypes] returns and writes for them; the number
    of its blocks; what the printing of its arguments writes; what
    [printer->printBlock] returns and writes for its first block. *)
Record GPUFuncPrinting := mkGPUFuncPrinting {
  printedFunc : GPUFuncOp;
  funcExecRuntime : option ExecutionRuntime.t;
  hasResults : bool;
  printTypesOfResults : LogicalResult * string;
  numBlocks : nat;
  argumentsText : string;
  printBlockOfFront : LogicalResult * string
}.

(** The operations of the GPU dialect that [printDialectOperation] tells
    apart, and any other operation.  A [gpu.module] comes with whether it is
    among the detected ones and with what [printer->printOperation] returns
    and writes for each of its operations; a launch with the name of its
    kernel and the names of its sizes and of all its operands. *)
Inductive GpuDialectOp :=
  | op_BarrierOp
  | op_BlockDimOp (parents : list ParentOp) (dimension : string)
  | op_BlockIdOp (parents : list ParentOp) (dimension : string)
  | op_GPUFuncOp (funcOp : GPUFuncPrinting)
  | op_GPUModuleOp (detected : bool) (ops : list (LogicalResult * string))
  | op_ReturnOp
  | op_GridDimOp (parents : list ParentOp) (dimension : string)
  | op_LaunchFuncOp (kernelName : string) (gridSizes blockSizes : list string)
      (operands : list string)
  | op_ModuleEndOp
  | op_ThreadIdOp (parents : list ParentOp) (dimension : string)
  | op_Other (name : string).

(** [llvm::interleave(names, os, ", ")]. *)
Fixpoint interleave (names : list string) (os : string) : string :=
  match names with
  | [] => os
  | [n] => os +:+ n
  | n :: rest => interleave rest (os +:+ n +:+ ", ")
  end.

(** [LaunchFuncOp::kNumConfigOperands]: the grid and the block sizes. *)
Definition kNumConfigOperands : nat := 6.

(** [printOp(LaunchFuncOp)].  [drop_front] asserts that the range has as
    many elements as it drops. *)
Definition printOp_LaunchFuncOp (kernelName : string)
    (gridSizes blockSizes operands : list string) (os : string)
  : Exec (LogicalResult * string) :=
  if length operands <? kNumConfigOperands then Undefined
  else
    let operands := drop kNumConfigOperands operands in
    let os := os +:+ kernelName +:+ "<<<dim3(" in
    let os := interleave gridSizes os in
    let os := os +:+ "), dim3(" in
    let os := interleave blockSizes os in
    let os := os +:+ ")>>>(" in
    let os := interleave operands os in
    Normal (success, os +:+ ")").

(** [printOp(GPUModuleOp)]: the operations are printed in turn, up to the
    first that fails. *)
Fixpoint printOperations (ops : list (LogicalResult * string)) (os : string)
  : LogicalResult * string :=
  match ops with
  | [] => (success, os)
  | (r, text) :: rest =>
      if failed r then (failure, os +:+ text)
      else printOperations rest (os +:+ text)
  end.

(** The assertion is that the module is among the detected ones. *)
Definition printOp_GPUModuleOp (detected : bool)
    (ops : list (LogicalResult * string)) (os : string)
  : Exec (LogicalResult * string) :=
  if negb detected then Undefined else Normal (printOperations ops os).

Section FunctionDeclarations.

(** The two attribute names are declared outside the sources. *)
Variables HeaderDeclAttrName RawPointerAPIAttrName : string.

(** [printFunctionDeclaration]: [arrayAttr[i]] on a [std::vector] is
    undefined past its end, and so is a product that leaves [int64_t]. *)
Definition printFunctionDeclaration (P : GpuDialectCppPrinter.Printer)
    (funcOp : GPUFuncPrinting) (trailingSemiColon : bool) (os : string)
  : Exec (LogicalResult * string) :=
  let attrs := gpuFuncAttrs (printedFunc funcOp) in
  let execRuntime := funcExecRuntime funcOp in
  if match execRuntime with
     | Some r =>
         negb (bool_decide (r = ExecutionRuntime.CUDA))
         && negb (bool_decide (r = ExecutionRuntime.ROCM))
         && negb (bool_decide (r = ExecutionRuntime.DEFAULT))
     | None => false
     end
  then Normal (failure, os)
  else
    let os :=
      if bool_decide (is_Some (attrs !! HeaderDeclAttrName))
         && bool_decide (is_Some (attrs !! RawPointerAPIAttrName))
      then os +:+ "extern " +:+ dquote +:+ "C" +:+ dquote +:+ " "
      else os in
    let os := os +:+ "__global__ " in
    os ← match getArrayAttr attrs "blockSize" with
         | Some elements =>
             if GpuDialectCppPrinter.hasRuntimeCUDA P then
               arrayAttr ← GpuDialectCppPrinter.ArrayAttrToVector elements;
               blockSizeX ← value (arrayAttr !! 0);
               blockSizeY ← value (arrayAttr !! 1);
               blockSizeZ ← value (arrayAttr !! 2);
               xy ← mulInt64 blockSizeX blockSizeY;
               xyz ← mulInt64 xy blockSizeZ;
               Normal (os +:+ " __launch_bounds__(" +:+ pretty xyz +:+ ") ")
             else Normal os
         | None => Normal os
         end;
    if GpuDialectCppPrinter.hasRuntimeCUDA P && hasResults funcOp then
      Normal (failure, os)
    else
      let '(r, text) := printTypesOfResults funcOp in
      let os := os +:+ text in
      if failed r then Normal (failure, os)
      else
        let os := os +:+ " " +:+ gpuFuncName (printedFunc funcOp) in
        let os := os +:+ "(" in
        let os := os +:+ argumentsText funcOp in
        let os := os +:+ ") " in
        Normal (success,
                if trailingSemiColon then os +:+ ";" +:+ newline +:+ newline
                else os).

(** [printOp(GPUFuncOp)]. *)
Definition printOp_GPUFuncOp (P : GpuDialectCppPrinter.Printer)
    (funcOp : GPUFuncPrinting) (os : string) : Exec (LogicalResult * string) :=
  if 1 <? numBlocks funcOp then Normal (failure, os)
  else
    d ← printFunctionDeclaration P funcOp (numBlocks funcOp =? 0) os;
    let '(r, os) := d in
    if failed r then Normal (failure, os)
    else if negb (numBlocks funcOp =? 0) then
      let '(rb, text) := printBlockOfFront funcOp in
      let os := os +:+ text in
      if failed rb then Normal (failure, os)
      else Normal (success, os +:+ newline +:+ newline)
    else Normal (success, os +:+ newline +:+ newline).

(** [printDeclarations]: the functions of the detected modules, each with a
    trailing semicolon, up to the first that fails. *)
Fixpoint printFunctionDeclarations (P : GpuDialectCppPrinter.Printer)
    (funcOps : list GPUFuncPrinting) (os : string)
  : Exec (LogicalResult * string) :=
  match funcOps with
  | [] => Normal (success, os)
  | funcOp :: rest =>
      d ← printFunctionDeclaration P funcOp true os;
      let '(r, os) := d in
      if failed r then Normal (failure, os)
      else printFunctionDeclarations P rest os
  end.

(** [_gpuModuleOps] by the [gpu.func]s of each detected module. *)
Definition printDeclarations (P : GpuDialectCppPrinter.Printer)
    (_gpuModuleOps : list (list GPUFuncPrinting)) (os : string)
  : Exec (LogicalResult * string) :=
  if GpuDialectCppPrinter.hasRuntimeCUDA P then
    printFunctionDeclarations P (concat _gpuModuleOps) os
  else Normal (success, os).

(** The [printOp] overloads. *)
Definition printOp (P : GpuDialectCppPrinter.Printer) (op : GpuDialectOp)
    (os : string) : Exec (LogicalResult * string) :=
  match op with
  | op_BarrierOp => printOp_BarrierOp P os
  | op_BlockDimOp parents dim =>
      GpuDialectCppPrinter.printOp_BlockDimOp P parents dim os
  | op_BlockIdOp parents dim =>
      GpuDialectCppPrinter.printOp_BlockIdOp P parents dim os
  | op_GPUFuncOp funcOp => printOp_GPUFuncOp P funcOp os
  | op_GPUModuleOp detected ops => printOp_GPUModuleOp detected ops os
  | op_ReturnOp => Normal (success, os)
  | op_GridDimOp parents dim =>
      GpuDialectCppPrinter.printOp_GridDimOp P parents dim os
  | op_LaunchFuncOp kernelName gridSizes blockSizes operands =>
      printOp_LaunchFuncOp kernelName gridSizes blockSizes operands os
  | op_ModuleEndOp => Normal (success, os)
  | op_ThreadIdOp parents dim =>
      GpuDialectCppPrinter.printOp_ThreadIdOp P parents dim os
  | op_Other _ => Normal (success, os)
  end.

(** The result, [*consumed] and the stream.  The handler calls [printOp]
    and drops its result. *)
Definition printDialectOperation (P : GpuDialectCppPrinter.Printer)
    (op : GpuDialectOp) (os : string) : Exec (LogicalResult * bool * string) :=
  match op with
  | op_Other _ => Normal (success, false, os)
  | _ =>
      d ← printOp P op os;
      Normal (success, true, d.2)
  end.

End FunctionDeclarations.

(** The calls of [state.setRuntime] that one accepted module causes. *)
Definition callsFor (e : option ExecutionRuntime.t) : list PrinterRuntime.t :=
  match e with
  | Some ExecutionRuntime.ROCM => [PrinterRuntime.ROCM; PrinterRuntime.CUDA]
  | _ => [PrinterRuntime.CUDA]
  end.

(** The operations whose printer needs the CUDA runtime. *)
Definition needsCUDA (op : GpuDialectOp) : bool :=
  match op with
  | op_BarrierOp | op_BlockDimOp _ _ | op_BlockIdOp _ _ | op_GridDimOp _ _
  | op_ThreadIdOp _ _ => true
  | _ => false
  end.

(** The runtimes that [printFunctionDeclaration] lets through: none
    resolved, or one of CUDA, ROCM and DEFAULT. *)
Definition supportedBySignature (e : option ExecutionRuntime.t) : Prop :=
  ∀ r, e = Some r →
       r = ExecutionRuntime.CUDA ∨ r = ExecutionRuntime.ROCM
       ∨ r = ExecutionRuntime.DEFAULT.


(** ** Launch parameters *)

(** [accera::ir::targets] of ExecutionOptions.h. *)
Module targets.

Record Dim3 := mkDim3 { x : Z; y : Z; z : Z }.

(** [Dim3(x_ = 1, y_ = 1, z_ = 1)]. *)
Definition Dim3_default : Dim3 := mkDim3 1 1 1.

Record GPU := mkGPU { grid : Dim3; block : Dim3 }.

(** [GPU(grid_ = Dim3(1, 1, 1), block_ = Dim3(1, 1, 1))]. *)
Definition GPU_default : GPU := mkGPU Dim3_default Dim3_default.

Section ArrayAttr.

(** [util::ConvertArrayAttrToIntVector] and [util::VectorToArrayAttr]
    (IRUtil.h) are not among the sources: the two conversions below take
    them as they come. *)
Variable ConvertArrayAttrToIntVector : list Attribute → Exec (list Z).
Variable VectorToArrayAttr : list Z → (Z → Attribute) → list Attribute.

(** [launchParams[i]] on a [std::vector]: undefined past its end. *)
Definition FromArrayAttr (arrayAttr : list Attribute) : Exec GPU :=
  launchParams ← ConvertArrayAttrToIntVector arrayAttr;
  p0 ← value (launchParams !! 0);
  p1 ← value (launchParams !! 1);
  p2 ← value (launchParams !! 2);
  let gridDimSizes := mkDim3 p0 p1 p2 in
  p3 ← value (launchParams !! 3);
  p4 ← value (launchParams !! 4);
  p5 ← value (launchParams !! 5);
  let blockDimSizes := mkDim3 p3 p4 p5 in
  Normal (mkGPU gridDimSizes blockDimSizes).

Definition ToArrayAttr (this : GPU) : list Attribute :=
  let gridAndBlockDims :=
    [ x (grid this); y (grid this); z (grid this);
      x (block this); y (block this); z (block this) ] in
  VectorToArrayAttr gridAndBlockDims (λ intVal, IntegerAttr intVal).

End ArrayAttr.

(** [std::variant<CPU, GPU>]. *)
Inductive Target := CPU_ | GPU_ (options : GPU).

End targets.

(** What the constructor of [PlanImpl] (Plan.cpp) sets on the nest and on
    the execution plan: the execution target of both, and the launch
    attribute of the plan where it sets one, an array of index
    attributes. *)
Inductive ExecutionTarget := ExecutionTarget_CPU | ExecutionTarget_GPU.

Record PlanAttributes := mkPlanAttributes {
  nestExecTarget : ExecutionTarget;
  planExecTarget : ExecutionTarget;
  planGPULaunchAttr : option (list Attribute)
}.

Definition PlanImpl (execOptions : targets.Target) : PlanAttributes :=
  match execOptions with
  | targets.CPU_ => mkPlanAttributes ExecutionTarget_CPU ExecutionTarget_CPU None
  | targets.GPU_ options =>
      mkPlanAttributes ExecutionTarget_GPU ExecutionTarget_GPU
        (Some (IntegerAttr <$>
                 [ targets.x (targets.grid options); targets.y (targets.grid options);
                   targets.z (targets.grid options);
                   targets.x (targets.block options); targets.y (targets.block options);
                   targets.z (targets.block options) ]))
  end.

(** ** The wording of the specification, for comparison with the code *)

(** The scopes a backend supports. *)
Definition supportsScope (p : Pass) (scope : BarrierScope.t) : bool :=
  match p, scope with
  | _, BarrierScope.Block => true
  | AcceraToSPIRVPass, BarrierScope.Warp => true
  | AcceraToROCDLPass, BarrierScope.Threadfence => true
  | AcceraToNVVMPass, BarrierScope.Threadfence => true
  | _, _ => false
  end.

(** "returns the ROCm-class pipeline for ROCM and DEFAULT, the CUDA-class
    pipeline for CUDA, the SPIR-V-class pipeline for VULKAN, and a null
    result for NONE, OPENMP, and any unrecognized value". *)
Definition specifiedPass (runtime : ExecutionRuntime.t) : option Pass :=
  match runtime with
  | ExecutionRuntime.ROCM | ExecutionRuntime.DEFAULT => Some AcceraToROCDLPass
  | ExecutionRuntime.CUDA => Some AcceraToNVVMPass
  | ExecutionRuntime.VULKAN => Some AcceraToSPIRVPass
  | ExecutionRuntime.NONE | ExecutionRuntime.OPENMP
  | ExecutionRuntime.UnrecognizedRuntime _ => None
  end.

(** The intrinsic the shape enumeration selects, for each input precision. *)
Definition specifiedIntrinsic (inputType : MlirType) (s : Shape.t)
  : option MfmaIntrinsic :=
  match inputType, s with
  | F16, Shape.T4x16x64 => Some mfma_f32_16x16x4f16
  | F16, Shape.T2x32x64 => Some mfma_f32_32x32x4f16
  | F16, Shape.T4x4x32 => Some mfma_f32_32x32x8f16
  | F16, Shape.T2x2x16 => Some mfma_f32_16x16x16f16
  | F32, Shape.T4x16x64 => Some mfma_f32_16x16x1f32
  | F32, Shape.T2x32x64 => Some mfma_f32_32x32x1f32
  | F32, Shape.T4x4x32 => Some mfma_f32_32x32x2f32
  | F32, Shape.T2x2x16 => Some mfma_f32_16x16x4f32
  | _, _ => None
  end.

Definition isFragmentOp (op : SourceOp) : bool :=
  match op with
  | src_MFMALoadOp _ | src_MFMAStoreOp _
  | src_MFMAConstantOp _ | src_MFMAComputeOp _ => true
  | _ => false
  end.

Definition isPrecisionConversion (a : RewriteAction) : bool :=
  match a with
  | Create _ _ (FPExtOp _ _) | Create _ _ (FPTruncOp _ _) => true
  | _ => false
  end.

(** ** Example inputs *)

Definition hoisting_example_module : OpBlock :=
  [ mkOp (OtherOp "gpu.func")
      [[ mkOp (OtherOp "gpu.thread_id") [];
         mkOp SCFIfOp
           [[ mkOp AffineIfOp
                [[ mkOp (BarrierOp BarrierScope.Block) [] ]] ]];
         mkOp (OtherOp "gpu.return") [] ]] ].

Definition exampleComputeOp : MFMAComputeOp :=
  mkMFMAComputeOp
    (mkMFMAMatrixType "COp" F32 true Shape.T4x16x64 16 16 4)
    (VectorType 16 F16) (VectorType 16 F16) (VectorType 16 F32).

Definition exampleLoadOp (role : string) (elementType : MlirType) : MFMALoadOp :=
  mkMFMALoadOp
    (mkMFMAMatrixType role elementType true Shape.T4x16x64 64 16 4)
    (mkAffineMap 2 0 [AffineDimExpr 0; AffineDimExpr 1])
    ["i"; "j"]
    (Some (64, 1)%Z).

Definition exampleStoreOp (role : string) (elementType valueType : MlirType)
  : MFMAStoreOp :=
  mkMFMAStoreOp
    (mkMFMAMatrixType role elementType true Shape.T4x16x64 64 16 4)
    valueType
    (mkAffineMap 2 0 [AffineDimExpr 0; AffineDimExpr 1])
    ["i"; "j"]
    (Some (64, 1)%Z).

Definition blockSize64 : gmap string Attribute :=
  {[ "blockSize" := ArrayAttr [IntegerAttr 64; IntegerAttr 1; IntegerAttr 1] ]}.

(** A thread-id query in the body of a kernel: a [gpu.func] in a
    [gpu.module] in the module. *)
Definition exampleKernelParents : list ParentOp :=
  [ mkParentOp GPUFuncOpKind blockSize64;
    mkParentOp GPUModuleOpKind ∅;
    mkParentOp ModuleOpKind ∅ ].

Definition examplePrinter : GpuDialectCppPrinter.Printer :=
  GpuDialectCppPrinter.mkPrinter true (λ prefix, prefix +:+ "0")
    (success, "unsigned int").

(** A host function that only calls a launcher of a kernel. *)
Definition exampleHost : FuncOp :=
  mkFuncOp "matmul"
    {[ "accv.emit_header_decl" := UnitAttr;
       "accv.emit_raw_pointer_api" := UnitAttr ]}
    [[ CallOp "matmul_impl"; TerminatorOp "return" ]].

Definition exampleLauncher : FuncOp :=
  mkFuncOp "matmul_impl" ∅
    [[ OtherBodyOp "constant";
       LaunchFuncOp (mkSymbolRefAttr "kernels" ["kernel0"]);
       TerminatorOp "return" ]].

Definition exampleKernels : list GPUModuleItem :=
  [ OtherGPUSymbol "helper"; GPUFunc (mkGPUFuncOp "kernel0" blockSize64) ].

Definition exampleHostModule : list ModuleItem :=
  [ Func exampleHost; Func exampleLauncher; GPUModule "kernels" exampleKernels ].

(** The actions of a rewrite that returns. *)
Definition rewriteTrace (r : Exec (LogicalResult * list RewriteAction))
  : list RewriteAction :=
  match r with Normal (_, t) => t | Undefined => [] end.


(** The first thread of the block at the first element of its fragment. *)
Definition exampleFirstLane (v : Value) : Z :=
  if String.eqb v "i" then 32%Z
  else if String.eqb v "j" then 48%Z
  else if String.eqb v "blockDim.x" then 64%Z
  else 0%Z.

(** A query in a kernel that declares no block size. *)
Definition exampleUnsizedKernelParents : list ParentOp :=
  [ mkParentOp GPUFuncOpKind ∅;
    mkParentOp GPUModuleOpKind ∅;
    mkParentOp ModuleOpKind ∅ ].

(** [hoisting_example_module] once its barrier is hoisted. *)
Definition hoisting_example_hoisted : OpBlock :=
  [ mkOp (OtherOp "gpu.func")
      [[ mkOp (OtherOp "gpu.thread_id") [];
         mkOp (BarrierOp BarrierScope.Block) [];
         mkOp SCFIfOp [[ mkOp AffineIfOp [[]] ]];
         mkOp (BarrierOp BarrierScope.Block) [];
         mkOp (OtherOp "gpu.return") [] ]] ].

(** A kernel of one block for the CUDA runtime, as the printer sees it. *)
Definition exampleGPUFuncPrinting : GPUFuncPrinting :=
  mkGPUFuncPrinting (mkGPUFuncOp "kernel0" blockSize64)
    (Some ExecutionRuntime.CUDA) false (success, "void") 1
    "float* arg0" (success, "{ }").

(** A printer of types that prints every vector type alike. *)
Definition exampleTypePrinter : TypePrinter :=
  mkTypePrinter (λ _, (success, "vfloat2_t")) (λ _, "vfloat_t").

(** A grid of 2 by 3 by 4 blocks of 64 threads. *)
Definition exampleLaunch : targets.GPU :=
  targets.mkGPU (targets.mkDim3 2 3 4) (targets.mkDim3 64 1 1).

(** * Properties *)

(** ** Lists: insertion, deletion and sums *)

Lemma insertAt_lookup_lt {A} (l : list A) i j x :
  j < i → i ≤ length l → insertAt i x l !! j = l !! j.
Proof.
  intros Hj Hi. unfold insertAt.
  rewrite lookup_app_l by (rewrite length_take; lia).
  by rewrite lookup_take_lt.
Qed.

Lemma insertAt_twice {A} (l : list A) i x a :
  l !! i = Some a →
  insertAt (i + 2) x (insertAt i x l) = take i l ++ x :: a :: x :: drop (S i) l.
Proof.
  intros Hi. pose proof (lookup_lt_Some _ _ _ Hi) as Hlt.
  unfold insertAt at 2. rewrite (drop_S l a i Hi).
  unfold insertAt.
  assert (Hlen : length (take i l) = i) by (rewrite length_take; lia).
  rewrite take_app_ge, drop_app_ge by lia. rewrite Hlen.
  replace (i + 2 - i) with 2 by lia. simpl.
  rewrite take_0, drop_0. by rewrite <- app_assoc.
Qed.

Lemma list_sum_insert (l : list nat) i x y :
  l !! i = Some x → list_sum (<[i := y]> l) + x = list_sum l + y.
Proof.
  revert i. induction l as [|a l IH]; intros [|i] H; simplify_eq/=; try lia.
  specialize (IH _ H). lia.
Qed.

Lemma list_sum_delete (l : list nat) i x :
  l !! i = Some x → list_sum (delete i l) + x = list_sum l.
Proof.
  revert i. induction l as [|a l IH]; intros [|i] H; simplify_eq/=; try lia.
  specialize (IH _ H). lia.
Qed.

Lemma map_insert_list {A C} (f : A → C) (l : list A) i y :
  List.map f (<[i := y]> l) = <[i := f y]> (List.map f l).
Proof. revert i. induction l; intros [|i]; simpl; f_equal; auto. Qed.

Lemma map_delete_list {A C} (f : A → C) (l : list A) i :
  List.map f (delete i l) = delete i (List.map f l).
Proof. revert i. induction l; intros [|i]; simpl; f_equal; auto. Qed.

Lemma map_lookup_list {A C} (f : A → C) (l : list A) i :
  List.map f l !! i = f <$> l !! i.
Proof. revert i. induction l; intros [|i]; simpl; auto. Qed.

(** ** The operation tree *)

Lemma updBlock_updBlock f g B p :
  updBlock f (updBlock g B p) p = updBlock (f ∘ g) B p.
Proof.
  revert B. induction p as [|s p IH]; intros B; simpl; [done|].
  destruct (B !! s.1) as [o|] eqn:Ho; [|by rewrite Ho].
  destruct (opBlocks o !! s.2) as [B'|] eqn:Hb; [|by rewrite Ho, Hb].
  pose proof (lookup_lt_Some _ _ _ Ho). pose proof (lookup_lt_Some _ _ _ Hb).
  rewrite list_lookup_insert_eq by done. simpl.
  rewrite list_lookup_insert_eq by done.
  by rewrite !list_insert_insert_eq, IH.
Qed.

Lemma updBlock_app f B p q :
  updBlock f B (p ++ q) = updBlock (λ B', updBlock f B' q) B p.
Proof.
  revert B. induction p as [|s p IH]; intros B; simpl; [done|].
  destruct (B !! s.1) as [o|]; [|done].
  destruct (opBlocks o !! s.2) as [B'|]; [|done]. by rewrite IH.
Qed.

Lemma updBlock_getBlock f B p Bp :
  getBlock B p = Some Bp → updBlock f B p = updBlock (λ _, f Bp) B p.
Proof.
  revert B. induction p as [|s p IH]; intros B H; simpl in *; [by simplify_eq|].
  unfold child in H.
  destruct (B !! s.1) as [o|]; [|done]. simpl in H.
  destruct (opBlocks o !! s.2) as [B'|]; [|done]. simpl in H.
  by rewrite (IH _ H).
Qed.

Lemma getBlock_app B p q :
  getBlock B (p ++ q) = B' ← getBlock B p; getBlock B' q.
Proof.
  revert B. induction p as [|s p IH]; intros B; simpl; [done|].
  destruct (child B s) as [B'|]; simpl; [apply IH|done].
Qed.

Lemma ancestors_lookup B p k A :
  ancestors B p !! k = Some A →
  ∃ i b Bp, p !! k = Some (i, b) ∧ getBlock B (take k p) = Some Bp ∧ Bp !! i = Some A.
Proof.
  revert B k. induction p as [|[i b] p IH]; intros B k H; simpl in *; [done|].
  destruct (B !! i) as [o|] eqn:Ho; [|done].
  destruct k as [|k]; simpl in *.
  - simplify_eq. by exists i, b, B.
  - destruct (opBlocks o !! b) as [B'|] eqn:Hb; [|done].
    destruct (IH _ _ H) as (i' & b' & Bp & ? & ? & ?).
    exists i', b', Bp. split_and!; [done| |done].
    unfold child. simpl. rewrite Ho. simpl. by rewrite Hb.
Qed.

Lemma countBarriers_unfold o :
  countBarriers o =
    (if isBarrierOp (opName o) then 1 else 0)
    + list_sum (List.map countBlock (opBlocks o)).
Proof. by destruct o. Qed.

Lemma countBlock_updBlock_delete B p j op :
  getOp B (mkLoc p j) = Some op →
  countBlock (updBlock (delete j) B p) + countBarriers op = countBlock B.
Proof.
  unfold getOp. simpl. revert B.
  induction p as [|s p IH]; intros B H; simpl in *.
  - unfold countBlock. rewrite map_delete_list. apply list_sum_delete.
    by rewrite map_lookup_list, H.
  - unfold child in H.
    destruct (B !! s.1) as [o|] eqn:Ho; [|done]. simpl in H.
    destruct (opBlocks o !! s.2) as [B'|] eqn:Hb; [|done]. simpl in H.
    specialize (IH _ H).
    set (o' := mkOp _ _).
    assert (Ho' : countBarriers o' + countBarriers op = countBarriers o).
    { rewrite (countBarriers_unfold o), (countBarriers_unfold o'). subst o'. simpl.
      rewrite map_insert_list.
      pose proof (list_sum_insert (List.map countBlock (opBlocks o)) s.2
                    (countBlock B') (countBlock (updBlock (delete j) B' p))) as Hs.
      rewrite map_lookup_list, Hb in Hs. specialize (Hs eq_refl). lia. }
    unfold countBlock at 1. rewrite map_insert_list.
    pose proof (list_sum_insert (List.map countBarriers B) s.1
                  (countBarriers o) (countBarriers o')) as Hs.
    rewrite map_lookup_list, Ho in Hs. specialize (Hs eq_refl).
    unfold countBlock. lia.
Qed.

Lemma eraseOpIn_count A b p j op Bb :
  opBlocks A !! b = Some Bb → getOp Bb (mkLoc p j) = Some op →
  countBarriers (eraseOpIn A b p j) + countBarriers op = countBarriers A.
Proof.
  intros Hb H. unfold eraseOpIn. rewrite Hb.
  rewrite (countBarriers_unfold A), (countBarriers_unfold (mkOp _ _)). simpl.
  rewrite map_insert_list.
  pose proof (list_sum_insert (List.map countBlock (opBlocks A)) b
                (countBlock Bb) (countBlock (updBlock (delete j) Bb p))) as Hs.
  rewrite map_lookup_list, Hb in Hs. specialize (Hs eq_refl).
  pose proof (countBlock_updBlock_delete _ _ _ _ H). lia.
Qed.

Lemma getBlock_updBlock f B p Bp :
  getBlock B p = Some Bp → getBlock (updBlock f B p) p = Some (f Bp).
Proof.
  revert B. induction p as [|s p IH]; intros B H; simpl in *; [by simplify_eq|].
  unfold child in *.
  destruct (B !! s.1) as [o|] eqn:Ho; [|done]. simpl in H.
  destruct (opBlocks o !! s.2) as [B'|] eqn:Hb; [|done]. simpl in H.
  pose proof (lookup_lt_Some _ _ _ Ho). pose proof (lookup_lt_Some _ _ _ Hb).
  rewrite list_lookup_insert_eq by done. simpl.
  rewrite list_lookup_insert_eq by done. simpl. by apply IH.
Qed.

(** ** ConditionalBarrierHoistingPattern *)

Section Hoisting.
Import ConditionalBarrierHoistingPattern.

(** The two searches and the containment test of [GetAncestorIfOp] amount
    to one search for the outermost conditional of either kind. *)
Lemma GetAncestorIfOp_find B loc :
  GetAncestorIfOp B loc =
    fst <$> list_find (λ o, isConditional (opName o) = true)
              (ancestors B (path loc)).
Proof.
  unfold GetAncestorIfOp, GetHighestAncestorOfType, isAncestor.
  induction (ancestors B (path loc)) as [|a l IH]; [done|].
  cbn [list_find]. unfold isConditional in *.
  destruct (opName a); simpl.
  - destruct (list_find (λ o, isAffineIfOp (opName o) = true) l) as [[a1 ?]|],
      (list_find (λ o, isSCFIfOp (opName o) = true) l) as [[s1 ?]|],
      (list_find _ l) as [[??]|]; simpl in *;
      try destruct (a1 <=? s1); by simplify_eq.
  - by destruct (list_find (λ o, isSCFIfOp (opName o) = true) l) as [[??]|].
  - by destruct (list_find (λ o, isAffineIfOp (opName o) = true) l) as [[??]|].
  - destruct (list_find (λ o, isAffineIfOp (opName o) = true) l) as [[a1 ?]|],
      (list_find (λ o, isSCFIfOp (opName o) = true) l) as [[s1 ?]|],
      (list_find _ l) as [[??]|]; simpl in *;
      try destruct (a1 <=? s1); by simplify_eq.
Qed.

Lemma GetAncestorIfOp_Some B loc k :
  GetAncestorIfOp B loc = Some k ↔
  ∃ A, ancestors B (path loc) !! k = Some A ∧ isConditional (opName A) = true ∧
       ∀ j o, j < k → ancestors B (path loc) !! j = Some o →
              isConditional (opName o) = false.
Proof.
  rewrite GetAncestorIfOp_find. split.
  - intros H. destruct (list_find _ _) as [[k' A]|] eqn:Hf; simplify_eq/=.
    apply list_find_Some in Hf as (? & ? & Hmin). exists A. split_and!; [done..|].
    intros j o ? Ho. specialize (Hmin j o Ho). apply not_true_is_false. auto.
  - intros (A & HA & Hc & Hmin).
    assert (list_find (λ o, isConditional (opName o) = true)
              (ancestors B (path loc)) = Some (k, A)) as ->; [|done].
    apply list_find_Some. split_and!; [done..|].
    intros j o Ho Hj Hco. by rewrite (Hmin j o Hj Ho) in Hco.
Qed.

Lemma GetAncestorIfOp_None B loc :
  GetAncestorIfOp B loc = None ↔
  ∀ o, o ∈ ancestors B (path loc) → isConditional (opName o) = false.
Proof.
  rewrite GetAncestorIfOp_find, fmap_None, list_find_None, Forall_forall.
  split; intros H o Ho; specialize (H o Ho).
  - by apply not_true_is_false.
  - by rewrite H.
Qed.

Lemma hoist_rewrite_shape B loc op k i b Bp A :
  getOp B loc = Some op → isBarrierOp (opName op) = true →
  GetAncestorIfOp B loc = Some k → path loc !! k = Some (i, b) →
  getBlock B (take k (path loc)) = Some Bp → Bp !! i = Some A →
  (∃ Bb, opBlocks A !! b = Some Bb ∧
         getOp Bb (mkLoc (drop (S k) (path loc)) (idx loc)) = Some op) ∧
  matchAndRewrite B loc =
    Some (success,
          updBlock (λ _, take i Bp
                         ++ [op; eraseOpIn A b (drop (S k) (path loc)) (idx loc); op]
                         ++ drop (S i) Bp)
            B (take k (path loc))).
Proof.
  intros Hop Hbar Hk Hs HBp HA.
  assert (∃ Bb, opBlocks A !! b = Some Bb ∧
            getOp Bb (mkLoc (drop (S k) (path loc)) (idx loc)) = Some op)
    as (Bb & HBb & Hrel).
  { unfold getOp in Hop. rewrite <- (take_drop_middle _ _ _ Hs) in Hop.
    rewrite getBlock_app, HBp in Hop. simpl in Hop. unfold child in Hop.
    simpl in Hop. rewrite HA in Hop. simpl in Hop.
    destruct (opBlocks A !! b) as [Bb|]; [|done]. by exists Bb. }
  split; [by exists Bb|].
  unfold matchAndRewrite. rewrite Hop, Hbar, Hk, Hs. do 2 f_equal.
  rewrite updBlock_updBlock, updBlock_app, updBlock_updBlock.
  rewrite (updBlock_getBlock _ _ _ _ HBp).
  assert (Heq : ∀ X Y : OpBlock, X = Y →
            updBlock (λ _, X) B (take k (path loc))
            = updBlock (λ _, Y) B (take k (path loc))) by (by intros ?? ->).
  apply Heq. clear Heq. simpl.
  rewrite (insertAt_twice _ _ _ _ HA).
  pose proof (lookup_lt_Some _ _ _ HA) as Hlt.
  assert (Hlen : length (take i Bp) = i) by (rewrite length_take; lia).
  rewrite lookup_app_r by lia. rewrite Hlen.
  replace (i + 1 - i) with 1 by lia. simpl. rewrite HBb.
  rewrite insert_app_r_alt by lia. rewrite Hlen.
  replace (i + 1 - i) with 1 by lia. simpl.
  unfold eraseOpIn. by rewrite HBb.
Qed.

End Hoisting.

(** What one application does to a barrier that has a conditional
    ancestor. *)
Lemma hoist_rewrite_result (B : OpBlock) (loc : Loc) (op : Operation) :
  getOp B loc = Some op →
  isBarrierOp (opName op) = true →
  (∃ o, o ∈ ancestors B (path loc) ∧ isConditional (opName o) = true) →
  ∃ k i b Bp A B',
    path loc !! k = Some (i, b) ∧
    getBlock B (take k (path loc)) = Some Bp ∧
    Bp !! i = Some A ∧
    isConditional (opName A) = true ∧
    (∀ j o, j < k → ancestors B (path loc) !! j = Some o →
            isConditional (opName o) = false) ∧
    let A' := eraseOpIn A b (drop (S k) (path loc)) (idx loc) in
    ConditionalBarrierHoistingPattern.matchAndRewrite B loc = Some (success, B') ∧
    B' = updBlock (λ _, take i Bp ++ [op; A'; op] ++ drop (S i) Bp)
           B (take k (path loc)) ∧
    getBlock B' (take k (path loc))
      = Some (take i Bp ++ [op; A'; op] ++ drop (S i) Bp) ∧
    countBarriers A' + countBarriers op = countBarriers A ∧
    (countBarriers A = 1 → countBarriers A' = 0).
Proof.
  intros Hop Hbar (o & Ho & Hc).
  destruct (ConditionalBarrierHoistingPattern.GetAncestorIfOp B loc) as [k|] eqn:Hk.
  2: { pose proof (proj1 (GetAncestorIfOp_None _ _) Hk) as Hn.
       by rewrite (Hn o Ho) in Hc. }
  pose proof Hk as Hk'.
  apply (proj1 (GetAncestorIfOp_Some _ _ _)) in Hk' as (A & HA & HcA & Hmin).
  apply ancestors_lookup in HA as (i & b & Bp & Hs & HBp & HA).
  destruct (hoist_rewrite_shape _ _ _ _ _ _ _ _ Hop Hbar Hk Hs HBp HA)
    as ((Bb & HBb & Hrel) & Hrw).
  pose proof (eraseOpIn_count _ _ _ _ _ _ HBb Hrel) as Hcount.
  exists k, i, b, Bp, A,
    (updBlock (λ _, take i Bp
                    ++ [op; eraseOpIn A b (drop (S k) (path loc)) (idx loc); op]
                    ++ drop (S i) Bp) B (take k (path loc))).
  cbv zeta. split_and!; try done.
  - by rewrite (getBlock_updBlock _ _ _ _ HBp).
  - intros H1. rewrite (countBarriers_unfold op), Hbar in Hcount. lia.
Qed.

(** One application removes only the barrier it is applied to: of two
    barriers in a conditional the other one stays inside for now. *)
Lemma hoisting_one_barrier_at_a_time :
  let bar := mkOp (BarrierOp BarrierScope.Block) [] in
  let B := [ mkOp AffineIfOp [[ bar; bar ]] ] in
  ConditionalBarrierHoistingPattern.matchAndRewrite B (mkLoc [(0, 0)] 0)
    = Some (success, [ bar; mkOp AffineIfOp [[ bar ]]; bar ])
  ∧ ConditionalBarrierHoistingPattern.matchAndRewrite
      [ bar; mkOp AffineIfOp [[ bar ]]; bar ] (mkLoc [(1, 0)] 0)
    = Some (success, [ bar; bar; mkOp AffineIfOp [[]]; bar; bar ]).
Proof. split; reflexivity. Qed.

(** ** Hoisting carried through *)

Lemma list_sum_pos {A} (f : A → nat) (l : list A) :
  0 < list_sum (List.map f l) → ∃ i x, l !! i = Some x ∧ 0 < f x.
Proof.
  induction l as [|a l IH]; simpl; [lia|]. intros H.
  destruct (decide (0 < f a)) as [Ha|Ha].
  - by exists 0, a.
  - destruct IH as (i & x & ? & ?); [lia|]. by exists (S i), x.
Qed.

Lemma list_sum_lookup_le {A} (f : A → nat) (l : list A) i x :
  l !! i = Some x → f x ≤ list_sum (List.map f l).
Proof.
  revert i. induction l as [|a l IH]; intros [|i] H; simplify_eq/=; [lia|].
  specialize (IH _ H). lia.
Qed.

Lemma barriersInConditionals_unfold o :
  barriersInConditionals o =
    if isConditional (opName o) then list_sum (List.map countBlock (opBlocks o))
    else list_sum (List.map barriersInConditionalsOfBlock (opBlocks o)).
Proof. by destruct o. Qed.

Lemma regionFreeBarriers_unfold o :
  regionFreeBarriers o =
    (if isBarrierOp (opName o) then bool_decide (opBlocks o = []) else true)
    && forallb (forallb regionFreeBarriers) (opBlocks o).
Proof. by destruct o. Qed.

Lemma regionFreeBlock_lookup B i o :
  regionFreeBlock B = true → B !! i = Some o → regionFreeBarriers o = true.
Proof.
  unfold regionFreeBlock. rewrite forallb_forall. intros H Hi. apply H.
  apply list_elem_of_In. by eapply list_elem_of_lookup_2.
Qed.

Lemma regionFree_child B s Bs :
  regionFreeBlock B = true → child B s = Some Bs → regionFreeBlock Bs = true.
Proof.
  intros H Hc. unfold child in Hc.
  destruct (B !! s.1) as [o|] eqn:Ho; [|done]. simpl in Hc.
  pose proof (regionFreeBlock_lookup _ _ _ H Ho) as Hw.
  rewrite regionFreeBarriers_unfold in Hw. apply andb_true_iff in Hw as [_ Hw].
  rewrite forallb_forall in Hw. apply Hw.
  apply list_elem_of_In. by eapply list_elem_of_lookup_2.
Qed.

Lemma getOp_cons B i b p j o Bb :
  B !! i = Some o → opBlocks o !! b = Some Bb →
  getOp B (mkLoc ((i, b) :: p) j) = getOp Bb (mkLoc p j).
Proof.
  intros Hi Hb. unfold getOp. simpl. unfold child. simpl.
  rewrite Hi. simpl. by rewrite Hb.
Qed.

Lemma ancestors_cons B i b p o Bb :
  B !! i = Some o → opBlocks o !! b = Some Bb →
  ancestors B ((i, b) :: p) = o :: ancestors Bb p.
Proof. intros Hi Hb. simpl. by rewrite Hi, Hb. Qed.

(** A barrier somewhere in a block that holds one. *)
Lemma barrier_exists_op o :
  0 < countBarriers o →
  isBarrierOp (opName o) = true
  ∨ ∃ b Bb loc op, opBlocks o !! b = Some Bb ∧ getOp Bb loc = Some op
                   ∧ isBarrierOp (opName op) = true.
Proof.
  induction o as [n bs IH] using Operation_tree_ind. simpl.
  destruct (isBarrierOp n) eqn:Hn; [by left|]. simpl. intros Hpos. right.
  apply list_sum_pos in Hpos as (b & Bb & Hb & Hpos).
  apply list_sum_pos in Hpos as (i & o & Hi & Hpos).
  rewrite Forall_lookup in IH. pose proof (IH _ _ Hb) as IHb.
  rewrite Forall_lookup in IHb. destruct (IHb _ _ Hi Hpos) as [Ho|Hin].
  - exists b, Bb, (mkLoc [] i), o. by rewrite Hb.
  - destruct Hin as (b' & Bb' & [p j] & op & Hb' & Hop & Hbar).
    exists b, Bb, (mkLoc ((i, b') :: p) j), op. split_and!; [done| |done].
    by rewrite (getOp_cons _ _ _ _ _ _ _ Hi Hb').
Qed.

Lemma barrier_exists_block B :
  0 < countBlock B →
  ∃ loc op, getOp B loc = Some op ∧ isBarrierOp (opName op) = true.
Proof.
  intros Hpos. apply list_sum_pos in Hpos as (i & o & Hi & Hpos).
  destruct (barrier_exists_op o Hpos) as [Ho|Hin].
  - by exists (mkLoc [] i), o.
  - destruct Hin as (b' & Bb' & [p j] & op & Hb' & Hop & Hbar).
    exists (mkLoc ((i, b') :: p) j), op. split; [|done].
    by rewrite (getOp_cons _ _ _ _ _ _ _ Hi Hb').
Qed.

(** A barrier inside a conditional, where the count says there is one. *)
Lemma barrier_in_conditional_exists_op o :
  0 < barriersInConditionals o →
  ∃ b Bb loc op, opBlocks o !! b = Some Bb ∧ getOp Bb loc = Some op
                 ∧ isBarrierOp (opName op) = true
                 ∧ (isConditional (opName o) = true
                    ∨ ∃ o', o' ∈ ancestors Bb (path loc)
                            ∧ isConditional (opName o') = true).
Proof.
  induction o as [n bs IH] using Operation_tree_ind. simpl.
  destruct (isConditional n) eqn:Hn; intros Hpos.
  - apply list_sum_pos in Hpos as (b & Bb & Hb & Hpos).
    destruct (barrier_exists_block Bb Hpos) as (loc & op & Hop & Hbar).
    exists b, Bb, loc, op. eauto.
  - apply list_sum_pos in Hpos as (b & Bb & Hb & Hpos).
    apply list_sum_pos in Hpos as (i & o & Hi & Hpos).
    rewrite Forall_lookup in IH. pose proof (IH _ _ Hb) as IHb.
    rewrite Forall_lookup in IHb.
    destruct (IHb _ _ Hi Hpos) as (b' & Bb' & [p j] & op & Hb' & Hop & Hbar & Hc).
    exists b, Bb, (mkLoc ((i, b') :: p) j), op. split_and!; [done| |done|].
    + by rewrite (getOp_cons _ _ _ _ _ _ _ Hi Hb').
    + right. simpl path. rewrite (ancestors_cons _ _ _ _ _ _ Hi Hb').
      destruct Hc as [Hc|(o' & Ho' & Hc)].
      * exists o. split; [apply list_elem_of_here|done].
      * exists o'. split; [by apply list_elem_of_further|done].
Qed.

Lemma barrier_in_conditional_exists B :
  0 < barriersInConditionalsOfBlock B →
  ∃ loc op, getOp B loc = Some op ∧ isBarrierOp (opName op) = true
            ∧ ∃ o, o ∈ ancestors B (path loc) ∧ isConditional (opName o) = true.
Proof.
  intros Hpos. apply list_sum_pos in Hpos as (i & o & Hi & Hpos).
  destruct (barrier_in_conditional_exists_op o Hpos)
    as (b' & Bb' & [p j] & op & Hb' & Hop & Hbar & Hc).
  exists (mkLoc ((i, b') :: p) j), op. split_and!; [|done|].
  - by rewrite (getOp_cons _ _ _ _ _ _ _ Hi Hb').
  - simpl path. rewrite (ancestors_cons _ _ _ _ _ _ Hi Hb').
    destruct Hc as [Hc|(o' & Ho' & Hc)].
    + exists o. split; [apply list_elem_of_here|done].
    + exists o'. split; [by apply list_elem_of_further|done].
Qed.

Lemma ancestors_take B p k :
  ancestors B (take k p) = take k (ancestors B p).
Proof.
  revert B k. induction p as [|[i b] p IH]; intros B [|k]; simpl; try done.
  destruct (B !! i) as [o|]; [|done].
  destruct (opBlocks o !! b) as [Bb|]; simpl; f_equal; [apply IH|by destruct k].
Qed.

Lemma regionFreeBlock_Forall B :
  regionFreeBlock B = true ↔ Forall (λ o, regionFreeBarriers o = true) B.
Proof.
  unfold regionFreeBlock. rewrite forallb_forall, Forall_forall.
  split; intros H o Ho; apply H; by apply list_elem_of_In.
Qed.

Lemma regionFreeBlocks_Forall (bs : list OpBlock) :
  forallb (forallb regionFreeBarriers) bs = true
  ↔ Forall (λ B, regionFreeBlock B = true) bs.
Proof.
  rewrite forallb_forall, Forall_forall.
  split; intros H o Ho; apply H; by apply list_elem_of_In.
Qed.

Lemma regionFree_getBlock B p Bp :
  regionFreeBlock B = true → getBlock B p = Some Bp → regionFreeBlock Bp = true.
Proof.
  revert B. induction p as [|s p IH]; intros B Hw H; simpl in H; [by simplify_eq|].
  destruct (child B s) as [Bs|] eqn:Hs; [|done]. simpl in H.
  eapply IH; [|done]. by eapply regionFree_child.
Qed.

Lemma regionFree_updBlock f B p :
  regionFreeBlock B = true →
  (∀ Bp, regionFreeBlock Bp = true → regionFreeBlock (f Bp) = true) →
  regionFreeBlock (updBlock f B p) = true.
Proof.
  intros Hw Hf. revert B Hw.
  induction p as [|s p IH]; intros B Hw; simpl; [by apply Hf|].
  destruct (B !! s.1) as [o|] eqn:Ho; [|done].
  destruct (opBlocks o !! s.2) as [Bs|] eqn:Hb; [|done].
  pose proof (regionFreeBlock_lookup _ _ _ Hw Ho) as Hwo.
  rewrite regionFreeBarriers_unfold in Hwo.
  apply andb_true_iff in Hwo as [Hleaf Hwbs].
  apply regionFreeBlock_Forall, Forall_insert; [by apply regionFreeBlock_Forall|].
  rewrite regionFreeBarriers_unfold. simpl. apply andb_true_iff. split.
  - destruct (isBarrierOp (opName o)); [|done].
    apply bool_decide_eq_true in Hleaf. by rewrite Hleaf in Hb.
  - apply regionFreeBlocks_Forall, Forall_insert;
      [by apply regionFreeBlocks_Forall|].
    apply IH. apply regionFreeBlocks_Forall in Hwbs.
    by eapply Forall_lookup_1 in Hwbs.
Qed.

Lemma barriersInConditionals_updBlock B P Bp X :
  getBlock B P = Some Bp →
  (∀ o, o ∈ ancestors B P → isConditional (opName o) = false) →
  barriersInConditionalsOfBlock (updBlock (λ _, X) B P)
  + barriersInConditionalsOfBlock Bp
  = barriersInConditionalsOfBlock B + barriersInConditionalsOfBlock X.
Proof.
  revert B. induction P as [|[i b] P IH]; intros B HBp Hanc; simpl in *.
  - simplify_eq. lia.
  - unfold child in HBp. simpl in HBp.
    destruct (B !! i) as [o|] eqn:Ho; [|done]. simpl in HBp.
    destruct (opBlocks o !! b) as [Bb|] eqn:Hb; [|done]. simpl in HBp.
    assert (Hco : isConditional (opName o) = false)
      by (apply Hanc, list_elem_of_here).
    specialize (IH Bb HBp (λ o' Ho', Hanc o' (list_elem_of_further _ _ _ Ho'))).
    set (o' := mkOp _ _).
    assert (Ho' : barriersInConditionals o' + barriersInConditionalsOfBlock Bb
                  = barriersInConditionals o
                    + barriersInConditionalsOfBlock (updBlock (λ _, X) Bb P)).
    { rewrite (barriersInConditionals_unfold o),
        (barriersInConditionals_unfold o'). subst o'. simpl. rewrite Hco.
      rewrite map_insert_list.
      pose proof (list_sum_insert
                    (List.map barriersInConditionalsOfBlock (opBlocks o)) b
                    (barriersInConditionalsOfBlock Bb)
                    (barriersInConditionalsOfBlock (updBlock (λ _, X) Bb P)))
        as Hs.
      rewrite map_lookup_list, Hb in Hs. specialize (Hs eq_refl). lia. }
    unfold barriersInConditionalsOfBlock at 1. rewrite map_insert_list.
    pose proof (list_sum_insert (List.map barriersInConditionals B) i
                  (barriersInConditionals o) (barriersInConditionals o')) as Hs.
    rewrite map_lookup_list, Ho in Hs. specialize (Hs eq_refl).
    unfold barriersInConditionalsOfBlock in *. lia.
Qed.

(** A barrier with a conditional ancestor is counted. *)
Lemma barrier_in_conditional_counted B loc op :
  getOp B loc = Some op → isBarrierOp (opName op) = true →
  (∃ o, o ∈ ancestors B (path loc) ∧ isConditional (opName o) = true) →
  0 < barriersInConditionalsOfBlock B.
Proof.
  destruct loc as [p j]. simpl. revert B.
  induction p as [|[i b] p IH]; intros B Hop Hbar (o & Ho & Hc); simpl in Ho.
  - by apply elem_of_nil in Ho.
  - destruct (B !! i) as [a|] eqn:Ha; [|by apply elem_of_nil in Ho].
    assert (∃ Bb, opBlocks a !! b = Some Bb) as [Bb Hb].
    { unfold getOp in Hop. simpl in Hop. unfold child in Hop. simpl in Hop.
      rewrite Ha in Hop. simpl in Hop. destruct (opBlocks a !! b); [eauto|done]. }
    rewrite (getOp_cons _ _ _ _ _ _ _ Ha Hb) in Hop. rewrite Hb in Ho.
    pose proof (list_sum_lookup_le barriersInConditionals B i a Ha) as Hle.
    enough (0 < barriersInConditionals a)
      by (unfold barriersInConditionalsOfBlock; lia).
    rewrite barriersInConditionals_unfold.
    destruct (isConditional (opName a)) eqn:Hca.
    + pose proof (list_sum_lookup_le countBlock _ _ _ Hb).
      pose proof (countBlock_updBlock_delete _ _ _ _ Hop).
      rewrite (countBarriers_unfold op), Hbar in *. lia.
    + pose proof (list_sum_lookup_le barriersInConditionalsOfBlock _ _ _ Hb).
      apply elem_of_cons in Ho as [->|Ho]; [congruence|].
      specialize (IH Bb Hop Hbar (ex_intro _ o (conj Ho Hc))). lia.
Qed.

Lemma noBarrierInConditional_zero B :
  barriersInConditionalsOfBlock B = 0 → noBarrierInConditional B.
Proof.
  intros Hz loc op Hop Hbar o Ho. apply not_true_is_false. intros Hc.
  pose proof (barrier_in_conditional_counted B loc op Hop Hbar
                (ex_intro _ o (conj Ho Hc))). lia.
Qed.

Lemma conditional_not_barrier n : isConditional n = true → isBarrierOp n = false.
Proof. by destruct n. Qed.

Lemma barrier_not_conditional n : isBarrierOp n = true → isConditional n = false.
Proof. by destruct n. Qed.

Lemma regionFree_getOp B loc op :
  regionFreeBlock B = true → getOp B loc = Some op → regionFreeBarriers op = true.
Proof.
  intros Hw Hop. unfold getOp in Hop.
  destruct (getBlock B (path loc)) as [Bp|] eqn:HBp; [|done]. simpl in Hop.
  eapply regionFreeBlock_lookup; [|done]. by eapply regionFree_getBlock.
Qed.

Lemma barriersInConditionalsOfBlock_app B1 B2 :
  barriersInConditionalsOfBlock (B1 ++ B2)
  = barriersInConditionalsOfBlock B1 + barriersInConditionalsOfBlock B2.
Proof.
  unfold barriersInConditionalsOfBlock. by rewrite List.map_app, list_sum_app.
Qed.

(** One application to a barrier inside a conditional takes exactly one
    barrier out of the conditionals, and keeps barriers free of regions. *)
Lemma hoistStep_measure B B' :
  regionFreeBlock B = true → hoistStep B B' →
  barriersInConditionalsOfBlock B' + 1 = barriersInConditionalsOfBlock B
  ∧ regionFreeBlock B' = true.
Proof.
  intros Hw (loc & op & Hop & Hbar & (o & Ho & Hc) & Hrw).
  destruct (ConditionalBarrierHoistingPattern.GetAncestorIfOp B loc) as [k|] eqn:Hk.
  2: { pose proof (proj1 (GetAncestorIfOp_None _ _) Hk) as Hn.
       by rewrite (Hn o Ho) in Hc. }
  pose proof Hk as Hk'.
  apply (proj1 (GetAncestorIfOp_Some _ _ _)) in Hk' as (A & HA & HcA & Hmin).
  apply ancestors_lookup in HA as (i & b & Bp & Hs & HBp & HA).
  destruct (hoist_rewrite_shape _ _ _ _ _ _ _ _ Hop Hbar Hk Hs HBp HA)
    as ((Bb & HBb & Hrel) & Hrw').
  rewrite Hrw' in Hrw. simplify_eq.
  set (A' := eraseOpIn A b (drop (S k) (path loc)) (idx loc)).
  (* the barrier is a leaf *)
  pose proof (regionFree_getOp _ _ _ Hw Hop) as Hwop.
  assert (Hleaf : opBlocks op = []).
  { rewrite regionFreeBarriers_unfold, Hbar in Hwop.
    apply andb_true_iff in Hwop as [Hl _]. by apply bool_decide_eq_true in Hl. }
  assert (Hop0 : barriersInConditionals op = 0).
  { rewrite barriersInConditionals_unfold, Hleaf.
    by rewrite (barrier_not_conditional _ Hbar). }
  assert (Hop1 : countBarriers op = 1)
    by (by rewrite countBarriers_unfold, Hbar, Hleaf).
  (* the conditional before and after *)
  pose proof (eraseOpIn_count _ _ _ _ _ _ HBb Hrel) as Hcount. fold A' in Hcount.
  assert (HnA' : opName A' = opName A) by (subst A'; unfold eraseOpIn; by rewrite HBb).
  assert (HbicA : barriersInConditionals A = countBarriers A).
  { rewrite barriersInConditionals_unfold, countBarriers_unfold, HcA.
    by rewrite (conditional_not_barrier _ HcA). }
  assert (HbicA' : barriersInConditionals A' = countBarriers A').
  { rewrite barriersInConditionals_unfold, countBarriers_unfold, HnA', HcA.
    by rewrite (conditional_not_barrier _ HcA). }
  pose proof (regionFree_getBlock _ _ _ Hw HBp) as HwBp.
  split.
  - pose proof (barriersInConditionals_updBlock B (take k (path loc)) Bp
                  (take i Bp ++ [op; A'; op] ++ drop (S i) Bp) HBp) as Hupd.
    rewrite ancestors_take in Hupd.
    assert (Hnc : ∀ o, o ∈ take k (ancestors B (path loc)) →
                       isConditional (opName o) = false).
    { intros o' Ho'. apply list_elem_of_lookup in Ho' as (j & Hj).
      apply lookup_take_Some in Hj as (Hj & Hlt). by eapply Hmin. }
    specialize (Hupd Hnc).
    assert (HBp' : barriersInConditionalsOfBlock Bp
                   = barriersInConditionalsOfBlock (take i Bp)
                     + (barriersInConditionals A
                        + barriersInConditionalsOfBlock (drop (S i) Bp))).
    { rewrite <- (take_drop_middle _ _ _ HA) at 1.
      by rewrite barriersInConditionalsOfBlock_app. }
    assert (HX : barriersInConditionalsOfBlock
                   (take i Bp ++ [op; A'; op] ++ drop (S i) Bp)
                 = barriersInConditionalsOfBlock (take i Bp)
                   + (barriersInConditionals op
                      + (barriersInConditionals A'
                         + (barriersInConditionals op
                            + barriersInConditionalsOfBlock (drop (S i) Bp))))).
    { by rewrite barriersInConditionalsOfBlock_app. }
    lia.
  - apply regionFree_updBlock; [done|]. intros ? _. simpl.
    apply regionFreeBlock_Forall in HwBp.
    apply regionFreeBlock_Forall, Forall_app. split; [by apply Forall_take|].
    repeat apply Forall_cons_2; [done| |done|by apply Forall_drop].
    pose proof (Forall_lookup_1 _ _ _ _ HwBp HA) as HwA. simpl in HwA.
    rewrite regionFreeBarriers_unfold in HwA.
    apply andb_true_iff in HwA as [_ HwAbs].
    subst A'. unfold eraseOpIn. rewrite HBb.
    rewrite regionFreeBarriers_unfold. simpl.
    rewrite (conditional_not_barrier _ HcA). simpl.
    apply regionFreeBlocks_Forall, Forall_insert;
      [by apply regionFreeBlocks_Forall|].
    apply regionFree_updBlock.
    + apply regionFreeBlocks_Forall in HwAbs. by eapply Forall_lookup_1 in HwAbs.
    + intros Bx HBx. apply regionFreeBlock_Forall, Forall_delete.
      by apply regionFreeBlock_Forall.
Qed.

(** Runs of the pattern over barriers inside conditionals. *)
Lemma hoist_run_measure B B' n :
  regionFreeBlock B = true → nsteps hoistStep n B B' →
  barriersInConditionalsOfBlock B' + n = barriersInConditionalsOfBlock B
  ∧ regionFreeBlock B' = true.
Proof.
  intros Hw Hrun. revert Hw.
  induction Hrun as [B|n B B1 B' Hstep Hrun IH]; intros Hw; [split; [lia|done]|].
  destruct (hoistStep_measure _ _ Hw Hstep) as [Hm Hw1].
  destruct (IH Hw1) as [Hm' Hw']. split; [lia|done].
Qed.

Lemma hoist_run_exists B :
  regionFreeBlock B = true →
  ∃ B', nsteps hoistStep (barriersInConditionalsOfBlock B) B B'
        ∧ noBarrierInConditional B'.
Proof.
  remember (barriersInConditionalsOfBlock B) as n eqn:Hn.
  revert B Hn. induction n as [|n IH]; intros B Hn Hw.
  - exists B. split; [constructor|]. by apply noBarrierInConditional_zero.
  - destruct (barrier_in_conditional_exists B) as (loc & op & Hop & Hbar & Hc);
      [lia|].
    destruct (hoist_rewrite_result B loc op Hop Hbar Hc)
      as (k & i & b & Bp & A & B1 & _ & _ & _ & _ & _ & Hrw & _).
    assert (Hstep : hoistStep B B1) by (by exists loc, op).
    destruct (hoistStep_measure _ _ Hw Hstep) as [Hm Hw1].
    destruct (IH B1) as (B' & Hrun & Hnone); [lia|done|].
    exists B'. split; [by econstructor|done].
Qed.

(** C1.  A module whose barriers have no regions, and in it a barrier
    with a conditional ancestor.  One application of the rewrite to that
    barrier succeeds; the conditional [A] it works on is the outermost
    ancestor of either kind (no ancestor above it is an affine-if or an
    scf-if); in the block that holds [A] a clone of the barrier then stands
    immediately before and another immediately after [A]; the original is
    erased from [A], which holds one barrier fewer (none if it held no
    other); and the module has one barrier fewer inside conditionals.
    Hoisting, the rewrite applied once for each barrier inside a
    conditional, can be carried through and leaves no barrier inside any
    conditional; no run of such applications is longer. *)
Theorem hoisting_moves_barriers_out_of_conditionals
    (B : OpBlock) (loc : Loc) (op : Operation) :
  regionFreeBlock B = true →
  getOp B loc = Some op →
  isBarrierOp (opName op) = true →
  (∃ o, o ∈ ancestors B (path loc) ∧ isConditional (opName o) = true) →
  (∃ k i b Bp A B',
     path loc !! k = Some (i, b) ∧
     getBlock B (take k (path loc)) = Some Bp ∧
     Bp !! i = Some A ∧
     isConditional (opName A) = true ∧
     (∀ j o, j < k → ancestors B (path loc) !! j = Some o →
             isConditional (opName o) = false) ∧
     let A' := eraseOpIn A b (drop (S k) (path loc)) (idx loc) in
     ConditionalBarrierHoistingPattern.matchAndRewrite B loc = Some (success, B') ∧
     getBlock B' (take k (path loc))
       = Some (take i Bp ++ [op; A'; op] ++ drop (S i) Bp) ∧
     countBarriers A' + 1 = countBarriers A ∧
     barriersInConditionalsOfBlock B' + 1 = barriersInConditionalsOfBlock B)
  ∧ (∃ Bn, nsteps hoistStep (barriersInConditionalsOfBlock B) B Bn
           ∧ noBarrierInConditional Bn)
  ∧ (∀ n Bn, nsteps hoistStep n B Bn →
             barriersInConditionalsOfBlock Bn + n = barriersInConditionalsOfBlock B).
Proof.
  intros Hw Hop Hbar Hc. split_and!.
  - destruct (hoist_rewrite_result B loc op Hop Hbar Hc)
      as (k & i & b & Bp & A & B' & Hs & HBp & HA & HcA & Hmin & Hrw & _ & HB'
          & Hcount & _).
    exists k, i, b, Bp, A, B'. cbv zeta. split_and!; try done.
    + pose proof (regionFree_getOp _ _ _ Hw Hop) as Hwop.
      rewrite regionFreeBarriers_unfold, Hbar in Hwop.
      apply andb_true_iff in Hwop as [Hl _]. apply bool_decide_eq_true in Hl.
      rewrite (countBarriers_unfold op), Hbar, Hl in Hcount. simpl in Hcount. lia.
    + apply hoistStep_measure; [done|]. by exists loc, op.
  - by apply hoist_run_exists.
  - intros n Bn Hrun. by apply hoist_run_measure.
Qed.

Lemma hoisting_moves_barriers_out_of_conditionals_witness :
  regionFreeBlock hoisting_example_module = true
  ∧ getOp hoisting_example_module (mkLoc [(0, 0); (1, 0); (0, 0)] 0)
    = Some (mkOp (BarrierOp BarrierScope.Block) [])
  ∧ (∃ Bn, nsteps hoistStep (barriersInConditionalsOfBlock hoisting_example_module)
             hoisting_example_module Bn
           ∧ noBarrierInConditional Bn).
Proof.
  split_and!; [reflexivity..|].
  apply (hoisting_moves_barriers_out_of_conditionals hoisting_example_module
           (mkLoc [(0, 0); (1, 0); (0, 0)] 0)
           (mkOp (BarrierOp BarrierScope.Block) [])).
  - reflexivity.
  - reflexivity.
  - reflexivity.
  - exists (mkOp SCFIfOp
              [[ mkOp AffineIfOp [[ mkOp (BarrierOp BarrierScope.Block) [] ]] ]]).
    split; [|reflexivity]. simpl. apply list_elem_of_further, list_elem_of_here.
Defined.

(** C9.  In a module where no barrier has a conditional ancestor, the
    rewrite applied to any barrier succeeds and returns the module as it
    was. *)
Theorem hoisting_idempotent (B : OpBlock) :
  noBarrierInConditional B →
  ∀ loc op, getOp B loc = Some op → isBarrierOp (opName op) = true →
            ConditionalBarrierHoistingPattern.matchAndRewrite B loc
            = Some (success, B).
Proof.
  intros Hno loc op Hop Hbar.
  unfold ConditionalBarrierHoistingPattern.matchAndRewrite.
  rewrite Hop, Hbar.
  by rewrite (proj2 (GetAncestorIfOp_None B loc) (Hno loc op Hop Hbar)).
Qed.

Lemma hoisting_idempotent_witness :
  let bar := mkOp (BarrierOp BarrierScope.Warp) [] in
  let B := [ mkOp (OtherOp "gpu.func") [[ bar; mkOp AffineIfOp [[]]; bar ]] ] in
  ConditionalBarrierHoistingPattern.matchAndRewrite B (mkLoc [(0, 0)] 2)
  = Some (success, B).
Proof.
  cbv zeta.
  apply (hoisting_idempotent _) with (op := mkOp (BarrierOp BarrierScope.Warp) []);
    [|reflexivity|reflexivity].
  intros [p j] op Hop Hbar o Ho. unfold getOp in Hop. simpl in *.
  destruct p as [|[[|i] [|b]] p]; simpl in *;
    try (by apply elem_of_nil in Ho); try done.
  apply elem_of_cons in Ho as [->|Ho]; [done|].
  destruct p as [|[[|[|[|i]]] [|b]] p]; simpl in *;
      try (by apply elem_of_nil in Ho); try done.
  by destruct p.
Defined.

(** ** Barrier op selection *)

(** C2.  On every backend the barrier rewrite is the only pattern for a
    barrier, and what it does is fixed by the backend and the scope.  Block
    scope is replaced by the block barrier of the backend:
    [spv.ControlBarrier] of workgroup execution and memory scope with
    acquire-release semantics on SPIR-V, [gpu.barrier] on ROCDL and NVVM.
    Warp scope is replaced, on SPIR-V, by [spv.ControlBarrier] of subgroup
    execution and memory scope whose semantics are acquire-release together
    with subgroup memory.  Threadfence scope is replaced, on ROCDL and NVVM,
    by a sequentially consistent fence of agent (device) scope.  On the
    other scopes (threadfence on SPIR-V, warp on ROCDL and NVVM) the rewrite
    reports a match failure and does nothing else.  So it succeeds exactly
    on the scopes the backend supports. *)
Theorem barrier_op_selection (p : Pass) (scope : BarrierScope.t) :
  lower p (src_BarrierOp scope)
  = [ match p, scope with
      | AcceraToSPIRVPass, BarrierScope.Block =>
          Normal (success,
            [ReplaceOpWithNewOp ""
               (spirv_ControlBarrierOp spirv.Workgroup spirv.Workgroup
                  spirv.MemorySemantics.AcquireRelease)])
      | AcceraToSPIRVPass, BarrierScope.Warp =>
          Normal (success,
            [ReplaceOpWithNewOp ""
               (spirv_ControlBarrierOp spirv.Subgroup spirv.Subgroup
                  (Z.lor spirv.MemorySemantics.AcquireRelease
                         spirv.MemorySemantics.SubgroupMemory))])
      | AcceraToSPIRVPass, BarrierScope.Threadfence =>
          Normal (failure, [NotifyMatchFailure "Unhandled barrier scope."])
      | (AcceraToROCDLPass | AcceraToNVVMPass), BarrierScope.Block =>
          Normal (success, [ReplaceOpWithNewOp "" gpu_BarrierOp])
      | (AcceraToROCDLPass | AcceraToNVVMPass), BarrierScope.Warp =>
          Normal (failure, [NotifyMatchFailure "Unhandled barrier scope."])
      | (AcceraToROCDLPass | AcceraToNVVMPass), BarrierScope.Threadfence =>
          Normal (success,
            [ReplaceOpWithNewOp "" (LLVM_FenceOp LLVM.seq_cst "agent")])
      end ]
  ∧ Z.land (Z.lor spirv.MemorySemantics.AcquireRelease
                  spirv.MemorySemantics.SubgroupMemory)
      spirv.MemorySemantics.SubgroupMemory
    = spirv.MemorySemantics.SubgroupMemory
  ∧ (supportsScope p scope = true ↔
       ∃ o, lower p (src_BarrierOp scope)
            = [Normal (success, [ReplaceOpWithNewOp "" o])])
  ∧ (supportsScope p scope = false ↔
       lower p (src_BarrierOp scope)
       = [Normal (failure, [NotifyMatchFailure "Unhandled barrier scope."])]).
Proof.
  destruct p, scope; (split_and!; [reflexivity|reflexivity| |]);
    simpl; (split; [intros H|intros H]);
    try discriminate H; try reflexivity; try (by eexists);
    try (destruct H as [o H]; discriminate H).
Qed.

(** ** Pass selection *)

(** C8.  The entry point returns the pass the specification names for each
    runtime value, and no pass for NONE, OPENMP and unrecognized values. *)
Theorem createAcceraToGPUPass_selection (runtime : ExecutionRuntime.t) :
  createAcceraToGPUPass runtime = specifiedPass runtime
  ∧ (createAcceraToGPUPass runtime = None ↔
       runtime = ExecutionRuntime.NONE ∨ runtime = ExecutionRuntime.OPENMP
       ∨ ∃ raw, runtime = ExecutionRuntime.UnrecognizedRuntime raw).
Proof.
  split; [by destruct runtime|].
  destruct runtime; simpl; (split; [intros Hn|intros [Hn|[Hn|[? Hn]]]]);
    try discriminate; eauto.
Qed.

(** ** Fragments on the CUDA-class pipeline *)

(** C10.  With the patterns of the NVVM pass, a fragment load and a
    fragment constant are erased and nothing is created for them, a fragment
    store succeeds with no rewrite at all, a fragment compute is replaced by
    a subgroup matrix-multiply operation, and none of the four emits an
    address computation. *)
Theorem nvvm_fragment_patterns :
  (∀ op, lower AcceraToNVVMPass (src_MFMALoadOp op) = [Normal (success, [EraseOp])]) ∧
  (∀ op, lower AcceraToNVVMPass (src_MFMAConstantOp op)
         = [Normal (success, [EraseOp])]) ∧
  (∀ op, lower AcceraToNVVMPass (src_MFMAStoreOp op) = [Normal (success, [])]) ∧
  (∀ op, lower AcceraToNVVMPass (src_MFMAComputeOp op)
         = [Normal (success,
              [ReplaceOpWithNewOp ""
                 (gpu_SubgroupMmaComputeOp (opCType op) ["opA"; "opB"; "opC"]
                    ["cbsz"; "abid"; "blgp"])])]) ∧
  (∀ op r, isFragmentOp op = true → r ∈ lower AcceraToNVVMPass op →
           ∃ t, r = Normal (success, t)
                ∧ forallb (λ a, negb (isAddressComputation a)) t = true).
Proof.
  split_and!; try done.
  intros [] r Hf Hr; try done; apply list_elem_of_singleton in Hr as ->;
    by eexists.
Qed.

(** ** Loops *)

Lemma forRange_length fuel i ub step :
  (0 < step)%Z → Z.to_nat (ub - i) ≤ fuel →
  length (forRange fuel i ub step) = Z.to_nat ((ub - i + step - 1) / step).
Proof.
  intros Hstep. revert i.
  induction fuel as [|fuel IH]; intros i Hfuel; simpl.
  - assert ((ub - i + step - 1) / step < 1)%Z
      by (apply Z.div_lt_upper_bound; lia).
    lia.
  - destruct (Z.ltb_spec i ub) as [Hlt|Hge]; simpl.
    + rewrite IH by lia.
      replace (ub - i + step - 1)%Z with (ub - (i + step) + step - 1 + 1 * step)%Z
        by lia.
      rewrite Z.div_add by lia.
      assert (0 ≤ (ub - (i + step) + step - 1) / step)%Z
        by (apply Z.div_pos; lia).
      lia.
    + assert ((ub - i + step - 1) / step < 1)%Z
        by (apply Z.div_lt_upper_bound; lia).
      lia.
Qed.

Lemma tripCount_ceil ub step :
  (0 < step)%Z → tripCount 0 ub step = Z.to_nat ((ub + step - 1) / step).
Proof.
  intros Hstep. unfold tripCount, inductionValues.
  rewrite forRange_length by lia. do 2 f_equal. lia.
Qed.

(** ** The ROCm-class compute lowering *)

(** C7 (as amended).  A fragment compute whose operands are vectors: when
    the input element type is 16- or 32-bit float and the shape is one of the
    four, the lowering succeeds and replaces the operation by one loop from 0
    to the thread-tile size (the upper bound, not the trip count) with step 4
    for 16-bit and 1 for 32-bit inputs, so the loop runs the thread-tile size
    divided by the step, rounded up, times; its body holds exactly one
    intrinsic, the one the shape selects.  For any other shape or element
    type the lowering returns a failure and emits no intrinsic. *)
Theorem compute_lowering_loop (op : MFMAComputeOp) (n : Z) (inputType : MlirType) :
  opAType op = VectorType n inputType →
  isaVectorType (opBType op) = true →
  isaVectorType (opCType op) = true →
  let tts := getThreadTileSize (computeMatrixType op) in
  let step := (if isF16 inputType then 4 else 1)%Z in
  match specifiedIntrinsic inputType (getShapeType (computeMatrixType op)) with
  | Some i =>
      ∃ t, ValueMFMAComputeToRocDLConversion.matchAndRewrite op = Normal (success, t)
           ∧ replacementLoop t = [(0, tts, step)%Z]
           ∧ intrinsicsInLoopBody t = [i]
           ∧ tripCount 0 tts step = Z.to_nat ((tts + step - 1) / step)
  | None =>
      ∃ t, ValueMFMAComputeToRocDLConversion.matchAndRewrite op = Normal (failure, t)
           ∧ intrinsicsInLoopBody t = []
  end.
Proof.
  destruct op as [[role elt valid shape ld tts nb] tA tB tC]. simpl.
  intros -> HB HC.
  unfold ValueMFMAComputeToRocDLConversion.matchAndRewrite. simpl.
  rewrite HB, HC. simpl.
  destruct inputType, shape; simpl; eexists;
    (split_and!; [reflexivity..|]); try reflexivity;
    by apply tripCount_ceil.
Qed.

Lemma compute_lowering_loop_witness :
  ∃ t, ValueMFMAComputeToRocDLConversion.matchAndRewrite exampleComputeOp
       = Normal (success, t)
       ∧ replacementLoop t = [(0, 16, 4)%Z]
       ∧ intrinsicsInLoopBody t = [mfma_f32_16x16x4f16]
       ∧ tripCount 0 16 4 = Z.to_nat ((16 + 4 - 1) / 4).
Proof.
  apply (compute_lowering_loop exampleComputeOp 16 F16); reflexivity.
Defined.

(** C7 (as stated) fails: with 16-bit inputs and a thread-tile size of 16
    the loop is [0, 16) in steps of 4 and runs 4 times, not 16. *)
Lemma compute_trip_count_is_not_tile_size :
  (∃ t, ValueMFMAComputeToRocDLConversion.matchAndRewrite exampleComputeOp
        = Normal (success, t)
        ∧ replacementLoop t = [(0, 16, 4)%Z])
  ∧ getThreadTileSize (computeMatrixType exampleComputeOp) = 16%Z
  ∧ inductionValues 0 16 4 = [0; 4; 8; 12]%Z
  ∧ tripCount 0 16 4 ≠ 16.
Proof.
  split_and!; [eexists; split; reflexivity|reflexivity|reflexivity|].
  vm_compute. lia.
Qed.

(** ** The ROCm-class load and store lowerings *)

(** Runs a lowering up to its next branch on the role or the value type:
    every step that may end the run either ends it, which contradicts a
    returned result, or goes on. *)
Ltac run_lowering :=
  repeat first
    [ progress simpl
    | match goal with
      | |- context [if ?b then _ else _] =>
          match b with
          | true => fail 1
          | false => fail 1
          | _ && _ => fail 1
          | _ => destruct b; try done
          end
      | |- context [idiv ?a ?b] => destruct (idiv a b); try done
      | |- context [GetRowColOffsetForCLoadStore ?a ?b] =>
          destruct (GetRowColOffsetForCLoadStore a b) as [[??]|]; try done
      | |- context [value ?o] => destruct o as [[??]|]; try done
      end ].

(** A fragment whose shape is not valid: the load and the store lowering
    report a match failure, and that notice is all they do. *)
Lemma load_invalid_shape (op : MFMALoadOp) :
  isValidShape (loadMatrixType op) = false →
  ∃ t, ValueMFMALoadOpToRocDLConversion.matchAndRewrite op = Normal (failure, t)
       ∧ t = [NotifyMatchFailure "unhandled matrix shape"]
       ∧ forallb (λ a, negb (mutatesIR a || isAddressComputation a)) t = true.
Proof.
  intros H. unfold ValueMFMALoadOpToRocDLConversion.matchAndRewrite.
  rewrite H. by eexists.
Qed.

Lemma store_invalid_shape (op : MFMAStoreOp) :
  isValidShape (storeMatrixType op) = false →
  ∃ t, ValueMFMAStoreOpToRocDLConversion.matchAndRewrite op = Normal (failure, t)
       ∧ t = [NotifyMatchFailure "unhandled matrix shape"]
       ∧ forallb (λ a, negb (mutatesIR a || isAddressComputation a)) t = true.
Proof.
  intros H. unfold ValueMFMAStoreOpToRocDLConversion.matchAndRewrite.
  rewrite H. by eexists.
Qed.

(** A load of valid shape whose role is none of the three never reports a
    match failure: the layout map is null and composing it ends the run. *)
Lemma load_unrecognized_role (op : MFMALoadOp) :
  isValidShape (loadMatrixType op) = true →
  getOperand (loadMatrixType op) ≠ "COp" →
  getOperand (loadMatrixType op) ≠ "AOp" →
  getOperand (loadMatrixType op) ≠ "BOp" →
  ValueMFMALoadOpToRocDLConversion.matchAndRewrite op = Undefined.
Proof.
  intros Hv HC HA HB.
  unfold ValueMFMALoadOpToRocDLConversion.matchAndRewrite,
    ValueMFMALoadOpToRocDLConversion.selectLayout.
  rewrite Hv. simpl.
  destruct (loadWarpSize op) as [[wx wy]|]; [|done]. simpl.
  apply String.eqb_neq in HC, HA, HB. rewrite HC, HA, HB.
  by destruct (idiv _ _).
Qed.

(** C5, at the failing input: a load of valid shape with role "DOp" is not
    rejected with a match failure; the run ends in the composition with the
    null layout map. *)
Theorem load_unrecognized_role_is_not_rejected :
  isValidShape (loadMatrixType (exampleLoadOp "DOp" F32)) = true
  ∧ getOperand (loadMatrixType (exampleLoadOp "DOp" F32)) = "DOp"
  ∧ ValueMFMALoadOpToRocDLConversion.selectLayout
      (loadMatrixType (exampleLoadOp "DOp" F32)) 64
    = Normal (None, 16%Z, F32)
  ∧ ValueMFMALoadOpToRocDLConversion.matchAndRewrite (exampleLoadOp "DOp" F32)
    = Undefined
  ∧ ∀ t, ValueMFMALoadOpToRocDLConversion.matchAndRewrite (exampleLoadOp "DOp" F32)
         ≠ Normal (failure, t).
Proof. split_and!; try reflexivity. intros t. discriminate. Qed.

(** C6 (as amended).  In a successful lowering: a load of an accumulator
    fragment of 16-bit floats extends the loaded element to 32-bit float and
    inserts the extended element; a store of a fragment of 16-bit floats whose
    value vector holds 32-bit floats truncates the extracted element to
    16-bit float and writes the truncated element; for fragments of 32-bit
    floats no extension or truncation is emitted, in loads and stores
    alike. *)
Theorem precision_adaptation :
  (∀ op t,
     getOperand (loadMatrixType op) = "COp" →
     getElementType (loadMatrixType op) = F16 →
     ValueMFMALoadOpToRocDLConversion.matchAndRewrite op = Normal (success, t) →
     ∃ pre post,
       t = pre
           ++ [ Create loopBuilder "load" (memref_LoadOp "memref" "mappedOperands");
                Create loopBuilder "castedElem" (FPExtOp "load" F32);
                Create loopBuilder "vec"
                  (vector_InsertElementOp "castedElem" "destVec" "laneIndex") ]
           ++ post
       ∧ forallb (λ a, negb (isPrecisionConversion a)) (pre ++ post) = true) ∧
  (∀ op t n,
     getElementType (storeMatrixType op) = F16 →
     storeValueType op = VectorType n F32 →
     ValueMFMAStoreOpToRocDLConversion.matchAndRewrite op = Normal (success, t) →
     ∃ pre,
       t = pre
           ++ [ Create loopBuilder "elem" (vector_ExtractElementOp "value" "laneIndex");
                Create loopBuilder "castedElem" (FPTruncOp "elem" F16);
                Create loopBuilder ""
                  (memref_StoreOp "castedElem" "memref" "mappedOperands") ]
       ∧ forallb (λ a, negb (isPrecisionConversion a)) pre = true) ∧
  (∀ op t,
     getElementType (loadMatrixType op) = F32 →
     ValueMFMALoadOpToRocDLConversion.matchAndRewrite op = Normal (success, t) →
     forallb (λ a, negb (isPrecisionConversion a)) t = true) ∧
  (∀ op t,
     getElementType (storeMatrixType op) = F32 →
     ValueMFMAStoreOpToRocDLConversion.matchAndRewrite op = Normal (success, t) →
     forallb (λ a, negb (isPrecisionConversion a)) t = true).
Proof.
  split_and!.
  - intros [[role elt valid shape ld tts nb] map ind ws] t. simpl.
    intros -> ->.
    unfold ValueMFMALoadOpToRocDLConversion.matchAndRewrite,
      ValueMFMALoadOpToRocDLConversion.selectLayout.
    run_lowering. intros [= <-]. by eexists [_; _; _; _; _; _; _; _; _], [_].
  - intros [[role elt valid shape ld tts nb] vty map ind ws] t n. simpl.
    intros -> ->.
    unfold ValueMFMAStoreOpToRocDLConversion.matchAndRewrite.
    run_lowering. intros [= <-]. by eexists [_; _; _; _; _; _; _].
  - intros [[role elt valid shape ld tts nb] map ind ws] t. simpl.
    intros ->.
    unfold ValueMFMALoadOpToRocDLConversion.matchAndRewrite,
      ValueMFMALoadOpToRocDLConversion.selectLayout.
    run_lowering; first [done | by intros [= <-]].
  - intros [[role elt valid shape ld tts nb] vty map ind ws] t. simpl.
    intros ->.
    unfold ValueMFMAStoreOpToRocDLConversion.matchAndRewrite.
    run_lowering. destruct vty; try done.
    rewrite andb_false_r. by intros [= <-].
Qed.

Lemma precision_adaptation_witness :
  (∃ t pre post,
     ValueMFMALoadOpToRocDLConversion.matchAndRewrite (exampleLoadOp "COp" F16)
     = Normal (success, t)
     ∧ t = pre
           ++ [ Create loopBuilder "load" (memref_LoadOp "memref" "mappedOperands");
                Create loopBuilder "castedElem" (FPExtOp "load" F32);
                Create loopBuilder "vec"
                  (vector_InsertElementOp "castedElem" "destVec" "laneIndex") ]
           ++ post
     ∧ forallb (λ a, negb (isPrecisionConversion a)) (pre ++ post) = true) ∧
  (∃ t pre,
     ValueMFMAStoreOpToRocDLConversion.matchAndRewrite
       (exampleStoreOp "COp" F16 (VectorType 4 F32))
     = Normal (success, t)
     ∧ t = pre
           ++ [ Create loopBuilder "elem" (vector_ExtractElementOp "value" "laneIndex");
                Create loopBuilder "castedElem" (FPTruncOp "elem" F16);
                Create loopBuilder ""
                  (memref_StoreOp "castedElem" "memref" "mappedOperands") ]
     ∧ forallb (λ a, negb (isPrecisionConversion a)) pre = true) ∧
  (∃ t,
     ValueMFMALoadOpToRocDLConversion.matchAndRewrite (exampleLoadOp "COp" F32)
     = Normal (success, t)
     ∧ forallb (λ a, negb (isPrecisionConversion a)) t = true) ∧
  (∃ t,
     ValueMFMAStoreOpToRocDLConversion.matchAndRewrite
       (exampleStoreOp "COp" F32 (VectorType 4 F32))
     = Normal (success, t)
     ∧ forallb (λ a, negb (isPrecisionConversion a)) t = true).
Proof.
  destruct precision_adaptation as (HL & HS & HL32 & HS32).
  split_and!.
  - eexists.
    edestruct (HL (exampleLoadOp "COp" F16)) as (pre & post & Ht & Hn);
      [reflexivity..|].
    exists pre, post. split_and!; [reflexivity|exact Ht|exact Hn].
  - eexists.
    edestruct (HS (exampleStoreOp "COp" F16 (VectorType 4 F32))) as (pre & Ht & Hn);
      [reflexivity..|].
    exists pre. split_and!; [reflexivity|exact Ht|exact Hn].
  - eexists. split; [reflexivity|].
    apply (HL32 (exampleLoadOp "COp" F32)); reflexivity.
  - eexists. split; [reflexivity|].
    apply (HS32 (exampleStoreOp "COp" F32 (VectorType 4 F32))); reflexivity.
Defined.

(** C6 (as stated) fails: a store of a fragment of 16-bit floats whose value
    vector already holds 16-bit floats writes the extracted element as it is;
    nothing is truncated. *)
Lemma store_of_half_vector_is_not_truncated :
  getElementType (storeMatrixType (exampleStoreOp "COp" F16 (VectorType 4 F16))) = F16
  ∧ ∃ t, ValueMFMAStoreOpToRocDLConversion.matchAndRewrite
           (exampleStoreOp "COp" F16 (VectorType 4 F16))
         = Normal (success, t)
         ∧ forallb (λ a, negb (isPrecisionConversion a)) t = true
         ∧ last t = Some (Create loopBuilder ""
                            (memref_StoreOp "elem" "memref" "mappedOperands")).
Proof. split; [reflexivity|]. eexists. split_and!; reflexivity. Qed.

(** ** Thread and block queries *)

Lemma string_append_assoc (s1 s2 s3 : string) :
  (s1 +:+ s2) +:+ s3 = s1 +:+ s2 +:+ s3.
Proof.
  induction s1 as [|a s1 IH]; [done|].
  change (String a ((s1 +:+ s2) +:+ s3) = String a (s1 +:+ s2 +:+ s3)).
  by rewrite IH.
Qed.

Section Queries.
Import GpuDialectCppPrinter.

Lemma getBlockDim_known parents dim fn elements vs B :
  getParentOfType FuncOpKind parents = Some fn →
  getArrayAttr (parentAttrs fn) "blockSize" = Some elements →
  ArrayAttrToVector elements = Normal vs →
  dimIndexToInteger dim ≠ (-1)%Z →
  vs !! Z.to_nat (dimIndexToInteger dim) = Some B →
  getBlockDim parents dim = Normal (Some (toUInt64 B)).
Proof.
  intros Hp Ha Hv Hd HB. unfold getBlockDim, getSizeAttr.
  rewrite Hp, Ha, Hv. simpl.
  apply Z.eqb_neq in Hd. rewrite Hd, HB. done.
Qed.

Lemma getBlockDim_unknown parents dim :
  (getParentOfType FuncOpKind parents = None
   ∨ (∃ fn, getParentOfType FuncOpKind parents = Some fn
            ∧ getArrayAttr (parentAttrs fn) "blockSize" = None)
   ∨ (∃ fn elements vs,
        getParentOfType FuncOpKind parents = Some fn
        ∧ getArrayAttr (parentAttrs fn) "blockSize" = Some elements
        ∧ ArrayAttrToVector elements = Normal vs
        ∧ dimIndexToInteger dim = (-1)%Z)) →
  getBlockDim parents dim = Normal None.
Proof.
  unfold getBlockDim, getSizeAttr.
  intros [->|[(fn & -> & ->)|(fn & el & vs & -> & -> & -> & ->)]]; done.
Qed.

(** With the CUDA runtime set: a thread-id query inside a [FuncOp] that
    declares the block size is printed modulo the size of its axis. *)
Lemma printOp_ThreadIdOp_known P parents dim os B :
  hasRuntimeCUDA P = true → (printIndexType P).1 = success →
  getBlockDim parents dim = Normal (Some B) →
  printOp_ThreadIdOp P parents dim os
  = Normal (success,
      (os +:+ "const " +:+ (printIndexType P).2)
      +:+ " " +:+ getOrCreateName P ("threadIdx_" +:+ dim +:+ "_") +:+ " = "
      +:+ "(threadIdx." +:+ dim +:+ "%" +:+ pretty B +:+ ")").
Proof.
  intros Hc Hi HB. unfold printOp_ThreadIdOp, printQuery, printGPUIndexType.
  rewrite Hc, Hi, HB. simpl.
  by rewrite !string_append_assoc.
Qed.

(** Without a known size the register is read as it is. *)
Lemma printOp_ThreadIdOp_unknown P parents dim os :
  hasRuntimeCUDA P = true → (printIndexType P).1 = success →
  getBlockDim parents dim = Normal None →
  printOp_ThreadIdOp P parents dim os
  = Normal (success,
      (os +:+ "const " +:+ (printIndexType P).2)
      +:+ " " +:+ getOrCreateName P ("threadIdx_" +:+ dim +:+ "_") +:+ " = "
      +:+ "threadIdx." +:+ dim).
Proof.
  intros Hc Hi HB. unfold printOp_ThreadIdOp, printQuery, printGPUIndexType.
  rewrite Hc, Hi, HB. simpl.
  by rewrite !string_append_assoc.
Qed.

(** A block-dimension query inside a [GPUFuncOp] that declares the block
    size is replaced by the constant of its axis; without the attribute or
    with an axis other than x, y, z the pattern fails and touches
    nothing. *)
Lemma ResolveBlockDimPattern_known parents dim gpuFunc elements B :
  getParentOfType GPUFuncOpKind parents = Some gpuFunc →
  getArrayAttr (parentAttrs gpuFunc) "blockSize" = Some elements →
  dimIndexToInteger dim ≠ (-1)%Z →
  elements !! Z.to_nat (dimIndexToInteger dim) = Some (IntegerAttr B) →
  ResolveBlockDimPattern.matchAndRewrite parents dim
  = Normal (success, [ReplaceOpWithNewOp "" (ConstantIndexOp B)]).
Proof.
  intros Hp Ha Hd HB. unfold ResolveBlockDimPattern.matchAndRewrite.
  rewrite Hp, Ha. apply Z.eqb_neq in Hd. rewrite Hd, HB. done.
Qed.

Lemma ResolveBlockDimPattern_unknown parents dim gpuFunc :
  getParentOfType GPUFuncOpKind parents = Some gpuFunc →
  getArrayAttr (parentAttrs gpuFunc) "blockSize" = None
  ∨ dimIndexToInteger dim = (-1)%Z →
  ResolveBlockDimPattern.matchAndRewrite parents dim = Normal (failure, []).
Proof.
  intros Hp H. unfold ResolveBlockDimPattern.matchAndRewrite. rewrite Hp.
  destruct H as [->| ->]; [done|]. by destruct (getArrayAttr _ _).
Qed.

End Queries.

(** C3, at the failing input: in a [gpu.func] kernel that declares block
    size (64, 1, 1), the thread-id query on x is printed as the bare
    register, although the block-dimension query of the same kernel is
    resolved to 64 and the same query inside a [FuncOp] with that attribute
    is printed modulo 64. *)
Theorem thread_id_in_gpu_func_is_not_wrapped :
  GpuDialectCppPrinter.printOp_ThreadIdOp examplePrinter exampleKernelParents "x" ""
  = Normal (success, "const unsigned int threadIdx_x_0 = threadIdx.x")
  ∧ ResolveBlockDimPattern.matchAndRewrite exampleKernelParents "x"
    = Normal (success, [ReplaceOpWithNewOp "" (ConstantIndexOp 64)])
  ∧ GpuDialectCppPrinter.printOp_ThreadIdOp examplePrinter
      [mkParentOp FuncOpKind blockSize64; mkParentOp ModuleOpKind ∅] "x" ""
    = Normal (success, "const unsigned int threadIdx_x_0 = (threadIdx.x%64)").
Proof. split_and!; vm_compute; reflexivity. Qed.

(** ** Symbol tables *)

Lemma list_find_insert_preserve {A} (P : A → Prop) `{!∀ x, Decision (P x)}
    (l : list A) i x y j z :
  l !! i = Some x → (P x ↔ P y) → list_find P l = Some (j, z) →
  list_find P (<[i := y]> l) = Some (j, if decide (j = i) then y else z).
Proof.
  intros Hi HP Hf. apply list_find_Some in Hf as (Hj & HPz & Hmin).
  pose proof (lookup_lt_Some _ _ _ Hi) as Hlt.
  apply list_find_Some. split_and!.
  - destruct (decide (j = i)) as [->|Hne].
    + by rewrite list_lookup_insert_eq.
    + by rewrite list_lookup_insert_ne.
  - destruct (decide (j = i)) as [->|Hne]; [|done]. simplify_eq. by apply HP.
  - intros j' w Hw Hlt'. destruct (decide (j' = i)) as [->|Hne].
    + rewrite list_lookup_insert_eq in Hw by done. simplify_eq.
      intros HPy. apply (Hmin i x Hi Hlt'). by apply HP.
    + rewrite list_lookup_insert_ne in Hw by done. by apply (Hmin j' w).
Qed.

Lemma lookupSymbolIn_renamed {A} (name : A → string) (table : list A) k x y sym :
  table !! k = Some x → name y = sym →
  lookupSymbolIn name table sym = None →
  lookupSymbolIn name (<[k := y]> table) sym = Some (k, y).
Proof.
  intros Hk Hy Hnone. unfold lookupSymbolIn in *.
  pose proof (lookup_lt_Some _ _ _ Hk) as Hlt.
  apply list_find_None in Hnone. rewrite Forall_forall in Hnone.
  apply list_find_Some. split_and!; [by rewrite list_lookup_insert_eq|done|].
  intros j w Hw Hj. rewrite list_lookup_insert_ne in Hw by lia.
  apply Hnone. by eapply list_elem_of_lookup_2.
Qed.

(** ** CreateDeviceFuncLauncherPairPattern *)

Lemma funcName_setFrontOp_iff j o fn sym :
  itemName (Func fn) = sym ↔ itemName (Func (setFrontOp j o fn)) = sym.
Proof. unfold setFrontOp. by destruct (funcBlocks fn). Qed.

Lemma funcName_setFuncAttr_iff name a fn sym :
  itemName (Func fn) = sym ↔ itemName (Func (setFuncAttr name a fn)) = sym.
Proof. done. Qed.

Lemma itemName_GPUModule_iff n (items items' : list GPUModuleItem) sym :
  itemName (GPUModule n items) = sym ↔ itemName (GPUModule n items') = sym.
Proof. done. Qed.

Section Pairing.
Variables HeaderDeclAttrName RawPointerAPIAttrName : string.
Variables ExecRuntimeAttrName ExecTargetAttrName : string.
Hypothesis attr_names_distinct :
  NoDup [HeaderDeclAttrName; RawPointerAPIAttrName;
         ExecRuntimeAttrName; ExecTargetAttrName].

(** C4.  A header-visible raw-pointer function at position [h] whose
    body is one call and a terminator, the callee ending in a launch of a
    kernel of a [gpu.module] that has no symbol named after the host with
    the suffix: the rewrite succeeds; the launch then refers, under the
    same root, to the host's name followed by "__gpu__"; that reference
    resolves to the kernel, which now bears that name and the runtime,
    execution-target, header and raw-pointer attributes; and the host bears
    the runtime attribute. *)
Theorem launcher_pairing_renames_kernel
    (_target : ExecutionRuntime.t) (m : list ModuleItem) (h : nat)
    (op : FuncOp) (callee : string) (term : BodyOp)
    (c : nat) (calleeFnOp : FuncOp) (pre : list BodyOp)
    (kernel : SymbolRefAttr) (term' : string)
    (g k : nat) (launchedGPUFnOp : GPUFuncOp)
    (gname : string) (items : list GPUModuleItem) :
  m !! h = Some (Func op) →
  is_Some (funcAttrs op !! HeaderDeclAttrName) →
  is_Some (funcAttrs op !! RawPointerAPIAttrName) →
  head (funcBlocks op) = Some [CallOp callee; term] →
  lookupSymbolIn itemName m callee = Some (c, Func calleeFnOp) →
  head (funcBlocks calleeFnOp)
    = Some (pre ++ [LaunchFuncOp kernel; TerminatorOp term']) →
  lookupKernel m kernel = Some (g, k, launchedGPUFnOp) →
  m !! g = Some (GPUModule gname items) →
  lookupSymbolIn gpuItemName items (funcName op +:+ "__gpu__") = None →
  ∃ m' calleeFnOp' kernel' launchedGPUFnOp' op',
    CreateDeviceFuncLauncherPairPattern.matchAndRewrite
      HeaderDeclAttrName RawPointerAPIAttrName
      ExecRuntimeAttrName ExecTargetAttrName _target m h
    = Some (Normal (success, m'))
    ∧ m' !! c = Some (Func calleeFnOp')
    ∧ head (funcBlocks calleeFnOp')
      = Some (pre ++ [LaunchFuncOp kernel'; TerminatorOp term'])
    ∧ kernel' = mkSymbolRefAttr (getRootReference kernel)
                  [funcName op +:+ "__gpu__"]
    ∧ lookupKernel m' kernel' = Some (g, k, launchedGPUFnOp')
    ∧ gpuFuncName launchedGPUFnOp' = funcName op +:+ "__gpu__"
    ∧ gpuFuncAttrs launchedGPUFnOp' !! ExecRuntimeAttrName
      = Some (ExecutionRuntimeAttr _target)
    ∧ gpuFuncAttrs launchedGPUFnOp' !! ExecTargetAttrName
      = Some ExecutionTargetGPUAttr
    ∧ gpuFuncAttrs launchedGPUFnOp' !! HeaderDeclAttrName = Some UnitAttr
    ∧ gpuFuncAttrs launchedGPUFnOp' !! RawPointerAPIAttrName = Some UnitAttr
    ∧ m' !! h = Some (Func op')
    ∧ funcName op' = funcName op
    ∧ funcAttrs op' !! ExecRuntimeAttrName = Some (ExecutionRuntimeAttr _target).
Proof.
  intros Hh Hhd Hrp Hbody Hcallee Hlaunch Hkernel Hmod Hfresh.
  assert (HeaderDeclAttrName ≠ RawPointerAPIAttrName
          ∧ HeaderDeclAttrName ≠ ExecRuntimeAttrName
          ∧ HeaderDeclAttrName ≠ ExecTargetAttrName
          ∧ RawPointerAPIAttrName ≠ ExecRuntimeAttrName
          ∧ RawPointerAPIAttrName ≠ ExecTargetAttrName
          ∧ ExecRuntimeAttrName ≠ ExecTargetAttrName)
    as (Hn1 & Hn2 & Hn3 & Hn4 & Hn5 & Hn6).
  { pose proof attr_names_distinct as Hnd.
    rewrite !NoDup_cons, !not_elem_of_cons in Hnd.
    by destruct Hnd as ((? & ? & ? & _) & (? & ? & _) & (? & _) & _). }
  set (newName := funcName op +:+ "__gpu__") in *.
  (* what the lookups found *)
  pose proof Hcallee as Hc. unfold lookupSymbolIn in Hc.
  apply list_find_Some in Hc as (Hc & _ & _).
  pose proof Hkernel as Hk. unfold lookupKernel in Hk.
  destruct (lookupSymbolIn itemName m (getRootReference kernel))
    as [[g' [|n' items'|]]|] eqn:Hroot; try done.
  destruct (getNestedReferences kernel) as [|leaf [|]] eqn:Hnested; try done.
  destruct (lookupSymbolIn gpuItemName items' leaf) as [[k' [f|]]|] eqn:Hleaf;
    try done.
  simplify_eq.
  pose proof Hroot as Hg. unfold lookupSymbolIn in Hg.
  apply list_find_Some in Hg as (Hg & Hgname & _). simplify_eq.
  pose proof Hleaf as Hk. unfold lookupSymbolIn in Hk.
  apply list_find_Some in Hk as (Hk & _ & _).
  (* the three objects are distinct *)
  assert (Hgc : g ≠ c) by (intros ->; simplify_eq).
  assert (Hgh : g ≠ h) by (intros ->; simplify_eq).
  assert (Hch : c ≠ h).
  { intros ->. rewrite Hh in Hc. injection Hc as <-.
    rewrite Hbody in Hlaunch. by destruct pre as [|? [|? [|? ?]]]. }
  pose proof (lookup_lt_Some _ _ _ Hmod) as Hglt.
  pose proof (lookup_lt_Some _ _ _ Hc) as Hclt.
  pose proof (lookup_lt_Some _ _ _ Hh) as Hhlt.
  (* the rewritten objects *)
  set (kfn' := (setGPUFuncName newName
                ∘ setGPUFuncAttr RawPointerAPIAttrName UnitAttr
                ∘ setGPUFuncAttr HeaderDeclAttrName UnitAttr
                ∘ setGPUFuncAttr ExecTargetAttrName ExecutionTargetGPUAttr
                ∘ setGPUFuncAttr ExecRuntimeAttrName
                    (ExecutionRuntimeAttr _target)) launchedGPUFnOp).
  set (kernel' := mkSymbolRefAttr (getRootReference kernel) [newName]).
  set (calleeFront := pre ++ [LaunchFuncOp kernel; TerminatorOp term']) in *.
  set (callee' := setFrontOp (length calleeFront - 2)
                    (LaunchFuncOp kernel') calleeFnOp).
  set (op' := setFuncAttr ExecRuntimeAttrName (ExecutionRuntimeAttr _target) op).
  set (m1 := <[g := GPUModule gname (<[k := GPUFunc kfn']> items)]> m).
  set (m2 := <[c := Func callee']> m1).
  set (m3 := <[h := Func op']> m2).
  assert (H1c : m1 !! c = Some (Func calleeFnOp))
    by (subst m1; by rewrite list_lookup_insert_ne).
  assert (H2h : m2 !! h = Some (Func op))
    by (subst m2 m1; by rewrite !list_lookup_insert_ne).
  exists m3, callee', kernel', kfn', op'.
  split_and!.
  - unfold CreateDeviceFuncLauncherPairPattern.matchAndRewrite.
    rewrite Hh. f_equal.
    rewrite !bool_decide_eq_true_2 by done. simpl.
    destruct (funcBlocks op) as [|front rest] eqn:Hblocks; [done|].
    simpl in Hbody. simplify_eq. simpl.
    rewrite Hcallee. simpl.
    destruct (funcBlocks calleeFnOp) as [|cfront crest] eqn:Hcblocks; [done|].
    simpl in Hlaunch. simplify_eq. simpl.
    assert (Hlast : last calleeFront = Some (TerminatorOp term')).
    { subst calleeFront.
      change [LaunchFuncOp kernel; TerminatorOp term']
        with ([LaunchFuncOp kernel] ++ [TerminatorOp term']).
      by rewrite app_assoc, last_snoc. }
    assert (Hrem : removelast calleeFront = pre ++ [LaunchFuncOp kernel]).
    { subst calleeFront.
      change [LaunchFuncOp kernel; TerminatorOp term']
        with ([LaunchFuncOp kernel] ++ [TerminatorOp term']).
      by rewrite app_assoc, removelast_last. }
    rewrite Hlast. simpl. rewrite Hrem, last_snoc. simpl.
    fold newName. rewrite Hkernel, Hmod, Hfresh. simpl.
    unfold updateGPUFunc. rewrite Hmod, Hk.
    fold kfn' m1. unfold updateFunc. rewrite H1c.
    fold kernel'. fold callee' m2. rewrite H2h. done.
  - subst m3 m2. rewrite list_lookup_insert_ne by done.
    by rewrite list_lookup_insert_eq by (subst m1; by rewrite length_insert).
  - subst callee'. unfold setFrontOp.
    destruct (funcBlocks calleeFnOp) as [|cfront crest] eqn:Hcblocks; [done|].
    simpl in *. simplify_eq. f_equal. subst calleeFront.
    rewrite length_app. simpl.
    replace (length pre + 2 - 2) with (length pre + 0) by lia.
    by rewrite insert_app_r.
  - done.
  - unfold lookupKernel. simpl.
    assert (lookupSymbolIn itemName m3 (getRootReference kernel)
            = Some (g, GPUModule gname (<[k := GPUFunc kfn']> items))) as ->.
    { unfold lookupSymbolIn in Hroot |- *.
      assert (Hf1 : list_find (λ it, itemName it = getRootReference kernel) m1
                    = Some (g, GPUModule gname (<[k := GPUFunc kfn']> items))).
      { subst m1.
        pose proof (list_find_insert_preserve _ m g _
                      (GPUModule gname (<[k := GPUFunc kfn']> items)) _ _
                      Hmod (itemName_GPUModule_iff _ _ _ _) Hroot) as HH.
        rewrite decide_True in HH by done. exact HH. }
      assert (Hf2 : list_find (λ it, itemName it = getRootReference kernel) m2
                    = Some (g, GPUModule gname (<[k := GPUFunc kfn']> items))).
      { subst m2.
        pose proof (list_find_insert_preserve _ m1 c _ (Func callee') _ _
                      H1c (funcName_setFrontOp_iff _ _ _ _) Hf1) as HH.
        rewrite decide_False in HH by done. exact HH. }
      subst m3.
      pose proof (list_find_insert_preserve _ m2 h _ (Func op') _ _
                    H2h (funcName_setFuncAttr_iff _ _ _ _) Hf2) as HH.
      rewrite decide_False in HH by done. exact HH. }
    by rewrite (lookupSymbolIn_renamed gpuItemName items k _ (GPUFunc kfn')
                  newName Hk eq_refl Hfresh).
  - done.
  - subst kfn'. simpl. by simplify_map_eq.
  - subst kfn'. simpl. by simplify_map_eq.
  - subst kfn'. simpl. by simplify_map_eq.
  - subst kfn'. simpl. by rewrite lookup_insert_eq.
  - subst m3. by rewrite list_lookup_insert_eq by
      (subst m2 m1; by rewrite !length_insert).
  - done.
  - subst op'. simpl. by rewrite lookup_insert_eq.
Qed.

End Pairing.

Lemma launcher_pairing_renames_kernel_witness :
  ∃ m' calleeFnOp' kernel' launchedGPUFnOp' op',
    CreateDeviceFuncLauncherPairPattern.matchAndRewrite
      "accv.emit_header_decl" "accv.emit_raw_pointer_api"
      "accv.exec_runtime" "accv.exec_target"
      ExecutionRuntime.ROCM exampleHostModule 0
    = Some (Normal (success, m'))
    ∧ m' !! 1 = Some (Func calleeFnOp')
    ∧ head (funcBlocks calleeFnOp')
      = Some ([OtherBodyOp "constant"]
              ++ [LaunchFuncOp kernel'; TerminatorOp "return"])
    ∧ kernel' = mkSymbolRefAttr "kernels" [funcName exampleHost +:+ "__gpu__"]
    ∧ lookupKernel m' kernel' = Some (2, 1, launchedGPUFnOp')
    ∧ gpuFuncName launchedGPUFnOp' = funcName exampleHost +:+ "__gpu__"
    ∧ gpuFuncAttrs launchedGPUFnOp' !! "accv.exec_runtime"
      = Some (ExecutionRuntimeAttr ExecutionRuntime.ROCM)
    ∧ gpuFuncAttrs launchedGPUFnOp' !! "accv.exec_target"
      = Some ExecutionTargetGPUAttr
    ∧ gpuFuncAttrs launchedGPUFnOp' !! "accv.emit_header_decl" = Some UnitAttr
    ∧ gpuFuncAttrs launchedGPUFnOp' !! "accv.emit_raw_pointer_api" = Some UnitAttr
    ∧ m' !! 0 = Some (Func op')
    ∧ funcName op' = funcName exampleHost
    ∧ funcAttrs op' !! "accv.exec_runtime"
      = Some (ExecutionRuntimeAttr ExecutionRuntime.ROCM).
Proof.
  assert (Hnames : NoDup ["accv.emit_header_decl"; "accv.emit_raw_pointer_api";
                          "accv.exec_runtime"; "accv.exec_target"])
    by (apply (bool_decide_unpack _); vm_compute; exact I).
  apply (launcher_pairing_renames_kernel
           "accv.emit_header_decl" "accv.emit_raw_pointer_api"
           "accv.exec_runtime" "accv.exec_target"
           Hnames ExecutionRuntime.ROCM exampleHostModule 0
           exampleHost "matmul_impl" (TerminatorOp "return")
           1 exampleLauncher [OtherBodyOp "constant"]
           (mkSymbolRefAttr "kernels" ["kernel0"]) "return"
           2 1 (mkGPUFuncOp "kernel0" blockSize64) "kernels" exampleKernels).
  - reflexivity.
  - eexists. vm_compute. reflexivity.
  - eexists. vm_compute. reflexivity.
  - reflexivity.
  - reflexivity.
  - reflexivity.
  - reflexivity.
  - reflexivity.
  - reflexivity.
Defined.

(** ** The value of an affine map *)

Lemma evalExpr_shiftSymbols dims pre syms e :
  evalExpr dims (pre ++ syms) (shiftSymbols (length pre) e) = evalExpr dims syms e.
Proof.
  induction e; simpl; try done; try (by rewrite IHe1, IHe2).
  by rewrite lookup_app_r, Nat.add_comm, Nat.add_sub by lia.
Qed.

Lemma evalExpr_composeExpr dims syms syms' rs vs ns e :
  mapM (evalExpr dims (syms ++ syms')) rs = Some vs →
  length syms = ns →
  wfExpr (length rs) ns e = true →
  evalExpr dims (syms ++ syms') (composeExpr rs e) = evalExpr vs syms e.
Proof.
  intros Hrs Hns. induction e; simpl; intros Hwf.
  - apply bool_decide_eq_true in Hwf.
    destruct (lookup_lt_is_Some_2 rs position Hwf) as [r Hr]. rewrite Hr. simpl.
    apply mapM_Some in Hrs.
    destruct (Forall2_lookup_l _ _ _ _ _ Hrs Hr) as (v & Hv & Hev). by rewrite Hv.
  - apply bool_decide_eq_true in Hwf. by rewrite lookup_app_l by lia.
  - done.
  - apply andb_true_iff in Hwf as [??]. by rewrite IHe1, IHe2.
  - apply andb_true_iff in Hwf as [??]. by rewrite IHe1, IHe2.
  - apply andb_true_iff in Hwf as [??]. by rewrite IHe1, IHe2.
  - apply andb_true_iff in Hwf as [??]. by rewrite IHe1, IHe2.
Qed.

Lemma mapM_ext_in {A B} (f g : A → option B) l :
  (∀ x, x ∈ l → f x = g x) → mapM f l = mapM g l.
Proof.
  induction l as [|a l IH]; intros H; [done|].
  assert (Heq : mapM f l = mapM g l).
  { apply IH. intros x Hx. apply H. by apply list_elem_of_further. }
  unfold mapM in *. simpl. rewrite (H a) by apply list_elem_of_here.
  by rewrite Heq.
Qed.

Lemma mapM_fmap_list {A B C} (f : B → option C) (g : A → B) l :
  mapM f (g <$> l) = mapM (f ∘ g) l.
Proof.
  induction l as [|a l IH]; [done|]. rewrite fmap_cons.
  change (mapM f (g a :: (g <$> l)))
    with (f (g a) ≫= λ y, mapM f (g <$> l) ≫= λ k, mret (y :: k)).
  by rewrite IH.
Qed.

(** The value of [this.compose(map)]: the operands are the dimension
    operands of [map], the symbol operands of [this], the symbol operands of
    [map]. *)
Lemma evalMap_compose this map m ds symsThis symsMap vs :
  compose (Some this) map = Normal m →
  forallb (wfExpr (getNumDims this) (getNumSymbols this)) (getResults this) = true →
  length ds = getNumDims map →
  length symsThis = getNumSymbols this →
  evalMap map (ds ++ symsMap) = Some vs →
  evalMap m (ds ++ symsThis ++ symsMap) = evalMap this (vs ++ symsThis).
Proof.
  unfold compose. case_bool_decide as Hn; [|done]. intros [= <-] Hwf Hds Hss Hvs.
  unfold evalMap in *. simpl.
  rewrite take_app_length', drop_app_length' in * by done.
  assert (Hlen : length vs = getNumDims this).
  { apply length_mapM in Hvs. lia. }
  rewrite take_app_length', drop_app_length' by done.
  rewrite mapM_fmap_list. apply mapM_ext_in. intros e He. simpl.
  apply (evalExpr_composeExpr _ _ _ _ _ (getNumSymbols this)); [|done|].
  - rewrite mapM_fmap_list. rewrite <- Hvs. apply mapM_ext_in. intros r _. simpl.
    rewrite <- Hss. apply evalExpr_shiftSymbols.
  - rewrite length_fmap, <- Hn.
    rewrite forallb_forall in Hwf. apply Hwf. by apply list_elem_of_In.
Qed.

Lemma idiv_Normal a b : b ≠ 0%Z → idiv a b = Normal (a ÷ b)%Z.
Proof. intros H. unfold idiv. by rewrite (proj2 (Z.eqb_neq _ _) H). Qed.

Lemma idiv_Normal_inv a b q : idiv a b = Normal q → b ≠ 0%Z ∧ q = (a ÷ b)%Z.
Proof.
  unfold idiv. destruct (b =? 0)%Z eqn:Hb; [done|]. intros [= <-].
  by apply Z.eqb_neq in Hb.
Qed.

(** The values of the operands of the composed map. *)
Lemma values_of_mapOperands (ρ : Value → Z) map indices iElem :
  length indices = getNumInputs map →
  ρ <$> mapOperands map indices iElem
  = (ρ <$> take (getNumDims map) indices)
    ++ [ρ iElem; ρ "threadIdx.x"; ρ "threadIdx.y"; ρ "blockDim.x"]
    ++ (ρ <$> drop (getNumDims map) indices).
Proof.
  intros Hlen. unfold mapOperands. rewrite <- Hlen, firstn_all.
  by rewrite !fmap_app.
Qed.

Lemma values_of_indices (ρ : Value → Z) map (indices : list Value) :
  ρ <$> indices
  = (ρ <$> take (getNumDims map) indices) ++ (ρ <$> drop (getNumDims map) indices).
Proof. by rewrite <- fmap_app, take_drop. Qed.

Lemma appliedMaps_app t1 t2 : appliedMaps (t1 ++ t2) = appliedMaps t1 ++ appliedMaps t2.
Proof. apply omap_app. Qed.

Lemma replacementLoop_app t1 t2 :
  replacementLoop (t1 ++ t2) = replacementLoop t1 ++ replacementLoop t2.
Proof. apply omap_app. Qed.

(** What a successful load lowering has gone through. *)
Lemma load_success_inv (op : MFMALoadOp) (t : list RewriteAction) :
  ValueMFMALoadOpToRocDLConversion.matchAndRewrite op = Normal (success, t) →
  ∃ ws layout vecSize elementType composedMap,
    loadWarpSize op = Some ws ∧
    ValueMFMALoadOpToRocDLConversion.selectLayout (loadMatrixType op) (ws.1 * ws.2)%Z
      = Normal (Some layout, vecSize, elementType) ∧
    compose (Some layout) (loadMap op) = Normal composedMap ∧
    appliedMaps t
      = [(composedMap, mapOperands (loadMap op) (loadIndices op) "inductionVar")] ∧
    replacementLoop t = [(0, vecSize, 1)%Z].
Proof.
  unfold ValueMFMALoadOpToRocDLConversion.matchAndRewrite.
  destruct (isValidShape (loadMatrixType op)); [|done]. simpl.
  destruct (loadWarpSize op) as [ws|]; [|done]. simpl.
  destruct (ValueMFMALoadOpToRocDLConversion.selectLayout _ _)
    as [[[layout vecSize] elementType]|] eqn:Hsel; [|done]. simpl.
  destruct layout as [layout|]; [|done].
  destruct (compose (Some layout) (loadMap op)) as [composedMap|] eqn:Hc; [|done].
  simpl. intros [= <-].
  exists ws, layout, vecSize, elementType, composedMap. split_and!; try done.
  - by destruct (isF32 elementType), (isF16 (getElementType (loadMatrixType op))).
  - by destruct (isF32 elementType), (isF16 (getElementType (loadMatrixType op))).
Qed.


(** The layout of the accumulator. *)
Lemma selectLayout_COp mt W layout vecSize elementType :
  getOperand mt = "COp" →
  ValueMFMALoadOpToRocDLConversion.selectLayout mt W
    = Normal (Some layout, vecSize, elementType) →
  ∃ rowE colE,
    getNumBlocks mt ≠ 0%Z ∧
    GetRowColOffsetForCLoadStore W (getLeadingDim mt ÷ getNumBlocks mt)
      = Normal (rowE, colE) ∧
    layout = mkAffineMap 2 4 [AffineAdd (AffineDimExpr 0) rowE;
                              AffineAdd (AffineDimExpr 1) colE] ∧
    vecSize = (getThreadTileSize mt ÷ getNumBlocks mt)%Z.
Proof.
  intros Hrole. unfold ValueMFMALoadOpToRocDLConversion.selectLayout.
  rewrite Hrole. simpl.
  destruct (idiv (getLeadingDim mt) (getNumBlocks mt)) as [ld|] eqn:Hld; [|done].
  apply idiv_Normal_inv in Hld as [Hnb ->]. simpl.
  destruct (GetRowColOffsetForCLoadStore _ _) as [[rowE colE]|]; [|done]. simpl.
  rewrite (idiv_Normal _ _ Hnb). simpl. intros [= <- <- <-].
  by exists rowE, colE.
Qed.

(** The offsets of the accumulator layout, for element [i] of the thread
    with ids [tx], [ty] in a block [bdx] wide. *)
Lemma GetRowColOffsetForCLoadStore_value W L rowE colE dims i tx ty bdx :
  let R := (W ÷ L * 4)%Z in
  let S := (L ÷ R)%Z in
  let wt := ((ty * bdx + tx) mod W)%Z in
  GetRowColOffsetForCLoadStore W L = Normal (rowE, colE) →
  (0 < W)%Z → (0 < L)%Z → (0 < S)%Z →
  evalExpr dims [i; tx; ty; bdx] rowE
    = Some (wt / L * 4 + (i / 4) mod S * R + i mod 4)%Z ∧
  evalExpr dims [i; tx; ty; bdx] colE = Some (wt mod L + i / 4 / S * L)%Z ∧
  wfExpr 2 4 rowE = true ∧ wfExpr 2 4 colE = true.
Proof.
  intros R S wt. unfold GetRowColOffsetForCLoadStore.
  destruct (idiv W L) as [ws|] eqn:Hws; [|done].
  apply idiv_Normal_inv in Hws as [_ ->]. simpl.
  destruct (idiv L _) as [sc|] eqn:Hsc; [|done].
  apply idiv_Normal_inv in Hsc as [_ ->]. simpl. fold R S.
  intros [= <- <-] HW HL HS. simpl.
  rewrite !(proj2 (Z.ltb_lt _ _) HW), !(proj2 (Z.ltb_lt _ _) HL). simpl.
  rewrite !(proj2 (Z.ltb_lt _ _) HS). simpl. done.
Qed.



(** The layouts of the two inputs. *)
Lemma selectLayout_AB_value mt W layout vecSize elementType r c i tx ty bdx :
  let L := getLeadingDim mt in
  let wt := ((tx + ty * bdx) mod W)%Z in
  String.eqb (getOperand mt) "COp" = false →
  ValueMFMALoadOpToRocDLConversion.selectLayout mt W
    = Normal (Some layout, vecSize, elementType) →
  (0 < W)%Z → (0 < L)%Z →
  (getOperand mt = "AOp" ∨ getOperand mt = "BOp") ∧
  getNumDims layout = 2 ∧ getNumSymbols layout = 4 ∧
  forallb (wfExpr 2 4) (getResults layout) = true ∧
  vecSize = getThreadTileSize mt ∧
  evalMap layout ([r; c] ++ [i; tx; ty; bdx])
  = Some (if String.eqb (getOperand mt) "AOp"
          then [ (r + wt mod L)%Z; (c + wt / L + i * (W ÷ L))%Z ]
          else [ (r + wt / L + i * (W ÷ L))%Z; (c + wt mod L)%Z ]).
Proof.
  intros L wt Hrole. unfold ValueMFMALoadOpToRocDLConversion.selectLayout.
  rewrite Hrole. fold L.
  destruct (idiv W L) as [ws|] eqn:Hws; [|done].
  apply idiv_Normal_inv in Hws as [_ ->]. simpl.
  intros Hsel HW HL.
  destruct (String.eqb (getOperand mt) "AOp") eqn:HA;
    [|destruct (String.eqb (getOperand mt) "BOp") eqn:HB; [|done]];
    injection Hsel as <- <- <-.
  - apply String.eqb_eq in HA. split_and!; auto.
    unfold evalMap. simpl.
    rewrite !(proj2 (Z.ltb_lt _ _) HW), !(proj2 (Z.ltb_lt _ _) HL). simpl.
    done.
  - apply String.eqb_eq in HB. split_and!; auto.
    unfold evalMap. simpl.
    rewrite !(proj2 (Z.ltb_lt _ _) HW), !(proj2 (Z.ltb_lt _ _) HL). simpl.
    done.
Qed.



(** X3.  The ROCm store addresses memory as the load of the accumulator
    does.  For a load of role COp and a store of a vector value with the same
    fragment type, access map, indices and warp size, either both rewrites
    are undefined or both return, with the same result, the same loop bounds
    and the same affine map applied to the same operands. *)
Theorem store_addresses_as_accumulator_load (ld : MFMALoadOp) (st : MFMAStoreOp) :
  loadMatrixType ld = storeMatrixType st →
  getOperand (loadMatrixType ld) = "COp" →
  loadMap ld = storeMap st →
  loadIndices ld = storeIndices st →
  loadWarpSize ld = storeWarpSize st →
  isaVectorType (storeValueType st) = true →
  match ValueMFMALoadOpToRocDLConversion.matchAndRewrite ld,
        ValueMFMAStoreOpToRocDLConversion.matchAndRewrite st with
  | Normal (r1, t1), Normal (r2, t2) =>
      r1 = r2 ∧ replacementLoop t1 = replacementLoop t2
      ∧ appliedMaps t1 = appliedMaps t2
  | Undefined, Undefined => True
  | _, _ => False
  end.
Proof.
  intros Hmt Hrole Hmap Hidx Hws Hvec.
  unfold ValueMFMALoadOpToRocDLConversion.matchAndRewrite,
    ValueMFMAStoreOpToRocDLConversion.matchAndRewrite,
    ValueMFMALoadOpToRocDLConversion.selectLayout.
  rewrite Hrole. rewrite Hmt, Hmap, Hidx, Hws. clear Hmt Hrole Hmap Hidx Hws.
  destruct (isValidShape (storeMatrixType st)); [|done]. simpl.
  destruct (storeWarpSize st) as [ws|]; [|done]. simpl.
  destruct (idiv (getLeadingDim _) _) as [l|] eqn:Hl; simpl.
  2: { apply (f_equal (λ x, match x with Undefined => true | _ => false end)) in Hl.
       unfold idiv in *. by destruct (getNumBlocks _ =? 0)%Z. }
  apply idiv_Normal_inv in Hl as [Hnb ->]. rewrite (idiv_Normal _ _ Hnb). simpl.
  destruct (GetRowColOffsetForCLoadStore _ _) as [[rowE colE]|]; [|done]. simpl.
  case_bool_decide; [|done]. simpl.
  destruct (storeValueType st); try done.
  split_and!; [done| |].
  - by destruct (isF32 _ && isF16 _), (isF32 _ && isF16 _).
  - by destruct (isF32 _ && isF16 _), (isF32 _ && isF16 _).
Qed.

Lemma store_addresses_as_accumulator_load_witness :
  ∃ t1 t2,
    ValueMFMALoadOpToRocDLConversion.matchAndRewrite (exampleLoadOp "COp" F32)
    = Normal (success, t1)
    ∧ ValueMFMAStoreOpToRocDLConversion.matchAndRewrite
        (exampleStoreOp "COp" F32 (VectorType 4 F32))
      = Normal (success, t2)
    ∧ replacementLoop t1 = replacementLoop t2
    ∧ appliedMaps t1 = appliedMaps t2.
Proof.
  eexists _, _. split; [reflexivity|]. split; [reflexivity|].
  exact (proj2 (store_addresses_as_accumulator_load
                  (exampleLoadOp "COp" F32)
                  (exampleStoreOp "COp" F32 (VectorType 4 F32))
                  eq_refl eq_refl eq_refl eq_refl eq_refl eq_refl)).
Defined.


Local Open Scope Z_scope.

Lemma divmod_pair_unique b q1 q2 r1 r2 :
  0 ≤ r1 < b → 0 ≤ r2 < b → r1 + q1 * b = r2 + q2 * b → q1 = q2 ∧ r1 = r2.
Proof.
  intros H1 H2 Heq. apply (Z.div_mod_unique b); [lia..|lia].
Qed.

Lemma accumulator_offsets_arith W L wt wt' i i' :
  let R := W ÷ L * 4 in
  let S := L ÷ R in
  0 < L → 0 < W → W mod L = 0 → R ≤ L →
  0 ≤ wt < W → 0 ≤ wt' < W →
  wt / L * 4 + (i / 4) mod S * R + i mod 4
    = wt' / L * 4 + (i' / 4) mod S * R + i' mod 4 →
  wt mod L + i / 4 / S * L = wt' mod L + i' / 4 / S * L →
  i = i' ∧ wt = wt'.
Proof.
  intros R S HL HW Hdiv HR Hwt Hwt' Hrow Hcol.
  assert (Hq : W ÷ L = W / L) by (apply Z.quot_div_nonneg; lia).
  assert (HWL : W = L * (W / L)) by (apply Z.div_exact; lia).
  assert (Hws : 0 < W / L).
  { destruct (Z.le_gt_cases L W); [apply Z.div_str_pos; lia|].
    rewrite Z.div_small in HWL by lia. lia. }
  assert (HR0 : 0 < R) by (subst R; lia).
  assert (HS : 0 < S).
  { subst S. rewrite Z.quot_div_nonneg by lia. apply Z.div_str_pos. lia. }
  assert (Hks : ∀ w, 0 ≤ w < W → 0 ≤ w / L < W / L).
  { intros w Hw. split; [apply Z.div_pos; lia|].
    apply Z.div_lt_upper_bound; [lia|]. lia. }
  pose proof (Hks wt Hwt) as Hk. pose proof (Hks wt' Hwt') as Hk'.
  pose proof (Z.mod_pos_bound wt L HL) as Hm.
  pose proof (Z.mod_pos_bound wt' L HL) as Hm'.
  pose proof (Z.mod_pos_bound i 4 eq_refl) as Ho.
  pose proof (Z.mod_pos_bound i' 4 eq_refl) as Ho'.
  pose proof (Z.mod_pos_bound (i / 4) S HS) as Hb.
  pose proof (Z.mod_pos_bound (i' / 4) S HS) as Hb'.
  destruct (divmod_pair_unique L (i / 4 / S) (i' / 4 / S) (wt mod L) (wt' mod L))
    as [Ha HmEq]; [lia..|].
  destruct (divmod_pair_unique R ((i / 4) mod S) ((i' / 4) mod S)
              (wt / L * 4 + i mod 4) (wt' / L * 4 + i' mod 4))
    as [HbEq Hlow]; [subst R; lia..|].
  destruct (divmod_pair_unique 4 (wt / L) (wt' / L) (i mod 4) (i' mod 4))
    as [HkEq HoEq]; [lia..|].
  split.
  - rewrite (Z.div_mod i 4), (Z.div_mod i' 4) by lia.
    rewrite (Z.div_mod (i / 4) S), (Z.div_mod (i' / 4) S) by lia.
    by rewrite Ha, HbEq, HoEq.
  - rewrite (Z.div_mod wt L), (Z.div_mod wt' L) by lia. by rewrite HkEq, HmEq.
Qed.

Lemma accumulator_offsets_bounds W L wt i :
  let R := W ÷ L * 4 in
  let S := L ÷ R in
  0 < L → 0 < W → W mod L = 0 → R ≤ L →
  0 ≤ wt < W → 0 ≤ i < 4 * S →
  0 ≤ wt / L * 4 + (i / 4) mod S * R + i mod 4 < L
  ∧ 0 ≤ wt mod L + i / 4 / S * L < L.
Proof.
  intros R S HL HW Hdiv HR Hwt Hi.
  assert (Hq : W ÷ L = W / L) by (apply Z.quot_div_nonneg; lia).
  assert (HWL : W = L * (W / L)) by (apply Z.div_exact; lia).
  assert (Hws : 0 < W / L).
  { destruct (Z.le_gt_cases L W); [apply Z.div_str_pos; lia|].
    rewrite Z.div_small in HWL by lia. lia. }
  assert (HR0 : 0 < R) by (subst R; lia).
  assert (HSq : S = L / R) by (subst S; apply Z.quot_div_nonneg; lia).
  assert (HS : 0 < S) by (rewrite HSq; apply Z.div_str_pos; lia).
  assert (Hk : 0 ≤ wt / L < W / L).
  { split; [apply Z.div_pos; lia|]. apply Z.div_lt_upper_bound; lia. }
  pose proof (Z.mod_pos_bound wt L HL) as Hm.
  pose proof (Z.mod_pos_bound i 4 eq_refl) as Ho.
  assert (Hg : 0 ≤ i / 4 < S).
  { split; [apply Z.div_pos; lia|]. apply Z.div_lt_upper_bound; lia. }
  rewrite (Z.mod_small (i / 4) S), (Z.div_small (i / 4) S) by lia.
  assert (HSR : S * R ≤ L) by (rewrite HSq, Z.mul_comm; apply Z.mul_div_le; lia).
  split; [|lia]. subst R. nia.
Qed.

(** X4.  The accumulator layout of [GetRowColOffsetForCLoadStore] gives
    every lane its own elements.  For a positive warp size [W] and leading
    dimension [L] with [L] dividing [W] and [W ÷ L * 4 ≤ L], the two offsets
    have a value for every element index and every thread; for an element
    index below [4 * (L ÷ (W ÷ L * 4))] both lie in [0, L); and two pairs of
    element index and thread with the same offsets have the same element
    index and the same lane [(threadIdx.y * blockDim.x + threadIdx.x) mod
    W]. *)
Theorem accumulator_layout_one_element_per_lane (W L : Z) (rowE colE : AffineExpr) :
  GetRowColOffsetForCLoadStore W L = Normal (rowE, colE) →
  0 < W → 0 < L → W mod L = 0 → W ÷ L * 4 ≤ L →
  let offset (i tx ty bdx : Z) :=
    (evalExpr [] [i; tx; ty; bdx] rowE, evalExpr [] [i; tx; ty; bdx] colE) in
  (∀ i tx ty bdx, ∃ row col,
     offset i tx ty bdx = (Some row, Some col) ∧
     (0 ≤ i < 4 * (L ÷ (W ÷ L * 4)) → 0 ≤ row < L ∧ 0 ≤ col < L)) ∧
  (∀ i tx ty bdx i' tx' ty' bdx',
     offset i tx ty bdx = offset i' tx' ty' bdx' →
     i = i' ∧ (ty * bdx + tx) mod W = (ty' * bdx' + tx') mod W).
Proof.
  intros Hoff HW HL Hdiv HR offset.
  assert (HS : 0 < L ÷ (W ÷ L * 4)).
  { assert (Hq : W ÷ L = W / L) by (apply Z.quot_div_nonneg; lia).
    assert (HWL : W = L * (W / L)) by (apply Z.div_exact; lia).
    assert (0 < W / L).
    { destruct (Z.le_gt_cases L W); [apply Z.div_str_pos; lia|].
      rewrite Z.div_small in HWL by lia. lia. }
    rewrite Z.quot_div_nonneg by lia. apply Z.div_str_pos. lia. }
  assert (Hval := λ i tx ty bdx,
            GetRowColOffsetForCLoadStore_value W L rowE colE [] i tx ty bdx
              Hoff HW HL HS).
  cbv zeta in Hval. split.
  - intros i tx ty bdx. destruct (Hval i tx ty bdx) as (Hr & Hc & _).
    eexists _, _. subst offset. cbv beta. rewrite Hr, Hc. split; [done|].
    intros Hi. apply accumulator_offsets_bounds; try done.
    by apply Z.mod_pos_bound.
  - intros i tx ty bdx i' tx' ty' bdx'. subst offset. cbv beta.
    destruct (Hval i tx ty bdx) as (-> & -> & _).
    destruct (Hval i' tx' ty' bdx') as (-> & -> & _).
    intros [= Hrow Hcol].
    apply (accumulator_offsets_arith W L); try done; by apply Z.mod_pos_bound.
Qed.

Lemma accumulator_layout_one_element_per_lane_witness :
  ∃ rowE colE,
    GetRowColOffsetForCLoadStore 64 16 = Normal (rowE, colE)
    ∧ ∀ i tx ty bdx i' tx' ty' bdx',
        (evalExpr [] [i; tx; ty; bdx] rowE, evalExpr [] [i; tx; ty; bdx] colE)
        = (evalExpr [] [i'; tx'; ty'; bdx'] rowE,
           evalExpr [] [i'; tx'; ty'; bdx'] colE) →
        i = i' ∧ (ty * bdx + tx) mod 64 = (ty' * bdx' + tx') mod 64.
Proof.
  eexists _, _. split; [reflexivity|].
  refine (proj2 (accumulator_layout_one_element_per_lane 64 16 _ _ eq_refl
                   _ _ _ _)); by vm_compute.
Defined.

(** X5.  The layouts of the two inputs give every lane its own elements.
    For a role other than COp, a positive warp size [W] and leading dimension
    [L] with [L] dividing [W], the layout that [selectLayout] returns maps
    element [i] of a thread to one coordinate in [0, L) and one in
    [i * (W ÷ L), (i + 1) * (W ÷ L)), the first being the row for role AOp
    and the column otherwise; and two pairs of element index and thread that
    it maps alike have the same element index and the same lane
    [(threadIdx.x + threadIdx.y * blockDim.x) mod W]. *)
Theorem input_layout_one_element_per_lane (mt : MFMAMatrixType) (W : Z)
    (layout : AffineMap) (vecSize : Z) (elementType : MlirType) :
  let L := getLeadingDim mt in
  getOperand mt ≠ "COp" →
  ValueMFMALoadOpToRocDLConversion.selectLayout mt W
    = Normal (Some layout, vecSize, elementType) →
  0 < W → 0 < L → W mod L = 0 →
  (∀ i tx ty bdx, ∃ a b,
     0 ≤ a < L ∧ i * (W ÷ L) ≤ b < (i + 1) * (W ÷ L) ∧
     evalMap layout [0; 0; i; tx; ty; bdx]
     = Some (if String.eqb (getOperand mt) "AOp" then [a; b] else [b; a])) ∧
  (∀ i tx ty bdx i' tx' ty' bdx',
     evalMap layout [0; 0; i; tx; ty; bdx] = evalMap layout [0; 0; i'; tx'; ty'; bdx'] →
     i = i' ∧ (tx + ty * bdx) mod W = (tx' + ty' * bdx') mod W).
Proof.
  intros L Hrole Hsel HW HL Hdiv. apply String.eqb_neq in Hrole.
  assert (Hq : W ÷ L = W / L) by (apply Z.quot_div_nonneg; lia).
  assert (HWL : W = L * (W / L)) by (apply Z.div_exact; lia).
  assert (Hks : ∀ w, 0 ≤ w < W → 0 ≤ w / L < W / L).
  { intros w Hw. split; [apply Z.div_pos; lia|].
    apply Z.div_lt_upper_bound; lia. }
  assert (Hval := λ i tx ty bdx,
            selectLayout_AB_value mt W layout vecSize elementType 0 0 i tx ty bdx
              Hrole Hsel HW HL).
  cbv zeta in Hval. fold L in Hval. split.
  - intros i tx ty bdx. destruct (Hval i tx ty bdx) as (_ & _ & _ & _ & _ & Hv).
    simpl in Hv. rewrite Hv.
    pose proof (Z.mod_pos_bound (tx + ty * bdx) W HW) as Hwt.
    pose proof (Hks _ Hwt) as Hk.
    pose proof (Z.mod_pos_bound ((tx + ty * bdx) mod W) L HL) as Hm.
    exists (((tx + ty * bdx) mod W) mod L),
      (((tx + ty * bdx) mod W) / L + i * (W ÷ L)).
    split_and!; [lia..|]. by destruct (String.eqb _ "AOp").
  - intros i tx ty bdx i' tx' ty' bdx'.
    destruct (Hval i tx ty bdx) as (_ & _ & _ & _ & _ & Hv).
    destruct (Hval i' tx' ty' bdx') as (_ & _ & _ & _ & _ & Hv').
    simpl in Hv, Hv'. rewrite Hv, Hv'. clear Hv Hv' Hval.
    pose proof (Z.mod_pos_bound (tx + ty * bdx) W HW) as Hwt.
    pose proof (Z.mod_pos_bound (tx' + ty' * bdx') W HW) as Hwt'.
    set (wt := (tx + ty * bdx) mod W) in *.
    set (wt' := (tx' + ty' * bdx') mod W) in *.
    pose proof (Hks _ Hwt) as Hk. pose proof (Hks _ Hwt') as Hk'.
    pose proof (Z.mod_pos_bound wt L HL) as Hm.
    pose proof (Z.mod_pos_bound wt' L HL) as Hm'.
    intros Heq.
    assert (wt mod L = wt' mod L
            ∧ wt / L + i * (W ÷ L) = wt' / L + i' * (W ÷ L)) as [HmEq Hcol].
    { destruct (String.eqb _ "AOp"); injection Heq; lia. }
    destruct (divmod_pair_unique (W ÷ L) i i' (wt / L) (wt' / L))
      as [Hi HkEq]; [lia..|].
    split; [done|].
    rewrite (Z.div_mod wt L), (Z.div_mod wt' L) by lia. by rewrite HkEq, HmEq.
Qed.

Lemma input_layout_one_element_per_lane_witness :
  ∃ layout vecSize elementType,
    ValueMFMALoadOpToRocDLConversion.selectLayout
      (loadMatrixType (exampleLoadOp "AOp" F32)) 64
    = Normal (Some layout, vecSize, elementType)
    ∧ ∀ i tx ty bdx i' tx' ty' bdx',
        evalMap layout [0; 0; i; tx; ty; bdx]
        = evalMap layout [0; 0; i'; tx'; ty'; bdx'] →
        i = i' ∧ (tx + ty * bdx) mod 64 = (tx' + ty' * bdx') mod 64.
Proof.
  eexists _, _, _. split; [reflexivity|].
  refine (proj2 (input_layout_one_element_per_lane
                   (loadMatrixType (exampleLoadOp "AOp" F32)) 64 _ _ _
                   _ eq_refl _ _ _)); by vm_compute.
Defined.

(** X6.  The first element of the first lane is the element that the op
    addresses.  For a successful ROCm load of any role, of an op with as
    many indices as its access map has inputs, with positive warp size, leading dimension and (for role COp) sets per column, the affine
    map that the rewrite applies gives, where the induction variable and the
    two thread ids are 0, the row and the column that the access map of the
    op gives. *)
Theorem lane_zero_first_element (op : MFMALoadOp) (t : list RewriteAction)
    (ρ : Value → Z) (wsx wsy r c : Z) :
  let mt := loadMatrixType op in
  let W := wsx * wsy in
  let L := if String.eqb (getOperand mt) "COp"
           then getLeadingDim mt ÷ getNumBlocks mt else getLeadingDim mt in
  ValueMFMALoadOpToRocDLConversion.matchAndRewrite op = Normal (success, t) →
  loadWarpSize op = Some (wsx, wsy) →
  length (loadIndices op) = getNumInputs (loadMap op) →
  evalMap (loadMap op) (ρ <$> loadIndices op) = Some [r; c] →
  0 < W → 0 < L → (getOperand mt = "COp" → 0 < L ÷ (W ÷ L * 4)) →
  ρ "inductionVar" = 0 → ρ "threadIdx.x" = 0 → ρ "threadIdx.y" = 0 →
  ∃ m ops, appliedMaps t = [(m, ops)] ∧ evalMap m (ρ <$> ops) = Some [r; c].
Proof.
  intros mt W L Hrw Hws Hlen Hacc HW HL HS Hi Hx Hy.
  destruct (load_success_inv _ _ Hrw)
    as (ws & layout & vecSize & elementType & m & Hws' & Hsel & Hc & Hmaps & _).
  rewrite Hws in Hws'. injection Hws' as <-. simpl in Hsel.
  exists m, (mapOperands (loadMap op) (loadIndices op) "inductionVar").
  split; [done|].
  rewrite values_of_mapOperands by done.
  rewrite (values_of_indices ρ (loadMap op)) in Hacc.
  assert (Hnd : length (ρ <$> take (getNumDims (loadMap op)) (loadIndices op))
                = getNumDims (loadMap op)).
  { rewrite length_fmap, length_take. unfold getNumInputs in Hlen. lia. }
  rewrite Hi, Hx, Hy. subst W.
  assert (Hwt0 : (0 * ρ "blockDim.x" + 0) mod (wsx * wsy) = 0)
    by by rewrite Z.mul_0_l.
  assert (Hwt0' : (0 + 0 * ρ "blockDim.x") mod (wsx * wsy) = 0)
    by by rewrite Z.mul_0_l.
  subst L. destruct (String.eqb (getOperand mt) "COp") eqn:Hrole.
  - apply String.eqb_eq in Hrole. specialize (HS Hrole).
    destruct (selectLayout_COp _ _ _ _ _ Hrole Hsel)
      as (rowE & colE & Hnb & Hoff & -> & _).
    destruct (GetRowColOffsetForCLoadStore_value _ _ _ _ [r; c]
                0 0 0 (ρ "blockDim.x") Hoff HW HL HS) as (Hrow & Hcol & Hwr & Hwc).
    rewrite Hwt0 in Hrow, Hcol. simpl in Hrow, Hcol.
    rewrite Z.mod_0_l in Hrow by lia.
    erewrite evalMap_compose; [|exact Hc| |done|done|exact Hacc].
    + unfold evalMap. simpl. rewrite Hrow, Hcol. simpl. by rewrite !Z.add_0_r.
    + simpl. by rewrite Hwr, Hwc.
  - destruct (selectLayout_AB_value _ _ _ _ _ r c 0 0 0 (ρ "blockDim.x")
                Hrole Hsel HW HL) as (_ & Hnd' & Hns & Hwf & _ & Hval).
    rewrite Hwt0' in Hval. rewrite Z.mod_0_l, Z.div_0_l in Hval by lia.
    erewrite evalMap_compose; [|exact Hc| |done| |exact Hacc].
    + rewrite Hval. destruct (String.eqb _ "AOp"); simpl; by rewrite !Z.add_0_r.
    + by rewrite Hnd', Hns.
    + by rewrite Hns.
Qed.

Lemma lane_zero_first_element_witness :
  ∃ m ops,
    appliedMaps (rewriteTrace (ValueMFMALoadOpToRocDLConversion.matchAndRewrite
                                 (exampleLoadOp "COp" F16)))
    = [(m, ops)]
    ∧ evalMap m (exampleFirstLane <$> ops) = Some [32; 48].
Proof.
  apply (lane_zero_first_element (exampleLoadOp "COp" F16) _ exampleFirstLane
           64 1 32 48); [reflexivity..|intros _; reflexivity| | |];
    reflexivity.
Defined.

Lemma compose_inputs this map m :
  compose (Some this) map = Normal m →
  getNumInputs m = (getNumDims map + (getNumSymbols this + getNumSymbols map))%nat.
Proof. unfold compose. case_bool_decide; [|done]. by intros [= <-]. Qed.

Lemma length_mapOperands map (indices : list Value) iElem :
  length indices = getNumInputs map →
  length (mapOperands map indices iElem)
  = (getNumDims map + (4 + getNumSymbols map))%nat.
Proof.
  intros Hlen. unfold mapOperands. rewrite <- Hlen, firstn_all.
  rewrite !length_app, length_take, length_drop. simpl.
  unfold getNumInputs in Hlen. lia.
Qed.

Local Arguments compose : simpl never.

Lemma store_success_inv (op : MFMAStoreOp) (t : list RewriteAction) :
  ValueMFMAStoreOpToRocDLConversion.matchAndRewrite op = Normal (success, t) →
  ∃ ws rowE colE composedMap,
    storeWarpSize op = Some ws ∧
    getNumBlocks (storeMatrixType op) ≠ 0 ∧
    GetRowColOffsetForCLoadStore (ws.1 * ws.2)
      (getLeadingDim (storeMatrixType op) ÷ getNumBlocks (storeMatrixType op))
      = Normal (rowE, colE) ∧
    compose (Some (mkAffineMap 2 4 [AffineAdd (AffineDimExpr 0) rowE;
                                    AffineAdd (AffineDimExpr 1) colE]))
      (storeMap op) = Normal composedMap ∧
    appliedMaps t
      = [(composedMap, mapOperands (storeMap op) (storeIndices op) "inductionVar")] ∧
    replacementLoop t
      = [(0, getThreadTileSize (storeMatrixType op)
             ÷ getNumBlocks (storeMatrixType op), 1)].
Proof.
  unfold ValueMFMAStoreOpToRocDLConversion.matchAndRewrite.
  destruct (isValidShape (storeMatrixType op)); [|done]. simpl.
  destruct (storeWarpSize op) as [ws|]; [|done]. simpl.
  destruct (idiv (getThreadTileSize _) _) as [v|] eqn:Hv; [|done].
  apply idiv_Normal_inv in Hv as [Hnb ->]. simpl.
  rewrite (idiv_Normal _ _ Hnb). simpl.
  destruct (GetRowColOffsetForCLoadStore _ _) as [[rowE colE]|] eqn:Hoff; [|done].
  simpl.
  destruct (compose _ (storeMap op)) as [m|] eqn:Hc; [|done]. simpl.
  destruct (storeValueType op); try done. intros [= <-].
  exists ws, rowE, colE, m. split_and!; try done.
  - by destruct (isF32 _ && isF16 _).
  - by destruct (isF32 _ && isF16 _).
Qed.

Lemma selectLayout_inputs mt W layout vecSize elementType :
  ValueMFMALoadOpToRocDLConversion.selectLayout mt W
    = Normal (Some layout, vecSize, elementType) →
  getNumDims layout = 2%nat ∧ getNumSymbols layout = 4%nat.
Proof.
  unfold ValueMFMALoadOpToRocDLConversion.selectLayout.
  destruct (String.eqb (getOperand mt) "COp").
  - destruct (idiv (getLeadingDim mt) _); [|done]. simpl.
    destruct (GetRowColOffsetForCLoadStore _ _); [|done]. simpl.
    destruct (idiv (getThreadTileSize mt) _); [|done]. simpl.
    by intros [= <- _ _].
  - destruct (idiv W _); [|done]. simpl. unfold compose. simpl.
    destruct (String.eqb _ "AOp"); [by intros [= <- _ _]|].
    destruct (String.eqb _ "BOp"); [by intros [= <- _ _]|done].
Qed.

Lemma compose_dims this map m :
  compose (Some this) map = Normal m → getNumDims m = getNumDims map.
Proof. unfold compose. case_bool_decide; [|done]. by intros [= <-]. Qed.

Lemma mapOperands_parts map (indices : list Value) iElem :
  length indices = getNumInputs map →
  take (getNumDims map) (mapOperands map indices iElem)
    = take (getNumDims map) indices
  ∧ drop (getNumDims map + 4) (mapOperands map indices iElem)
    = drop (getNumDims map) indices.
Proof.
  intros Hlen. unfold mapOperands. rewrite <- Hlen, firstn_all.
  assert (Hnd : length (take (getNumDims map) indices) = getNumDims map).
  { rewrite length_take. unfold getNumInputs in Hlen. lia. }
  split.
  - by rewrite take_app_length'.
  - by rewrite drop_app_add' by done.
Qed.

(** X7.  The affine map that a successful ROCm load or store applies gets as
    many operands as it has inputs, for an op with as many indices as its
    access map has inputs: its dimension operands are the dimension indices
    of the op, four operands follow (element index, the two thread ids, the
    block dimension), and the rest are the symbol indices of the op. *)
Theorem map_operand_count :
  (∀ (op : MFMALoadOp) t m ops,
     ValueMFMALoadOpToRocDLConversion.matchAndRewrite op = Normal (success, t) →
     length (loadIndices op) = getNumInputs (loadMap op) →
     (m, ops) ∈ appliedMaps t →
     length ops = getNumInputs m
     ∧ take (getNumDims m) ops = take (getNumDims (loadMap op)) (loadIndices op)
     ∧ drop (getNumDims m + 4) ops
       = drop (getNumDims (loadMap op)) (loadIndices op)) ∧
  (∀ (op : MFMAStoreOp) t m ops,
     ValueMFMAStoreOpToRocDLConversion.matchAndRewrite op = Normal (success, t) →
     length (storeIndices op) = getNumInputs (storeMap op) →
     (m, ops) ∈ appliedMaps t →
     length ops = getNumInputs m
     ∧ take (getNumDims m) ops = take (getNumDims (storeMap op)) (storeIndices op)
     ∧ drop (getNumDims m + 4) ops
       = drop (getNumDims (storeMap op)) (storeIndices op)).
Proof.
  split.
  - intros op t m ops Hrw Hlen Hin.
    destruct (load_success_inv _ _ Hrw)
      as (ws & layout & vecSize & elementType & m' & _ & Hsel & Hc & Hmaps & _).
    rewrite Hmaps in Hin. apply list_elem_of_singleton in Hin as [= -> ->].
    destruct (selectLayout_inputs _ _ _ _ _ Hsel) as [_ Hns].
    rewrite (compose_inputs _ _ _ Hc), (compose_dims _ _ _ Hc), Hns.
    rewrite length_mapOperands by done.
    split; [done|]. by apply mapOperands_parts.
  - intros op t m ops Hrw Hlen Hin.
    destruct (store_success_inv _ _ Hrw)
      as (ws & rowE & colE & m' & _ & _ & _ & Hc & Hmaps & _).
    rewrite Hmaps in Hin. apply list_elem_of_singleton in Hin as [= -> ->].
    rewrite (compose_inputs _ _ _ Hc), (compose_dims _ _ _ Hc).
    rewrite length_mapOperands by done.
    split; [done|]. by apply mapOperands_parts.
Qed.

Local Open Scope nat_scope.

(** ** The three passes *)

(** X8.  A pass that [createAcceraToGPUPass] returns for a runtime acts on
    the modules of that runtime only.  It takes steps exactly when the
    runtime resolved for the module is the requested one (ROCM for a request
    of DEFAULT); without steps it signals no failure; with steps it starts
    with the barrier hoisting, signals failure exactly when the full
    conversion fails, and pairs launchers for the resolved runtime only.  A
    module whose resolved runtime is DEFAULT is left alone by every pass. *)
Theorem selected_pass_acts_on_its_runtime (runtime : ExecutionRuntime.t) (p : Pass)
    (resolved : option ExecutionRuntime.t) (conversion : LogicalResult) :
  createAcceraToGPUPass runtime = Some p →
  let steps := (runOnOperation p resolved conversion).1 in
  let signalPassFailure := (runOnOperation p resolved conversion).2 in
  (steps ≠ [] ↔
     resolved = Some (if bool_decide (runtime = ExecutionRuntime.DEFAULT)
                      then ExecutionRuntime.ROCM else runtime)) ∧
  (steps = [] → signalPassFailure = false) ∧
  (steps ≠ [] →
     head steps = Some (applyPatternsAndFoldGreedily
                          [RewritePattern.ConditionalBarrierHoistingPattern]) ∧
     signalPassFailure = failed conversion ∧
     ∀ ps r, applyPatternsAndFoldGreedily ps ∈ steps →
             RewritePattern.CreateDeviceFuncLauncherPairPattern r ∈ ps →
             resolved = Some r) ∧
  (resolved = Some ExecutionRuntime.DEFAULT → steps = []).
Proof.
  intros Hp steps sig. subst steps sig.
  destruct runtime; simpl in Hp; try discriminate; injection Hp as <-;
    unfold runOnOperation, hasRuntimeTarget;
    (destruct resolved as [[]|]; simpl;
     (split_and!;
      [ split; [by intros ?|by intros [=]]
      | try done
      | intros Hne; try done
      | try done ])).
  all: split_and!; try done.
  all: intros ps r Hin Hr;
    repeat (apply elem_of_cons in Hin as [Hin|Hin]; [simplify_eq|]);
    try (by apply elem_of_nil in Hin);
    repeat (apply elem_of_cons in Hr as [Hr|Hr]; [simplify_eq|]);
    try (by apply elem_of_nil in Hr); done.
Qed.

Lemma selected_pass_acts_on_its_runtime_witness :
  createAcceraToGPUPass ExecutionRuntime.DEFAULT = Some AcceraToROCDLPass
  ∧ head (runOnOperation AcceraToROCDLPass (Some ExecutionRuntime.ROCM) failure).1
    = Some (applyPatternsAndFoldGreedily
              [RewritePattern.ConditionalBarrierHoistingPattern])
  ∧ (runOnOperation AcceraToROCDLPass (Some ExecutionRuntime.ROCM) failure).2
    = true.
Proof.
  split; [reflexivity|].
  destruct (selected_pass_acts_on_its_runtime ExecutionRuntime.DEFAULT
              AcceraToROCDLPass (Some ExecutionRuntime.ROCM) failure eq_refl)
    as (Hacts & _ & Hsteps & _).
  destruct Hsteps as (Hhead & Hsignal & _).
  - apply Hacts. reflexivity.
  - split; [exact Hhead|exact Hsignal].
Defined.

Lemma applyPattern_rootOp pat op r :
  applyPattern pat op = Some r → rootOp pat = kindOf op.
Proof. by destruct pat, op. Qed.

(** X9.  The ROCDL and the NVVM pipelines have one pattern for every
    operation type that their conversion target declares illegal, and no
    pattern for any other type; every source operation is of an illegal type
    and is tried by exactly one pattern. *)
Theorem illegal_ops_have_one_pattern (p : Pass) (target : ConversionTarget) :
  targetOf p = Some target →
  (∀ k, k ∈ illegalOps target →
        length (filter (λ pat, rootOp pat = k) (patternsOf p)) = 1) ∧
  (∀ pat, pat ∈ patternsOf p → rootOp pat ∈ illegalOps target) ∧
  (∀ op, kindOf op ∈ illegalOps target ∧ length (lower p op) = 1).
Proof.
  intros Ht. destruct p; simpl in Ht; try discriminate; injection Ht as <-.
  - split_and!.
    + intros k Hk. simpl in Hk.
      repeat (apply elem_of_cons in Hk as [->|Hk]; [reflexivity|]).
      by apply elem_of_nil in Hk.
    + intros pat Hpat. simpl in Hpat.
      repeat (apply elem_of_cons in Hpat as [->|Hpat];
              [simpl; unfold illegalFragmentAndQueryOps; set_solver|]).
      by apply elem_of_nil in Hpat.
    + intros op. split; [|by destruct op].
      destruct op; simpl; unfold illegalFragmentAndQueryOps; set_solver.
  - split_and!.
    + intros k Hk. simpl in Hk.
      repeat (apply elem_of_cons in Hk as [->|Hk]; [reflexivity|]).
      by apply elem_of_nil in Hk.
    + intros pat Hpat. simpl in Hpat.
      repeat (apply elem_of_cons in Hpat as [->|Hpat];
              [simpl; unfold illegalFragmentAndQueryOps; set_solver|]).
      by apply elem_of_nil in Hpat.
    + intros op. split; [|by destruct op].
      destruct op; simpl; unfold illegalFragmentAndQueryOps; set_solver.
Qed.

Lemma illegal_ops_have_one_pattern_witness :
  targetOf AcceraToNVVMPass = Some nvvmTarget
  ∧ length (filter (λ pat, rootOp pat = OpKind.BarrierOp)
              (patternsOf AcceraToNVVMPass)) = 1.
Proof.
  split; [reflexivity|].
  apply (proj1 (illegal_ops_have_one_pattern AcceraToNVVMPass nvvmTarget eq_refl)).
  do 5 apply list_elem_of_further. apply list_elem_of_here.
Defined.


Lemma load_creates_block_dim (op : MFMALoadOp) t :
  ValueMFMALoadOpToRocDLConversion.matchAndRewrite op = Normal (success, t) →
  Create rewriter "blockDim.x" (gpu_BlockDimOp "x") ∈ t.
Proof.
  unfold ValueMFMALoadOpToRocDLConversion.matchAndRewrite.
  destruct (isValidShape _); [|done]. simpl.
  destruct (loadWarpSize op); [|done]. simpl.
  destruct (ValueMFMALoadOpToRocDLConversion.selectLayout _ _)
    as [[[layout ?] ?]|]; [|done]. simpl.
  destruct (compose layout _); [|done]. simpl. intros [= <-].
  do 3 apply list_elem_of_further. apply list_elem_of_here.
Qed.

Lemma store_creates_block_dim (op : MFMAStoreOp) t :
  ValueMFMAStoreOpToRocDLConversion.matchAndRewrite op = Normal (success, t) →
  Create rewriter "blockDim.x" (gpu_BlockDimOp "x") ∈ t.
Proof.
  unfold ValueMFMAStoreOpToRocDLConversion.matchAndRewrite.
  destruct (isValidShape _); [|done]. simpl.
  destruct (storeWarpSize op); [|done]. simpl.
  destruct (idiv (getThreadTileSize _) _); [|done]. simpl.
  destruct (idiv (getLeadingDim _) _); [|done]. simpl.
  destruct (GetRowColOffsetForCLoadStore _ _); [|done]. simpl.
  destruct (compose _ _); [|done]. simpl.
  destruct (storeValueType op); try done. intros [= <-].
  do 3 apply list_elem_of_further. apply list_elem_of_here.
Qed.

(** X10.  The ROCm lowering of a fragment load or store creates a query that
    only a kernel with a declared block size resolves.  Every successful ROCm load or store rewrite
    creates a [gpu.block_dim x] operation; that operation type is illegal
    for the ROCDL target; and in a kernel without a [blockSize] attribute
    (or outside any kernel) the only pattern for it fails without touching
    the IR. *)
Theorem fragment_addressing_needs_block_size (parents : list ParentOp) :
  (∀ gpuFunc, getParentOfType GPUFuncOpKind parents = Some gpuFunc →
              getArrayAttr (parentAttrs gpuFunc) "blockSize" = None) →
  (∀ r t, (∃ op, r ∈ lower AcceraToROCDLPass (src_MFMALoadOp op))
          ∨ (∃ op, r ∈ lower AcceraToROCDLPass (src_MFMAStoreOp op)) →
          r = Normal (success, t) →
          Create rewriter "blockDim.x" (gpu_BlockDimOp "x") ∈ t) ∧
  OpKind.BlockDimOp ∈ illegalOps rocdlTarget ∧
  ∀ dim, lower AcceraToROCDLPass (src_BlockDimOp parents dim)
         = [Normal (failure, [])].
Proof.
  intros Hno. split_and!.
  - intros r t [[op Hr]|[op Hr]] ->; simpl in Hr;
      apply list_elem_of_singleton in Hr.
    + by apply (load_creates_block_dim op).
    + by apply (store_creates_block_dim op).
  - simpl. unfold illegalFragmentAndQueryOps. set_solver.
  - intros dim. unfold lower. simpl. f_equal.
    unfold ResolveBlockDimPattern.matchAndRewrite.
    destruct (getParentOfType GPUFuncOpKind parents) as [gpuFunc|] eqn:Hp.
    + by rewrite (Hno gpuFunc eq_refl).
    + done.
Qed.

Lemma fragment_addressing_needs_block_size_witness :
  Create rewriter "blockDim.x" (gpu_BlockDimOp "x")
    ∈ rewriteTrace (ValueMFMALoadOpToRocDLConversion.matchAndRewrite
                      (exampleLoadOp "AOp" F32))
  ∧ lower AcceraToROCDLPass (src_BlockDimOp exampleUnsizedKernelParents "x")
    = [Normal (failure, [])].
Proof.
  destruct (fragment_addressing_needs_block_size exampleUnsizedKernelParents)
    as (Hcreates & _ & Hfails).
  - intros gpuFunc Hparent. injection Hparent as <-. reflexivity.
  - split; [|exact (Hfails "x")].
    apply (Hcreates (ValueMFMALoadOpToRocDLConversion.matchAndRewrite
                       (exampleLoadOp "AOp" F32))); [|reflexivity].
    left. exists (exampleLoadOp "AOp" F32). apply list_elem_of_here.
Defined.

(** ** What a failing pattern leaves behind *)






(** ** Hoisting: the count of barriers and the other operations *)

Lemma countBlock_updBlock f B p Bp :
  getBlock B p = Some Bp →
  countBlock (updBlock f B p) + countBlock Bp = countBlock B + countBlock (f Bp).
Proof.
  revert B. induction p as [|s p IH]; intros B H; simpl in *.
  - simplify_eq. lia.
  - unfold child in H.
    destruct (B !! s.1) as [o|] eqn:Ho; [|done]. simpl in H.
    destruct (opBlocks o !! s.2) as [B'|] eqn:Hb; [|done]. simpl in H.
    specialize (IH _ H).
    set (o' := mkOp _ _).
    assert (Ho' : countBarriers o' + countBlock Bp
                  = countBarriers o + countBlock (f Bp)).
    { rewrite (countBarriers_unfold o), (countBarriers_unfold o'). subst o'. simpl.
      rewrite map_insert_list.
      pose proof (list_sum_insert (List.map countBlock (opBlocks o)) s.2
                    (countBlock B') (countBlock (updBlock f B' p))) as Hs.
      rewrite map_lookup_list, Hb in Hs. specialize (Hs eq_refl). lia. }
    unfold countBlock at 1. rewrite map_insert_list.
    pose proof (list_sum_insert (List.map countBarriers B) s.1
                  (countBarriers o) (countBarriers o')) as Hs.
    rewrite map_lookup_list, Ho in Hs. specialize (Hs eq_refl).
    unfold countBlock in *. lia.
Qed.

Lemma countBlock_app B1 B2 : countBlock (B1 ++ B2) = countBlock B1 + countBlock B2.
Proof. unfold countBlock. by rewrite List.map_app, list_sum_app. Qed.

Lemma hoistStep_count B B' :
  regionFreeBlock B = true → hoistStep B B' → countBlock B' = countBlock B + 1.
Proof.
  intros Hw (loc & op & Hop & Hbar & (o & Ho & Hc) & Hrw).
  destruct (ConditionalBarrierHoistingPattern.GetAncestorIfOp B loc) as [k|] eqn:Hk.
  2: { pose proof (proj1 (GetAncestorIfOp_None _ _) Hk) as Hn.
       by rewrite (Hn o Ho) in Hc. }
  pose proof Hk as Hk'.
  apply (proj1 (GetAncestorIfOp_Some _ _ _)) in Hk' as (A & HA & HcA & Hmin).
  apply ancestors_lookup in HA as (i & b & Bp & Hs & HBp & HA).
  destruct (hoist_rewrite_shape _ _ _ _ _ _ _ _ Hop Hbar Hk Hs HBp HA)
    as ((Bb & HBb & Hrel) & Hrw').
  rewrite Hrw' in Hrw. simplify_eq.
  pose proof (regionFree_getOp _ _ _ Hw Hop) as Hwop.
  assert (Hop1 : countBarriers op = 1).
  { rewrite regionFreeBarriers_unfold, Hbar in Hwop.
    apply andb_true_iff in Hwop as [Hl _]. apply bool_decide_eq_true in Hl.
    by rewrite countBarriers_unfold, Hbar, Hl. }
  pose proof (eraseOpIn_count _ _ _ _ _ _ HBb Hrel) as Hcount.
  pose proof (countBlock_updBlock
                (λ _, take i Bp
                      ++ [op; eraseOpIn A b (drop (S k) (path loc)) (idx loc); op]
                      ++ drop (S i) Bp) B (take k (path loc)) Bp HBp) as Hupd.
  cbv beta in Hupd.
  assert (HBp' : countBlock Bp
                 = countBlock (take i Bp)
                   + (countBarriers A + countBlock (drop (S i) Bp))).
  { rewrite <- (take_drop_middle _ _ _ HA) at 1. by rewrite countBlock_app. }
  rewrite !countBlock_app in Hupd.
  assert (H3 : ∀ x y z, countBlock [x; y; z]
                        = countBarriers x + countBarriers y + countBarriers z).
  { intros. unfold countBlock. simpl. lia. }
  rewrite H3 in Hupd. lia.
Qed.

(** X12.  In a module whose barriers have no regions, every application of
    the hoisting pattern to a barrier inside a conditional adds one barrier
    to the module: after [n] applications the
    module has [n] barriers more.  A run that leaves no barrier inside a
    conditional has as many applications as there were barriers inside
    conditionals, and ends with that many barriers more. *)
Theorem hoisting_adds_one_barrier_per_step (B B' : OpBlock) (n : nat) :
  regionFreeBlock B = true →
  nsteps hoistStep n B B' →
  countBlock B' = countBlock B + n
  ∧ (noBarrierInConditional B' →
     n = barriersInConditionalsOfBlock B
     ∧ countBlock B' = countBlock B + barriersInConditionalsOfBlock B).
Proof.
  intros Hw Hrun.
  assert (Hcount : countBlock B' = countBlock B + n).
  { clear -Hw Hrun. revert Hw.
    induction Hrun as [B|n B B1 B' Hstep Hrun IH]; intros Hw; [lia|].
    destruct (hoistStep_measure _ _ Hw Hstep) as [_ Hw1].
    rewrite (IH Hw1), (hoistStep_count _ _ Hw Hstep). lia. }
  split; [done|]. intros Hno.
  destruct (hoist_run_measure _ _ _ Hw Hrun) as [Hm _].
  assert (barriersInConditionalsOfBlock B' = 0).
  { destruct (barriersInConditionalsOfBlock B') as [|m] eqn:Hb; [done|].
    destruct (barrier_in_conditional_exists B') as (loc & op & Hop & Hbar & o & Ho & Hc);
      [lia|].
    by rewrite (Hno loc op Hop Hbar o Ho) in Hc. }
  lia.
Qed.

Lemma hoisting_adds_one_barrier_per_step_witness :
  nsteps hoistStep 1 hoisting_example_module hoisting_example_hoisted
  ∧ countBlock hoisting_example_hoisted = countBlock hoisting_example_module + 1.
Proof.
  assert (Hrun : nsteps hoistStep 1 hoisting_example_module
                   hoisting_example_hoisted).
  { apply (nsteps_l _ _ _ hoisting_example_hoisted); [|apply nsteps_O].
    exists (mkLoc [(0, 0); (1, 0); (0, 0)] 0),
      (mkOp (BarrierOp BarrierScope.Block) []).
    split_and!; [reflexivity|reflexivity| |reflexivity].
    exists (mkOp SCFIfOp
              [[ mkOp AffineIfOp [[ mkOp (BarrierOp BarrierScope.Block) [] ]] ]]).
    split; [|reflexivity]. simpl. apply list_elem_of_further, list_elem_of_here. }
  split; [exact Hrun|].
  exact (proj1 (hoisting_adds_one_barrier_per_step hoisting_example_module
                  hoisting_example_hoisted 1 eq_refl Hrun)).
Defined.

Lemma stripBarriers_unfold o :
  stripBarriers o = mkOp (opName o) (List.map stripBlock (opBlocks o)).
Proof. by destruct o. Qed.

Lemma stripBlock_app B1 B2 : stripBlock (B1 ++ B2) = stripBlock B1 ++ stripBlock B2.
Proof. unfold stripBlock. by rewrite List.map_app, filter_app. Qed.

Lemma stripBlock_cons o B :
  stripBlock (o :: B)
  = if isBarrierOp (opName o) then stripBlock B else stripBarriers o :: stripBlock B.
Proof.
  unfold stripBlock. simpl. rewrite filter_cons.
  rewrite (stripBarriers_unfold o). simpl.
  destruct (isBarrierOp (opName o)); by case_decide.
Qed.

Lemma stripBlock_delete B j op :
  B !! j = Some op → isBarrierOp (opName op) = true →
  stripBlock (delete j B) = stripBlock B.
Proof.
  revert j. induction B as [|o B IH]; intros [|j] H Hbar; simplify_eq/=.
  - by rewrite stripBlock_cons, Hbar.
  - rewrite !stripBlock_cons. by rewrite (IH _ H Hbar).
Qed.

Lemma stripBlock_insert B i o o' :
  B !! i = Some o → opName o' = opName o → stripBarriers o' = stripBarriers o →
  stripBlock (<[i := o']> B) = stripBlock B.
Proof.
  revert i. induction B as [|a B IH]; intros [|i] H Hn Hs; simplify_eq/=.
  - by rewrite !stripBlock_cons, Hn, Hs.
  - rewrite !stripBlock_cons. by rewrite (IH _ H Hn Hs).
Qed.

Lemma stripBlock_updBlock f B p Bp :
  getBlock B p = Some Bp → stripBlock (f Bp) = stripBlock Bp →
  stripBlock (updBlock f B p) = stripBlock B.
Proof.
  revert B. induction p as [|s p IH]; intros B H Hf; simpl in *.
  - by simplify_eq.
  - unfold child in H.
    destruct (B !! s.1) as [o|] eqn:Ho; [|done]. simpl in H.
    destruct (opBlocks o !! s.2) as [B'|] eqn:Hb; [|done]. simpl in H.
    specialize (IH _ H Hf).
    apply (stripBlock_insert _ _ o); [done|done|].
    rewrite !stripBarriers_unfold. simpl. f_equal.
    rewrite map_insert_list, IH.
    apply list_insert_id. by rewrite map_lookup_list, Hb.
Qed.

Lemma hoistStep_strip B B' : hoistStep B B' → stripBlock B' = stripBlock B.
Proof.
  intros (loc & op & Hop & Hbar & (o & Ho & Hc) & Hrw).
  destruct (ConditionalBarrierHoistingPattern.GetAncestorIfOp B loc) as [k|] eqn:Hk.
  2: { pose proof (proj1 (GetAncestorIfOp_None _ _) Hk) as Hn.
       by rewrite (Hn o Ho) in Hc. }
  pose proof Hk as Hk'.
  apply (proj1 (GetAncestorIfOp_Some _ _ _)) in Hk' as (A & HA & HcA & Hmin).
  apply ancestors_lookup in HA as (i & b & Bp & Hs & HBp & HA).
  destruct (hoist_rewrite_shape _ _ _ _ _ _ _ _ Hop Hbar Hk Hs HBp HA)
    as ((Bb & HBb & Hrel) & Hrw').
  rewrite Hrw' in Hrw. simplify_eq.
  apply (stripBlock_updBlock _ _ _ Bp HBp).
  set (A' := eraseOpIn A b (drop (S k) (path loc)) (idx loc)).
  assert (HnA' : opName A' = opName A) by (subst A'; unfold eraseOpIn; by rewrite HBb).
  assert (HsA' : stripBarriers A' = stripBarriers A).
  { subst A'. unfold eraseOpIn. rewrite HBb.
    rewrite !stripBarriers_unfold. simpl. f_equal.
    rewrite map_insert_list.
    unfold getOp in Hrel. simpl in Hrel.
    destruct (getBlock Bb (drop (S k) (path loc))) as [Bq|] eqn:HBq; [|done].
    simpl in Hrel.
    rewrite (stripBlock_updBlock _ _ _ Bq HBq)
      by (by apply (stripBlock_delete _ _ op)).
    apply list_insert_id. by rewrite map_lookup_list, HBb. }
  assert (HBpeq : stripBlock Bp
                  = stripBlock (take i Bp)
                    ++ stripBarriers A :: stripBlock (drop (S i) Bp)).
  { rewrite <- (take_drop_middle _ _ _ HA) at 1.
    by rewrite stripBlock_app, stripBlock_cons, (conditional_not_barrier _ HcA). }
  rewrite HBpeq, stripBlock_app. f_equal.
  change ([op; A'; op] ++ drop (S i) Bp) with (op :: A' :: op :: drop (S i) Bp).
  rewrite !stripBlock_cons, Hbar, HnA', (conditional_not_barrier _ HcA).
  by rewrite HsA'.
Qed.

(** X13.  Hoisting moves barriers and nothing else: after any number of
    applications of the hoisting pattern the module without its barrier
    operations is the module it was without its barrier operations, in the
    same order and nesting. *)
Theorem hoisting_preserves_other_operations (B B' : OpBlock) (n : nat) :
  nsteps hoistStep n B B' → stripBlock B' = stripBlock B.
Proof.
  induction 1 as [B|n B B1 B' Hstep Hrun IH]; [done|].
  by rewrite IH, (hoistStep_strip _ _ Hstep).
Qed.

Lemma hoisting_preserves_other_operations_witness :
  stripBlock hoisting_example_hoisted = stripBlock hoisting_example_module.
Proof.
  apply (hoisting_preserves_other_operations _ _ 1).
  apply (nsteps_l _ _ _ hoisting_example_hoisted); [|apply nsteps_O].
  exists (mkLoc [(0, 0); (1, 0); (0, 0)] 0),
    (mkOp (BarrierOp BarrierScope.Block) []).
  split_and!; [reflexivity|reflexivity| |reflexivity].
  exists (mkOp SCFIfOp
            [[ mkOp AffineIfOp [[ mkOp (BarrierOp BarrierScope.Block) [] ]] ]]).
  split; [|reflexivity]. simpl. apply list_elem_of_further, list_elem_of_here.
Defined.

(** ** The pairing fires once *)

Lemma last_Some_snoc {A} (l : list A) x : last l = Some x → l = removelast l ++ [x].
Proof.
  induction l as [|a [|b l] IH]; intros H; simplify_eq/=; [done|].
  f_equal. by apply IH.
Qed.

Section PairingOnce.
Variables HeaderDeclAttrName RawPointerAPIAttrName : string.
Variables ExecRuntimeAttrName ExecTargetAttrName : string.

Local Abbreviation pairing := (CreateDeviceFuncLauncherPairPattern.matchAndRewrite
  HeaderDeclAttrName RawPointerAPIAttrName ExecRuntimeAttrName ExecTargetAttrName).

(** What a successful pairing has found, and what it returns. *)
Lemma pairing_success_inv _target m h m' :
  pairing _target m h = Some (Normal (success, m')) →
  ∃ op x callee c calleeFnOp pre kernel back g k f gname items,
    m !! h = Some (Func op) ∧
    is_Some (funcAttrs op !! HeaderDeclAttrName) ∧
    is_Some (funcAttrs op !! RawPointerAPIAttrName) ∧
    head (funcBlocks op) = Some [CallOp callee; x] ∧
    lookupSymbolIn itemName m callee = Some (c, Func calleeFnOp) ∧
    head (funcBlocks calleeFnOp) = Some (pre ++ [LaunchFuncOp kernel; back]) ∧
    isTerminator back = true ∧
    lookupKernel m kernel = Some (g, k, f) ∧
    m !! g = Some (GPUModule gname items) ∧
    lookupSymbolIn gpuItemName items (funcName op +:+ "__gpu__") = None ∧
    m' = updateFunc
           (setFuncAttr ExecRuntimeAttrName (ExecutionRuntimeAttr _target)) h
           (updateFunc
              (setFrontOp (length (pre ++ [LaunchFuncOp kernel; back]) - 2)
                 (LaunchFuncOp (mkSymbolRefAttr (getRootReference kernel)
                                  [funcName op +:+ "__gpu__"])))
              c
              (updateGPUFunc
                 (setGPUFuncName (funcName op +:+ "__gpu__")
                  ∘ setGPUFuncAttr RawPointerAPIAttrName UnitAttr
                  ∘ setGPUFuncAttr HeaderDeclAttrName UnitAttr
                  ∘ setGPUFuncAttr ExecTargetAttrName ExecutionTargetGPUAttr
                  ∘ setGPUFuncAttr ExecRuntimeAttrName
                      (ExecutionRuntimeAttr _target))
                 g k m)).
Proof.
  unfold CreateDeviceFuncLauncherPairPattern.matchAndRewrite.
  destruct (m !! h) as [[op| |]|] eqn:Hh; try done. intros [= H]. revert H.
  case_bool_decide as Hhd; simpl; [|done].
  case_bool_decide as Hrp; simpl; [|done].
  destruct (head (funcBlocks op)) as [front|] eqn:Hfront; [|done]. simpl.
  destruct (last front) as [x|] eqn:Hx; [|done]. simpl.
  destruct (removelast front) as [|[callee| | |] [|]] eqn:Hrm; try done.
  destruct (lookupSymbolIn itemName m callee) as [[c [calleeFnOp| |]]|] eqn:Hcallee;
    try done.
  destruct (head (funcBlocks calleeFnOp)) as [calleeFront|] eqn:Hcf; [|done]. simpl.
  destruct (last calleeFront) as [back|] eqn:Hback; [|done]. simpl.
  destruct (isTerminator back) eqn:Hterm; [|done]. simpl.
  destruct (last (removelast calleeFront)) as [[|kernel| |]|] eqn:Hlaunch; try done.
  simpl.
  destruct (lookupKernel m kernel) as [[[g k] f]|] eqn:Hkernel; [|done].
  destruct (m !! g) as [[|gname items|]|] eqn:Hg; try done.
  case_bool_decide as Hcoll; [done|]. intros [= <-].
  apply last_Some_snoc in Hx. rewrite Hrm in Hx. simpl in Hx.
  apply last_Some_snoc in Hback. apply last_Some_snoc in Hlaunch.
  rewrite Hlaunch, <- app_assoc in Hback. simpl in Hback.
  exists op, x, callee, c, calleeFnOp, (removelast (removelast calleeFront)),
    kernel, back, g, k, f, gname, items.
  rewrite <- Hback. split_and!; try done.
  - by rewrite <- Hx.
  - destruct (lookupSymbolIn gpuItemName items _) eqn:E; [|done].
    exfalso. apply Hcoll. by eexists.
Qed.

(** X14.  The launcher pairing changes the module only when it succeeds, and
    only for a function that carries both the header-declaration and the
    raw-pointer-API attribute: whenever the rewrite returns a module other
    than the one it was given, its result is success and the operation it
    was applied to is such a function. *)
Theorem pairing_failure_leaves_module
    (_target : ExecutionRuntime.t) (m : list ModuleItem) (h : nat)
    (r : LogicalResult) (m' : list ModuleItem) :
  pairing _target m h = Some (Normal (r, m')) →
  m' ≠ m → r = success ∧ ∃ op, m !! h = Some (Func op) ∧
                               is_Some (funcAttrs op !! HeaderDeclAttrName) ∧
                               is_Some (funcAttrs op !! RawPointerAPIAttrName).
Proof.
  unfold CreateDeviceFuncLauncherPairPattern.matchAndRewrite.
  destruct (m !! h) as [[op| |]|] eqn:Hh; try done. intros [= H] Hne. revert H.
  case_bool_decide as Hhd; simpl; [|by intros [= <- <-]].
  case_bool_decide as Hrp; simpl; [|by intros [= <- <-]].
  destruct (head (funcBlocks op)) as [front|] eqn:Hfront; [|done]. simpl.
  destruct (last front) as [x|] eqn:Hx; [|done]. simpl.
  destruct (removelast front) as [|[callee| | |] [|]] eqn:Hrm;
    try (by intros [= <- <-]).
  destruct (lookupSymbolIn itemName m callee) as [[c [calleeFnOp| |]]|] eqn:Hcallee;
    try (by intros [= <- <-]).
  destruct (head (funcBlocks calleeFnOp)) as [calleeFront|] eqn:Hcf; [|done]. simpl.
  destruct (last calleeFront) as [back|] eqn:Hback; [|done]. simpl.
  destruct (isTerminator back) eqn:Hterm; [|done]. simpl.
  destruct (last (removelast calleeFront)) as [[|kernel| |]|] eqn:Hlaunch;
    try done; simpl; try (by intros [= <- <-]).
  destruct (lookupKernel m kernel) as [[[g k] f]|] eqn:Hkernel;
    [|by intros [= <- <-]].
  destruct (m !! g) as [[|gname items|]|] eqn:Hg; try (by intros [= <- <-]).
  case_bool_decide as Hcoll; [by intros [= <- <-]|]. intros [= <- <-].
  split; [done|]. by exists op.
Qed.

Lemma list_find_insert_other {A} (P : A → Prop) `{!∀ x, Decision (P x)}
    (l : list A) i x y j z :
  l !! i = Some x → (P x ↔ P y) → j ≠ i → list_find P l = Some (j, z) →
  list_find P (<[i := y]> l) = Some (j, z).
Proof.
  intros Hi HP Hne Hf.
  pose proof (list_find_insert_preserve P l i x y j z Hi HP Hf) as HH.
  by rewrite decide_False in HH.
Qed.

Lemma list_find_insert_same {A} (P : A → Prop) `{!∀ x, Decision (P x)}
    (l : list A) i x y :
  l !! i = Some x → (P x ↔ P y) → list_find P l = Some (i, x) →
  list_find P (<[i := y]> l) = Some (i, y).
Proof.
  intros Hi HP Hf.
  pose proof (list_find_insert_preserve P l i x y i x Hi HP Hf) as HH.
  by rewrite decide_True in HH.
Qed.

(** X15.  The launcher pairing fires once: applied again to the same
    function of the module that a successful application returns, the
    pattern reports failure and returns that module as it is. *)
Theorem pairing_fires_once
    (_target : ExecutionRuntime.t) (m : list ModuleItem) (h : nat)
    (m' : list ModuleItem) :
  pairing _target m h = Some (Normal (success, m')) →
  pairing _target m' h = Some (Normal (failure, m')).
Proof.
  intros Hfirst.
  destruct (pairing_success_inv _ _ _ _ Hfirst)
    as (op & x & callee & c & calleeFnOp & pre & kernel & back & g & k & f
        & gname & items & Hh & Hhd & Hrp & Hbody & Hcallee & Hlaunch & Hterm
        & Hkernel & Hmod & Hfresh & ->).
  clear Hfirst.
  set (newName := funcName op +:+ "__gpu__") in *.
  pose proof Hcallee as Hc. unfold lookupSymbolIn in Hc.
  apply list_find_Some in Hc as (Hc & _ & _).
  pose proof Hkernel as Hk. unfold lookupKernel in Hk.
  destruct (lookupSymbolIn itemName m (getRootReference kernel))
    as [[g' [|n' items'|]]|] eqn:Hroot; try done.
  destruct (getNestedReferences kernel) as [|leaf [|]] eqn:Hnested; try done.
  destruct (lookupSymbolIn gpuItemName items' leaf) as [[k' [f'|]]|] eqn:Hleaf;
    try done.
  simplify_eq.
  pose proof Hroot as Hg. unfold lookupSymbolIn in Hg.
  apply list_find_Some in Hg as (Hg & Hgname & _). simplify_eq.
  pose proof Hleaf as Hk. unfold lookupSymbolIn in Hk.
  apply list_find_Some in Hk as (Hk & _ & _).
  assert (Hgc : g ≠ c) by (intros ->; simplify_eq).
  assert (Hgh : g ≠ h) by (intros ->; simplify_eq).
  assert (Hch : c ≠ h).
  { intros ->. rewrite Hh in Hc. injection Hc as <-.
    rewrite Hbody in Hlaunch. by destruct pre as [|? [|? [|? ?]]]. }
  pose proof (lookup_lt_Some _ _ _ Hmod) as Hglt.
  pose proof (lookup_lt_Some _ _ _ Hc) as Hclt.
  pose proof (lookup_lt_Some _ _ _ Hh) as Hhlt.
  set (kfn' := (setGPUFuncName newName
                ∘ setGPUFuncAttr RawPointerAPIAttrName UnitAttr
                ∘ setGPUFuncAttr HeaderDeclAttrName UnitAttr
                ∘ setGPUFuncAttr ExecTargetAttrName ExecutionTargetGPUAttr
                ∘ setGPUFuncAttr ExecRuntimeAttrName
                    (ExecutionRuntimeAttr _target)) f).
  set (kernel' := mkSymbolRefAttr (getRootReference kernel) [newName]).
  set (calleeFront := pre ++ [LaunchFuncOp kernel; back]) in *.
  set (callee' := setFrontOp (length calleeFront - 2)
                    (LaunchFuncOp kernel') calleeFnOp).
  set (op' := setFuncAttr ExecRuntimeAttrName (ExecutionRuntimeAttr _target) op).
  set (items1 := <[k := GPUFunc kfn']> items).
  set (m1 := <[g := GPUModule gname items1]> m).
  set (m2 := <[c := Func callee']> m1).
  set (m3 := <[h := Func op']> m2).
  assert (H1c : m1 !! c = Some (Func calleeFnOp))
    by (subst m1; by rewrite list_lookup_insert_ne).
  assert (H2h : m2 !! h = Some (Func op))
    by (subst m2 m1; by rewrite !list_lookup_insert_ne).
  assert (Hm3 : updateFunc (setFuncAttr ExecRuntimeAttrName
                              (ExecutionRuntimeAttr _target)) h
                  (updateFunc (setFrontOp (length calleeFront - 2)
                                 (LaunchFuncOp kernel')) c
                     (updateGPUFunc
                        (setGPUFuncName newName
                         ∘ setGPUFuncAttr RawPointerAPIAttrName UnitAttr
                         ∘ setGPUFuncAttr HeaderDeclAttrName UnitAttr
                         ∘ setGPUFuncAttr ExecTargetAttrName ExecutionTargetGPUAttr
                         ∘ setGPUFuncAttr ExecRuntimeAttrName
                             (ExecutionRuntimeAttr _target)) g k m)) = m3).
  { unfold updateGPUFunc. rewrite Hmod, Hk. fold kfn' items1 m1.
    unfold updateFunc. rewrite H1c. fold callee' m2. by rewrite H2h. }
  rewrite Hm3. clear Hm3.
  (* the module after the first application *)
  assert (H3h : m3 !! h = Some (Func op')).
  { subst m3. by rewrite list_lookup_insert_eq by
      (subst m2 m1; by rewrite !length_insert). }
  assert (H3g : m3 !! g = Some (GPUModule gname items1)).
  { subst m3 m2. rewrite !list_lookup_insert_ne by done.
    subst m1. by rewrite list_lookup_insert_eq. }
  assert (H3callee : lookupSymbolIn itemName m3 callee = Some (c, Func callee')).
  { unfold lookupSymbolIn in Hcallee |- *. subst m3 m2 m1.
    eapply list_find_insert_other;
      [exact H2h|apply funcName_setFuncAttr_iff|done|].
    eapply list_find_insert_same;
      [exact H1c|apply funcName_setFrontOp_iff|].
    eapply list_find_insert_other;
      [exact Hmod|apply itemName_GPUModule_iff|done|exact Hcallee]. }
  assert (H3root : lookupSymbolIn itemName m3 (getRootReference kernel)
                   = Some (g, GPUModule gname items1)).
  { unfold lookupSymbolIn in Hroot |- *. subst m3 m2 m1.
    eapply list_find_insert_other;
      [exact H2h|apply funcName_setFuncAttr_iff|done|].
    eapply list_find_insert_other;
      [exact H1c|apply funcName_setFrontOp_iff|done|].
    eapply list_find_insert_same;
      [exact Hmod|apply itemName_GPUModule_iff|exact Hroot]. }
  assert (H3leaf : lookupSymbolIn gpuItemName items1 newName
                   = Some (k, GPUFunc kfn')).
  { subst items1. by apply (lookupSymbolIn_renamed gpuItemName items k (GPUFunc f)). }
  assert (Hfront' : head (funcBlocks callee')
                    = Some (pre ++ [LaunchFuncOp kernel'; back])).
  { subst callee'. unfold setFrontOp.
    destruct (funcBlocks calleeFnOp) as [|cfront crest] eqn:Hcblocks; [done|].
    simpl in *. simplify_eq. f_equal. subst calleeFront.
    rewrite length_app. simpl.
    replace (length pre + 2 - 2) with (length pre + 0) by lia.
    by rewrite insert_app_r. }
  (* the second application *)
  unfold CreateDeviceFuncLauncherPairPattern.matchAndRewrite.
  rewrite H3h. f_equal.
  assert (is_Some (funcAttrs op' !! HeaderDeclAttrName)) as Hhd'.
  { subst op'. simpl. apply lookup_insert_is_Some'. by right. }
  assert (is_Some (funcAttrs op' !! RawPointerAPIAttrName)) as Hrp'.
  { subst op'. simpl. apply lookup_insert_is_Some'. by right. }
  rewrite !bool_decide_eq_true_2 by done. simpl.
  rewrite Hbody. simpl. rewrite H3callee. simpl.
  rewrite Hfront'. simpl.
  assert (Hlast : last (pre ++ [LaunchFuncOp kernel'; back]) = Some back).
  { change [LaunchFuncOp kernel'; back] with ([LaunchFuncOp kernel'] ++ [back]).
    by rewrite app_assoc, last_snoc. }
  assert (Hrem : removelast (pre ++ [LaunchFuncOp kernel'; back])
                 = pre ++ [LaunchFuncOp kernel']).
  { change [LaunchFuncOp kernel'; back] with ([LaunchFuncOp kernel'] ++ [back]).
    by rewrite app_assoc, removelast_last. }
  rewrite Hlast. simpl. rewrite Hterm. simpl. rewrite Hrem, last_snoc. simpl.
  unfold lookupKernel. simpl. rewrite H3root, H3leaf, H3g.
  fold newName. rewrite H3leaf.
  by rewrite bool_decide_eq_true_2 by by eexists.
Qed.

End PairingOnce.

Lemma pairing_failure_leaves_module_witness :
  ∃ op, exampleHostModule !! 0 = Some (Func op)
        ∧ is_Some (funcAttrs op !! "accv.emit_header_decl")
        ∧ is_Some (funcAttrs op !! "accv.emit_raw_pointer_api").
Proof.
  assert (∃ m', CreateDeviceFuncLauncherPairPattern.matchAndRewrite
                  "accv.emit_header_decl" "accv.emit_raw_pointer_api"
                  "accv.exec_runtime" "accv.exec_target"
                  ExecutionRuntime.ROCM exampleHostModule 0
                = Some (Normal (success, m'))
                ∧ m' ≠ exampleHostModule) as (m' & Hrewrite & Hchanged).
  { eexists. split; [vm_compute; reflexivity|].
    intros Heq.
    apply (f_equal (λ m, (λ i, match i with
                               | GPUModule _ (_ :: GPUFunc k :: _) => gpuFuncName k
                               | _ => EmptyString
                               end) <$> m !! 2)) in Heq.
    vm_compute in Heq. discriminate Heq. }
  exact (proj2 (pairing_failure_leaves_module
                  "accv.emit_header_decl" "accv.emit_raw_pointer_api"
                  "accv.exec_runtime" "accv.exec_target"
                  ExecutionRuntime.ROCM exampleHostModule 0 success m'
                  Hrewrite Hchanged)).
Defined.

Lemma pairing_fires_once_witness :
  ∃ m',
    CreateDeviceFuncLauncherPairPattern.matchAndRewrite
      "accv.emit_header_decl" "accv.emit_raw_pointer_api"
      "accv.exec_runtime" "accv.exec_target"
      ExecutionRuntime.ROCM exampleHostModule 0
    = Some (Normal (success, m'))
    ∧ CreateDeviceFuncLauncherPairPattern.matchAndRewrite
        "accv.emit_header_decl" "accv.emit_raw_pointer_api"
        "accv.exec_runtime" "accv.exec_target"
        ExecutionRuntime.ROCM m' 0
      = Some (Normal (failure, m')).
Proof.
  eexists. split; [vm_compute; reflexivity|].
  apply (pairing_fires_once
           "accv.emit_header_decl" "accv.emit_raw_pointer_api"
           "accv.exec_runtime" "accv.exec_target"
           ExecutionRuntime.ROCM exampleHostModule 0).
  vm_compute. reflexivity.
Defined.

(** ** What the pairing leaves alone *)

Lemma updateFunc_lookup_ne f i j m : i ≠ j → updateFunc f j m !! i = m !! i.
Proof.
  intros Hne. unfold updateFunc. destruct (m !! j) as [[fn| |]|]; try done.
  by rewrite list_lookup_insert_ne.
Qed.

Lemma updateFunc_lookup f i m fn :
  m !! i = Some (Func fn) → updateFunc f i m !! i = Some (Func (f fn)).
Proof.
  intros Hi. unfold updateFunc. rewrite Hi.
  apply list_lookup_insert_eq. by eapply lookup_lt_Some.
Qed.

Lemma updateGPUFunc_lookup_ne f g k i m : i ≠ g → updateGPUFunc f g k m !! i = m !! i.
Proof.
  intros Hne. unfold updateGPUFunc.
  destruct (m !! g) as [[|n items|]|]; try done.
  destruct (items !! k) as [[fn|]|]; try done.
  by rewrite list_lookup_insert_ne.
Qed.

Lemma updateGPUFunc_lookup f g k m gname items fn :
  m !! g = Some (GPUModule gname items) → items !! k = Some (GPUFunc fn) →
  updateGPUFunc f g k m !! g
  = Some (GPUModule gname (<[k := GPUFunc (f fn)]> items)).
Proof.
  intros Hg Hk. unfold updateGPUFunc. rewrite Hg, Hk.
  apply list_lookup_insert_eq. by eapply lookup_lt_Some.
Qed.

Lemma lookupSymbolIn_lookup {A} (name : A → string) table sym i a :
  lookupSymbolIn name table sym = Some (i, a) → table !! i = Some a ∧ name a = sym.
Proof. intros H. by apply list_find_Some in H as (? & ? & _). Qed.

Lemma lookupKernel_lookup m kernel g k f :
  lookupKernel m kernel = Some (g, k, f) →
  ∃ gname items, m !! g = Some (GPUModule gname items) ∧ items !! k = Some (GPUFunc f).
Proof.
  unfold lookupKernel.
  destruct (lookupSymbolIn itemName m _) as [[g' [|gname items|]]|] eqn:Hg; try done.
  destruct (getNestedReferences kernel) as [|leaf [|]]; try done.
  destruct (lookupSymbolIn gpuItemName items leaf) as [[k' [f'|]]|] eqn:Hk; try done.
  intros [= <- <- <-].
  apply lookupSymbolIn_lookup in Hg as [Hg _].
  apply lookupSymbolIn_lookup in Hk as [Hk _]. by exists gname, items.
Qed.

Lemma updateFunc_length f i m : length (updateFunc f i m) = length m.
Proof.
  unfold updateFunc. destruct (m !! i) as [[fn| |]|]; try done.
  by rewrite length_insert.
Qed.

Lemma updateGPUFunc_length f g k m : length (updateGPUFunc f g k m) = length m.
Proof.
  unfold updateGPUFunc. destruct (m !! g) as [[|n items|]|]; try done.
  destruct (items !! k) as [[fn|]|]; try done. by rewrite length_insert.
Qed.

Section PairingFrame.
Variables HeaderDeclAttrName RawPointerAPIAttrName : string.
Variables ExecRuntimeAttrName ExecTargetAttrName : string.

(** X16.  What a successful launcher pairing leaves alone.  The module keeps
    its length, and every symbol other than the host function, the launcher
    it calls and the [gpu.module] of the kernel is as it was.  The host
    function, which is not the launcher, keeps its name and its body and
    gets one attribute; the launcher keeps its name, its attributes and its
    body but for the launch operation, the last operation before the
    terminator of its first block; the [gpu.module] keeps its name and its
    symbols but for the launched kernel. *)
Theorem pairing_touches_three_symbols
    (_target : ExecutionRuntime.t) (m : list ModuleItem) (h : nat)
    (m' : list ModuleItem) :
  CreateDeviceFuncLauncherPairPattern.matchAndRewrite
    HeaderDeclAttrName RawPointerAPIAttrName ExecRuntimeAttrName ExecTargetAttrName
    _target m h = Some (Normal (success, m')) →
  ∃ c g k op calleeFnOp front rest kernel' gname items launchedGPUFnOp',
    m !! h = Some (Func op) ∧
    m !! c = Some (Func calleeFnOp) ∧ funcBlocks calleeFnOp = front :: rest ∧
    m !! g = Some (GPUModule gname items) ∧
    h ≠ c ∧
    length m' = length m ∧
    (∀ i, i ≠ h → i ≠ c → i ≠ g → m' !! i = m !! i) ∧
    m' !! h
    = Some (Func (mkFuncOp (funcName op)
                    (<[ExecRuntimeAttrName := ExecutionRuntimeAttr _target]>
                       (funcAttrs op))
                    (funcBlocks op))) ∧
    m' !! c
    = Some (Func (mkFuncOp (funcName calleeFnOp) (funcAttrs calleeFnOp)
                    (<[length front - 2 := LaunchFuncOp kernel']> front :: rest))) ∧
    m' !! g
    = Some (GPUModule gname (<[k := GPUFunc launchedGPUFnOp']> items)).
Proof.
  intros Hrw.
  destruct (pairing_success_inv _ _ _ _ _ _ _ _ Hrw)
    as (op & x & callee & c & calleeFnOp & pre & kernel & back & g & k & f
        & gname & items & Hh & _ & _ & Hbody & Hcallee & Hlaunch & _
        & Hkernel & Hg & _ & ->).
  apply lookupSymbolIn_lookup in Hcallee as [Hc _].
  destruct (lookupKernel_lookup _ _ _ _ _ Hkernel) as (gname' & items' & Hg' & Hk).
  rewrite Hg in Hg'. injection Hg' as <- <-.
  assert (Hhc : h ≠ c).
  { intros ->. rewrite Hh in Hc. injection Hc as ->.
    rewrite Hbody in Hlaunch. injection Hlaunch as Hl.
    destruct pre as [|? [|? pre]]; simplify_eq. destruct pre; simplify_eq. }
  assert (Hhg : h ≠ g) by (intros ->; by rewrite Hh in Hg).
  assert (Hcg : c ≠ g) by (intros ->; by rewrite Hc in Hg).
  destruct (funcBlocks calleeFnOp) as [|front rest] eqn:Hb; [done|].
  injection Hlaunch as <-.
  exists c, g, k, op, calleeFnOp, front, rest.
  eexists _, gname, items, _.
  split_and!; try done.
  - by rewrite !updateFunc_length, updateGPUFunc_length.
  - intros i Hih Hic Hig.
    by rewrite !updateFunc_lookup_ne, updateGPUFunc_lookup_ne.
  - erewrite updateFunc_lookup; [done|].
    by rewrite updateFunc_lookup_ne, updateGPUFunc_lookup_ne.
  - rewrite updateFunc_lookup_ne by done.
    erewrite updateFunc_lookup by (by rewrite updateGPUFunc_lookup_ne).
    unfold setFrontOp. by rewrite Hb.
  - rewrite !updateFunc_lookup_ne by done.
    by erewrite updateGPUFunc_lookup.
Qed.

End PairingFrame.

Lemma pairing_touches_three_symbols_witness :
  ∃ m',
    CreateDeviceFuncLauncherPairPattern.matchAndRewrite
      "accv.emit_header_decl" "accv.emit_raw_pointer_api"
      "accv.exec_runtime" "accv.exec_target"
      ExecutionRuntime.ROCM exampleHostModule 0
    = Some (Normal (success, m'))
    ∧ length m' = length exampleHostModule.
Proof.
  eexists. split; [vm_compute; reflexivity|].
  destruct (pairing_touches_three_symbols
              "accv.emit_header_decl" "accv.emit_raw_pointer_api"
              "accv.exec_runtime" "accv.exec_target"
              ExecutionRuntime.ROCM exampleHostModule 0 _
              ltac:(vm_compute; reflexivity))
    as (c & g & k & op & calleeFnOp & front & rest & kernel' & gname & items
        & launchedGPUFnOp' & _ & _ & _ & _ & _ & Hlength & _).
  exact Hlength.
Defined.

(** ** The rest of the GPU dialect printer *)

Lemma detectRuntimes_success mods calls :
  (∀ e, e ∈ mods → e = Some ExecutionRuntime.ROCM ∨ e = Some ExecutionRuntime.CUDA) →
  detectRuntimes mods calls = (success, calls ++ (mods ≫= callsFor)).
Proof.
  revert calls. induction mods as [|e mods IH]; intros calls Hok; simpl.
  - by rewrite app_nil_r.
  - destruct (Hok e) as [-> | ->]; [apply list_elem_of_here|..]; simpl;
      (rewrite IH by (intros e' He'; apply Hok; by apply list_elem_of_further));
      by rewrite <- app_assoc.
Qed.

Lemma detectRuntimes_calls mods calls :
  ∃ accepted,
    accepted `prefix_of` mods ∧
    (∀ e, e ∈ accepted →
          e = Some ExecutionRuntime.ROCM ∨ e = Some ExecutionRuntime.CUDA) ∧
    (detectRuntimes mods calls).2 = calls ++ (accepted ≫= callsFor) ∧
    ((detectRuntimes mods calls).1 = success → accepted = mods).
Proof.
  revert calls. induction mods as [|e mods IH]; intros calls; simpl.
  - exists []. split_and!; [done|by intros ? ?%elem_of_nil|by rewrite app_nil_r|done].
  - assert (Hstop : ∃ accepted : list (option ExecutionRuntime.t),
              accepted `prefix_of` e :: mods ∧
              (∀ e0, e0 ∈ accepted → e0 = Some ExecutionRuntime.ROCM
                                     ∨ e0 = Some ExecutionRuntime.CUDA) ∧
              (failure, calls).2 = calls ++ (accepted ≫= callsFor) ∧
              ((failure, calls).1 = success → accepted = e :: mods)).
    { exists []. split_and!; [apply prefix_nil|by intros ? ?%elem_of_nil
                              |by rewrite app_nil_r|done]. }
    destruct e as [[]|]; try exact Hstop.
    + destruct (IH (calls ++ [PrinterRuntime.CUDA])) as (acc & Hpre & Hok & Hc & Hs).
      exists (Some ExecutionRuntime.CUDA :: acc). split_and!.
      * by apply prefix_cons.
      * intros e [->|He]%elem_of_cons; [by right|by apply Hok].
      * rewrite Hc. simpl. by rewrite <- app_assoc.
      * intros H. by rewrite (Hs H).
    + destruct (IH (calls ++ [PrinterRuntime.ROCM; PrinterRuntime.CUDA]))
        as (acc & Hpre & Hok & Hc & Hs).
      exists (Some ExecutionRuntime.ROCM :: acc). split_and!.
      * by apply prefix_cons.
      * intros e [->|He]%elem_of_cons; [by left|by apply Hok].
      * rewrite Hc. simpl. by rewrite <- app_assoc.
      * intros H. by rewrite (Hs H).
Qed.

Lemma callsFor_CUDA e : PrinterRuntime.CUDA ∈ callsFor e.
Proof.
  destruct e as [[]|]; simpl;
    first [apply list_elem_of_here|apply list_elem_of_further, list_elem_of_here].
Qed.

Lemma callsFor_ROCM e :
  PrinterRuntime.ROCM ∈ callsFor e ↔ e = Some ExecutionRuntime.ROCM.
Proof.
  split.
  - destruct e as [[]|]; simpl; intros H; try done;
      apply elem_of_cons in H as [H|H]; try discriminate;
      by apply elem_of_nil in H.
  - intros ->. apply list_elem_of_here.
Qed.

(** X17.  [runPrePrintingPasses] keeps the modules it had when the operation
    is no module or has no [gpu.module], and takes those of the operation
    otherwise.  It succeeds exactly when the runtime of every module it then
    has resolves to ROCM or CUDA (so a module of runtime DEFAULT makes it
    fail).  Whenever it sets the ROCM runtime it also sets the CUDA runtime;
    on success with at least one module the CUDA runtime is set, and the ROCM
    runtime is set exactly when a module resolves to ROCM. *)
Theorem runPrePrintingPasses_accepts_rocm_and_cuda
    (op : option (list (option ExecutionRuntime.t)))
    (_gpuModuleOps : list (option ExecutionRuntime.t)) :
  let r := (runPrePrintingPasses op _gpuModuleOps).1.1 in
  let calls := (runPrePrintingPasses op _gpuModuleOps).1.2 in
  let mods := (runPrePrintingPasses op _gpuModuleOps).2 in
  mods = match op with Some (e :: rest) => e :: rest | _ => _gpuModuleOps end ∧
  (r = success ↔
     ∀ e, e ∈ mods → e = Some ExecutionRuntime.ROCM ∨ e = Some ExecutionRuntime.CUDA) ∧
  (PrinterRuntime.ROCM ∈ calls → PrinterRuntime.CUDA ∈ calls) ∧
  (r = success → mods ≠ [] → PrinterRuntime.CUDA ∈ calls) ∧
  (r = success →
     (PrinterRuntime.ROCM ∈ calls ↔ Some ExecutionRuntime.ROCM ∈ mods)) ∧
  (Some ExecutionRuntime.DEFAULT ∈ mods → r = failure).
Proof.
  intros r calls mods. subst r calls mods. unfold runPrePrintingPasses. simpl.
  set (mods := match op with
               | Some potentialGpuOps =>
                   if bool_decide (potentialGpuOps = []) then _gpuModuleOps
                   else potentialGpuOps
               | None => _gpuModuleOps
               end).
  assert (Hmods : mods = match op with
                         | Some (e :: rest) => e :: rest
                         | _ => _gpuModuleOps
                         end).
  { subst mods. by destruct op as [[|]|]. }
  destruct (detectRuntimes_calls mods [])
    as (accepted & Hpre & Hok & Hcalls & Hsucc).
  simpl in Hcalls.
  assert (Hiff : (detectRuntimes mods []).1 = success ↔
            ∀ e, e ∈ mods → e = Some ExecutionRuntime.ROCM
                            ∨ e = Some ExecutionRuntime.CUDA).
  { split.
    - intros H. by rewrite <- (Hsucc H).
    - intros H. by rewrite (detectRuntimes_success _ _ H). }
  assert (Hin : ∀ x, x ∈ (accepted ≫= callsFor) ↔
                     ∃ e, x ∈ callsFor e ∧ e ∈ accepted).
  { intros x. apply list_elem_of_bind. }
  split_and!; [done|done| | | |].
  - rewrite Hcalls. intros (e & Hx & He)%Hin. apply Hin. exists e.
    split; [apply callsFor_CUDA|done].
  - intros H Hne. rewrite Hcalls. apply Hin. rewrite (Hsucc H).
    destruct mods as [|e mods'] eqn:E; [done|]. exists e.
    split; [apply callsFor_CUDA|apply list_elem_of_here].
  - intros H. rewrite Hcalls. split.
    + intros (e & Hx & He)%Hin. apply callsFor_ROCM in Hx.
      rewrite <- (Hsucc H). by subst e.
    + intros He. apply Hin. exists (Some ExecutionRuntime.ROCM).
      split; [by apply callsFor_ROCM|by rewrite (Hsucc H)].
  - intros Hd. destruct (detectRuntimes mods []).1 eqn:E; [|done].
    destruct (proj1 Hiff eq_refl _ Hd); discriminate.
Qed.

(** X18.  [printDialectOperation] reports success whatever the printer of
    the operation returns.  Whenever it returns, its result is success; the
    operation is left unconsumed exactly when it is none of the ten GPU
    operations, and then nothing is written.  In particular a barrier or a
    thread, block or grid query printed without the CUDA runtime, and a
    [gpu.func] of more than one block, fail in their printer, write nothing,
    and are still reported as printed. *)
Theorem printDialectOperation_reports_success
    (HeaderDeclAttrName RawPointerAPIAttrName : string)
    (P : GpuDialectCppPrinter.Printer) (op : GpuDialectOp) (os : string) :
  (∀ r consumed os',
     printDialectOperation HeaderDeclAttrName RawPointerAPIAttrName P op os
       = Normal (r, consumed, os') →
     r = success
     ∧ (consumed = false ↔ ∃ name, op = op_Other name)
     ∧ (consumed = false → os' = os)) ∧
  (needsCUDA op = true → GpuDialectCppPrinter.hasRuntimeCUDA P = false →
     printOp HeaderDeclAttrName RawPointerAPIAttrName P op os = Normal (failure, os)
     ∧ printDialectOperation HeaderDeclAttrName RawPointerAPIAttrName P op os
       = Normal (success, true, os)) ∧
  (∀ funcOp, op = op_GPUFuncOp funcOp → 1 < numBlocks funcOp →
     printOp HeaderDeclAttrName RawPointerAPIAttrName P op os = Normal (failure, os)
     ∧ printDialectOperation HeaderDeclAttrName RawPointerAPIAttrName P op os
       = Normal (success, true, os)).
Proof.
  split_and!.
  - intros r consumed os' H. unfold printDialectOperation in H.
    destruct op; try (by simplify_eq; split_and!; [done|split; [done|intros [? [=]]]|done]);
      try (destruct (printOp _ _ _ _ _) as [[r0 os0]|]; [|done];
           simpl in H; simplify_eq;
           split_and!; [done|split; [done|intros [? [=]]]|done]).
    simplify_eq. split_and!; [done|split; [by eexists|done]|done].
  - intros Hk Hc. unfold printDialectOperation.
    destruct op; try discriminate; simpl;
      unfold printOp_BarrierOp, GpuDialectCppPrinter.printOp_BlockDimOp,
        GpuDialectCppPrinter.printOp_BlockIdOp, GpuDialectCppPrinter.printOp_GridDimOp,
        GpuDialectCppPrinter.printOp_ThreadIdOp, GpuDialectCppPrinter.printQuery;
      by rewrite Hc.
  - intros funcOp -> Hb. unfold printDialectOperation. simpl.
    unfold printOp_GPUFuncOp. apply Nat.ltb_lt in Hb. by rewrite Hb.
Qed.

Lemma printFunctionDeclaration_result
    (HeaderDeclAttrName RawPointerAPIAttrName : string)
    (P : GpuDialectCppPrinter.Printer) (funcOp : GPUFuncPrinting)
    (trailingSemiColon : bool) (os : string) (r : LogicalResult) (os' : string) :
  printFunctionDeclaration HeaderDeclAttrName RawPointerAPIAttrName
    P funcOp trailingSemiColon os = Normal (r, os') →
  (r = success ↔
     supportedBySignature (funcExecRuntime funcOp) ∧
     (GpuDialectCppPrinter.hasRuntimeCUDA P = true → hasResults funcOp = false) ∧
     (printTypesOfResults funcOp).1 = success) ∧
  (¬ supportedBySignature (funcExecRuntime funcOp) → os' = os).
Proof.
  unfold printFunctionDeclaration, supportedBySignature.
  destruct (funcExecRuntime funcOp) as [e|].
  - destruct e; simpl.
    all: try (intros [= <- <-]; split;
              [split; [done|intros [H _]; by destruct (H _ eq_refl) as [?|[?|?]]]
              |done]).
    all: match goal with
         | |- (?m ≫= _) = _ → _ => destruct m as [os1|]; [|done]
         end; simpl;
         destruct (GpuDialectCppPrinter.hasRuntimeCUDA P), (hasResults funcOp);
         simpl;
         try (intros [= <- <-]; split;
              [split; [done|intros (_ & H & _); by specialize (H eq_refl)]
              |intros H; exfalso; apply H; intros ? [= <-]; auto]);
         destruct (printTypesOfResults funcOp) as [[] text]; simpl;
         intros [= <- <-];
         (split; [|intros H; exfalso; apply H; intros ? [= <-]; auto]);
         split; try done; try (by intros (_ & _ & ?));
         intros _; split_and!; try done; intros ? [= <-]; auto.
  - match goal with
    | |- (?m ≫= _) = _ → _ => destruct m as [os1|]; [|done]
    end; simpl.
    destruct (GpuDialectCppPrinter.hasRuntimeCUDA P), (hasResults funcOp); simpl;
      try (intros [= <- <-]; split;
           [split; [done|intros (_ & H & _); by specialize (H eq_refl)]
           |intros H; exfalso; apply H; intros ? [=]]);
      destruct (printTypesOfResults funcOp) as [[] text]; simpl;
      intros [= <- <-];
      (split; [|intros H; exfalso; apply H; intros ? [=]]);
      split; try done; try (by intros (_ & _ & ?));
      intros _; split_and!; try done.
Qed.

(** X19.  When printing a [gpu.func] returns, it succeeds exactly when the
    function has at most one block, its resolved runtime is absent or one of
    CUDA, ROCM and DEFAULT, it has no results if the CUDA runtime is set, its
    result types print, and its block (if it has one) prints.  A function of
    more than one block or of another runtime is rejected before anything is
    written. *)
Theorem gpu_func_printing_rejections
    (HeaderDeclAttrName RawPointerAPIAttrName : string)
    (P : GpuDialectCppPrinter.Printer) (funcOp : GPUFuncPrinting)
    (os : string) (r : LogicalResult) (os' : string) :
  printOp_GPUFuncOp HeaderDeclAttrName RawPointerAPIAttrName P funcOp os
    = Normal (r, os') →
  (r = success ↔
     numBlocks funcOp ≤ 1 ∧
     supportedBySignature (funcExecRuntime funcOp) ∧
     (GpuDialectCppPrinter.hasRuntimeCUDA P = true → hasResults funcOp = false) ∧
     (printTypesOfResults funcOp).1 = success ∧
     (numBlocks funcOp = 1 → (printBlockOfFront funcOp).1 = success)) ∧
  (1 < numBlocks funcOp ∨ ¬ supportedBySignature (funcExecRuntime funcOp) →
   os' = os).
Proof.
  unfold printOp_GPUFuncOp.
  destruct (1 <? numBlocks funcOp) eqn:Hb.
  { apply Nat.ltb_lt in Hb. intros [= <- <-]. split; [|done].
    split; [done|]. intros (? & _). lia. }
  apply Nat.ltb_ge in Hb.
  destruct (printFunctionDeclaration _ _ P funcOp _ os) as [[rd osd]|] eqn:Hd;
    [|done].
  destruct (printFunctionDeclaration_result _ _ _ _ _ _ _ _ Hd) as [Hiff Hos].
  simpl. destruct rd; simpl.
  - pose proof (proj1 Hiff eq_refl) as (Hrt & Hres & Hty).
    destruct (numBlocks funcOp =? 0) eqn:Hz; simpl.
    + apply Nat.eqb_eq in Hz. intros [= <- <-]. split.
      * split; [intros _; split_and!; try done; lia|done].
      * intros [?|?]; [lia|done].
    + apply Nat.eqb_neq in Hz.
      destruct (printBlockOfFront funcOp) as [[] text]; simpl; intros [= <- <-].
      * split; [|intros [?|?]; [lia|done]].
        split; [intros _; by split_and!|done].
      * split; [|intros [?|?]; [lia|done]].
        split; [done|]. intros (_ & _ & _ & _ & H). apply H. lia.
  - intros [= <- <-]. split.
    + split; [done|]. intros (_ & Hrt & Hres & Hty & _).
      by apply (proj2 Hiff).
    + intros [?|Hn]; [lia|by apply Hos].
Qed.

Lemma gpu_func_printing_rejections_witness :
  ∃ os',
    printOp_GPUFuncOp "accv.emit_header_decl" "accv.emit_raw_pointer_api"
      examplePrinter exampleGPUFuncPrinting "" = Normal (success, os')
    ∧ supportedBySignature (funcExecRuntime exampleGPUFuncPrinting)
    ∧ (printBlockOfFront exampleGPUFuncPrinting).1 = success.
Proof.
  eexists. split; [vm_compute; reflexivity|].
  destruct (gpu_func_printing_rejections
              "accv.emit_header_decl" "accv.emit_raw_pointer_api"
              examplePrinter exampleGPUFuncPrinting "" success _
              ltac:(vm_compute; reflexivity)) as [Hiff _].
  destruct (proj1 Hiff eq_refl) as (_ & Hrt & _ & _ & Hblock).
  split; [exact Hrt|]. apply Hblock. reflexivity.
Defined.

Lemma getNumDynamicDims_zero v :
  getNumDynamicDims v = 0 ↔ ∀ d, d ∈ getShape v → d ≠ (-1)%Z.
Proof.
  unfold getNumDynamicDims. rewrite length_zero_iff_nil. split.
  - intros Hnil d Hd Heq.
    assert (d ∈ filter (λ d, d = (-1)%Z) (getShape v))
      by (by apply list_elem_of_filter).
    rewrite Hnil in H. by apply elem_of_nil in H.
  - intros Hall. apply elem_of_nil_inv. intros d Hd.
    apply list_elem_of_filter in Hd as [Heq Hd]. by apply (Hall d).
Qed.

Lemma isF32_or_isF16 t : isF32 t || isF16 t = true ↔ t = F32 ∨ t = F16.
Proof.
  destruct t; simpl; split; intros H; try done; try (by left); try (by right);
    by destruct H.
Qed.

(** X20.  When printing the declaration of a vector returns, it succeeds
    exactly when the element type is f32 or f16, no dimension is dynamic, the
    vector has a last dimension, that dimension is even, and the vector type
    of that dimension prints.  On failure the text written is a message
    between [<<] and [>>], or what the failed printing of that vector type
    wrote. *)
Theorem vector_declaration_printing (P : GpuDialectCppPrinter.Printer)
    (printer : TypePrinter) (vecType : VectorShape) (vecVar os : string)
    (r : LogicalResult) (os' : string) :
  let elem := vectorElementType vecType in
  printVectorTypeArrayDecl P printer vecType vecVar os = Normal (r, os') →
  (r = success ↔
     (elem = F32 ∨ elem = F16) ∧
     (∀ d, d ∈ getShape vecType → d ≠ (-1)%Z) ∧
     ∃ lastDim, last (getShape vecType) = Some lastDim ∧ (2 | lastDim)%Z ∧
                (printType printer (VectorType lastDim elem)).1 = success) ∧
  (r = failure →
     (∃ msg, os' = os +:+ "<<" +:+ msg +:+ ">>")
     ∨ ∃ lastDim, last (getShape vecType) = Some lastDim ∧
                  (printType printer (VectorType lastDim elem)).1 = failure ∧
                  os' = os +:+ (printType printer (VectorType lastDim elem)).2).
Proof.
  intros elem. subst elem. set (elem := vectorElementType vecType).
  unfold printVectorTypeArrayDecl.
  destruct (GpuDialectCppPrinter.hasRuntimeCUDA P); [|done]. simpl. fold elem.
  pose proof (isF32_or_isF16 elem) as Helem.
  destruct (isF32 elem || isF16 elem) eqn:He.
  2: { intros [= <- <-]. split.
       - split; [done|]. intros (?%Helem & _); done.
       - intros _. left. by exists "only support fp32 and fp16 vec type". }
  pose proof (proj1 Helem eq_refl) as Hel.
  unfold printGpuFPVectorType. fold elem.
  destruct (getNumDynamicDims vecType =? 0) eqn:Hdyn; simpl.
  2: { apply Nat.eqb_neq in Hdyn. intros [= <- <-]. split.
       - split; [done|]. intros (_ & Hd & _).
         by apply (proj2 (getNumDynamicDims_zero vecType)) in Hd.
       - intros _. left.
         by exists "VectorType with dynamic dims is not supported yet". }
  apply Nat.eqb_eq in Hdyn.
  pose proof (proj1 (getNumDynamicDims_zero vecType) Hdyn) as Hnodyn.
  unfold getRank. rewrite Nat.sub_1_r, <- last_lookup.
  destruct (length (getShape vecType) =? 0) eqn:Hrank.
  { apply Nat.eqb_eq, length_zero_iff_nil in Hrank. intros [= <- <-]. split.
    - split; [done|]. rewrite Hrank. by intros (_ & _ & ? & ? & _).
    - intros _. left. by exists "zero-ranked Vectortype is not supported yet". }
  destruct (last (getShape vecType)) as [lastDim|] eqn:Hlast; [|done]. simpl.
  assert (Hrem : (Z.rem lastDim 2 =? 0)%Z = true ↔ (2 | lastDim)%Z).
  { rewrite Z.eqb_eq. by apply Z.rem_divide. }
  destruct (Z.rem lastDim 2 =? 0)%Z eqn:Hr; simpl.
  2: { intros [= <- <-]. split.
       - split; [done|]. intros (_ & _ & l & [= <-] & Hdiv%Hrem & _). done.
       - intros _. left.
         exists ("can't be represented by " +:+ floatVecT32 printer lastDim
                 +:+ " as it is not a multiple of 2").
         by rewrite !string_append_assoc. }
  destruct (printType printer (VectorType lastDim elem)) as [rp text] eqn:Hpt.
  destruct rp; simpl; intros [= <- <-].
  - split; [|done]. split; [intros _|done].
    split_and!; [done|done|]. exists lastDim.
    split_and!; [done|by apply Hrem|by rewrite Hpt].
  - split.
    + split; [done|]. intros (_ & _ & l & [= <-] & _ & Hs).
      rewrite Hpt in Hs. done.
    + intros _. right. exists lastDim. rewrite Hpt. by split_and!.
Qed.

Lemma vector_declaration_printing_witness :
  ∃ os',
    printVectorTypeArrayDecl examplePrinter exampleTypePrinter
      (mkVectorShape [4; 2]%Z F16) "v" "" = Normal (success, os')
    ∧ ∃ lastDim, last [4; 2]%Z = Some lastDim ∧ (2 | lastDim)%Z.
Proof.
  eexists. split; [vm_compute; reflexivity|].
  destruct (vector_declaration_printing examplePrinter exampleTypePrinter
              (mkVectorShape [4; 2]%Z F16) "v" "" success _
              ltac:(vm_compute; reflexivity)) as [Hiff _].
  destruct (proj1 Hiff eq_refl) as (_ & _ & lastDim & Hlast & Heven & _).
  exists lastDim. split; [exact Hlast|exact Heven].
Defined.

Lemma elem_of_concat {A} (x : A) (ls : list (list A)) :
  x ∈ concat ls ↔ ∃ l, x ∈ l ∧ l ∈ ls.
Proof.
  induction ls as [|l ls IH]; simpl.
  - split; [by intros ?%elem_of_nil|by intros (? & _ & ?%elem_of_nil)].
  - rewrite elem_of_app, IH. split.
    + intros [?|(l' & ? & ?)].
      * exists l. split; [done|apply list_elem_of_here].
      * exists l'. split; [done|by apply list_elem_of_further].
    + intros (l' & Hx & [->|?]%elem_of_cons); [by left|right; by exists l'].
Qed.

Lemma printFunctionDeclarations_result
    (HeaderDeclAttrName RawPointerAPIAttrName : string)
    (P : GpuDialectCppPrinter.Printer) (funcOps : list GPUFuncPrinting)
    (os : string) (r : LogicalResult) (os' : string) :
  printFunctionDeclarations HeaderDeclAttrName RawPointerAPIAttrName P funcOps os
    = Normal (r, os') →
  (r = success ↔
     ∀ funcOp, funcOp ∈ funcOps →
       supportedBySignature (funcExecRuntime funcOp) ∧
       (GpuDialectCppPrinter.hasRuntimeCUDA P = true → hasResults funcOp = false) ∧
       (printTypesOfResults funcOp).1 = success).
Proof.
  revert os. induction funcOps as [|funcOp rest IH]; intros os; simpl.
  - intros [= <- <-]. split; [|done]. intros _ ? H. by apply elem_of_nil in H.
  - destruct (printFunctionDeclaration _ _ P funcOp true os) as [[rd osd]|] eqn:Hd;
      [|done].
    destruct (printFunctionDeclaration_result _ _ _ _ _ _ _ _ Hd) as [Hiff _].
    simpl. destruct rd; simpl.
    + intros Hrest. rewrite (IH _ Hrest). split.
      * intros Hall f [->|Hf]%elem_of_cons; [by apply Hiff|by apply Hall].
      * intros Hall f Hf. apply Hall. by apply list_elem_of_further.
    + intros [= <- <-]. split; [done|]. intros Hall.
      by apply (proj2 Hiff), Hall, list_elem_of_here.
Qed.

(** X21.  [printDeclarations] writes nothing and succeeds when the CUDA
    runtime is not set.  When it is set and the printing returns, it succeeds
    exactly when every [gpu.func] of every detected module has a resolved
    runtime that is absent or one of CUDA, ROCM and DEFAULT, has no results,
    and has result types that print. *)
Theorem printDeclarations_result
    (HeaderDeclAttrName RawPointerAPIAttrName : string)
    (P : GpuDialectCppPrinter.Printer) (_gpuModuleOps : list (list GPUFuncPrinting))
    (os : string) (r : LogicalResult) (os' : string) :
  printDeclarations HeaderDeclAttrName RawPointerAPIAttrName P _gpuModuleOps os
    = Normal (r, os') →
  (GpuDialectCppPrinter.hasRuntimeCUDA P = false → r = success ∧ os' = os) ∧
  (GpuDialectCppPrinter.hasRuntimeCUDA P = true →
     (r = success ↔
        ∀ funcs funcOp, funcs ∈ _gpuModuleOps → funcOp ∈ funcs →
          supportedBySignature (funcExecRuntime funcOp) ∧
          hasResults funcOp = false ∧
          (printTypesOfResults funcOp).1 = success)).
Proof.
  unfold printDeclarations.
  destruct (GpuDialectCppPrinter.hasRuntimeCUDA P) eqn:Hcuda.
  - intros Hprint. split; [done|]. intros _.
    rewrite (printFunctionDeclarations_result _ _ _ _ _ _ _ Hprint), Hcuda.
    split.
    + intros Hall funcs funcOp Hfuncs Hf.
      destruct (Hall funcOp) as (? & Hres & ?).
      { apply elem_of_concat. by exists funcs. }
      split_and!; [done|by apply Hres|done].
    + intros Hall funcOp (funcs & Hf & Hfuncs)%elem_of_concat.
      destruct (Hall funcs funcOp Hfuncs Hf) as (? & ? & ?). by split_and!.
  - intros [= <- <-]. by split.
Qed.

Lemma printDeclarations_result_witness :
  ∃ os',
    printDeclarations "accv.emit_header_decl" "accv.emit_raw_pointer_api"
      examplePrinter [[exampleGPUFuncPrinting]] "" = Normal (success, os')
    ∧ hasResults exampleGPUFuncPrinting = false.
Proof.
  eexists. split; [vm_compute; reflexivity|].
  destruct (printDeclarations_result
              "accv.emit_header_decl" "accv.emit_raw_pointer_api"
              examplePrinter [[exampleGPUFuncPrinting]] "" success _
              ltac:(vm_compute; reflexivity)) as [_ Hcuda].
  destruct (proj1 (Hcuda eq_refl) eq_refl [exampleGPUFuncPrinting]
              exampleGPUFuncPrinting) as (_ & Hresults & _);
    [apply list_elem_of_here..|].
  exact Hresults.
Defined.

(** ** Launch parameters *)

Lemma ArrayAttrToVector_length l vs :
  GpuDialectCppPrinter.ArrayAttrToVector l = Normal vs → length vs = length l.
Proof.
  revert vs. induction l as [|a l IH]; intros vs; simpl.
  - by intros [= <-].
  - destruct (getInt a) as [v|]; [|done]. simpl.
    destruct (GpuDialectCppPrinter.ArrayAttrToVector l) as [vs'|]; [|done]. simpl.
    intros [= <-]. simpl. by rewrite (IH vs').
Qed.

Lemma ArrayAttrToVector_integers (vs : list Z) :
  GpuDialectCppPrinter.ArrayAttrToVector (IntegerAttr <$> vs) = Normal vs.
Proof. induction vs as [|v vs IH]; [done|]. csimpl. by rewrite IH. Qed.

(** X22.  The launch parameters survive the trip through an array
    attribute.  Where converting an array of integer attributes gives its
    integers and [VectorToArrayAttr] maps the function over the vector,
    [FromArrayAttr] gives back the grid and the block that [ToArrayAttr] was
    called on, reads the launch attribute that the constructor of [PlanImpl]
    sets for GPU options as those options, and ignores elements after the
    sixth; an array that converts to fewer than six integers makes it
    undefined. *)
Theorem launch_parameters_round_trip
    (ConvertArrayAttrToIntVector : list Attribute → Exec (list Z))
    (VectorToArrayAttr : list Z → (Z → Attribute) → list Attribute)
    (options : targets.GPU) :
  (∀ vs, ConvertArrayAttrToIntVector (IntegerAttr <$> vs) = Normal vs) →
  (∀ vs fn, VectorToArrayAttr vs fn = fn <$> vs) →
  let FromArrayAttr := targets.FromArrayAttr ConvertArrayAttrToIntVector in
  let ToArrayAttr := targets.ToArrayAttr VectorToArrayAttr in
  FromArrayAttr (ToArrayAttr options) = Normal options
  ∧ (∃ launch,
       planGPULaunchAttr (PlanImpl (targets.GPU_ options)) = Some launch
       ∧ FromArrayAttr launch = Normal options)
  ∧ (∀ more : list Z,
       FromArrayAttr (ToArrayAttr options ++ (IntegerAttr <$> more))
       = Normal options)
  ∧ (∀ arrayAttr launchParams,
       ConvertArrayAttrToIntVector arrayAttr = Normal launchParams →
       length launchParams < 6 →
       FromArrayAttr arrayAttr = Undefined).
Proof.
  intros Hconvert Hvector FromArrayAttr ToArrayAttr.
  subst FromArrayAttr ToArrayAttr.
  destruct options as [[gx gy gz] [bx by_ bz]].
  unfold targets.FromArrayAttr, targets.ToArrayAttr. cbv zeta.
  rewrite Hvector. split_and!.
  - by rewrite Hconvert.
  - exists (IntegerAttr <$> [gx; gy; gz; bx; by_; bz]).
    split; [reflexivity|]. by rewrite Hconvert.
  - intros more. by rewrite <- fmap_app, Hconvert.
  - intros arrayAttr launchParams -> Hlen. simpl.
    destruct launchParams as [|? [|? [|? [|? [|? [|? ?]]]]]]; simpl in *;
      try done; lia.
Qed.

Lemma launch_parameters_round_trip_witness :
  (∀ vs, GpuDialectCppPrinter.ArrayAttrToVector (IntegerAttr <$> vs) = Normal vs)
  ∧ targets.FromArrayAttr GpuDialectCppPrinter.ArrayAttrToVector
      (targets.ToArrayAttr (λ vs fn, fn <$> vs) exampleLaunch)
    = Normal exampleLaunch.
Proof.
  split; [exact ArrayAttrToVector_integers|].
  apply (launch_parameters_round_trip GpuDialectCppPrinter.ArrayAttrToVector
           (λ vs fn, fn <$> vs) exampleLaunch ArrayAttrToVector_integers).
  reflexivity.
Defined.
